(** * PAT demo dashboard: NetSuite integration layer

    A shallow embedding of the pieces of the repository that carry
    failure-handling logic:

    - [Concurrency]: [api/netsuite/_concurrency.js], the retrying executor
      ([getRetryDelay], [isRetryableError], [executeWithConcurrencyControl],
      [executeBatch]) and its [stats] counters;
    - [OAuth]: [api/netsuite/_oauth-m2m.js], the token exchange and the
      in-memory token cache ([exchangeJWTForToken], [getAccessToken]);
    - [Restlet]: the composite project + tasks RESTlet ([mapTaskStatus],
      [createProject], [createProjectTask], [post]);
    - [SuiteQL]: [api/netsuite/projects-suiteql.js], a query sent through
      the executor with a token from the cache ([executeSuiteQL]).

    Conventions.  A JavaScript [undefined] field is [None].  Whatever the
    outside world decides (what a request function does on its k-th
    invocation, what the token endpoint answers, whether NetSuite accepts a
    save or a delete, what [Math.random] and [Date.now] return) is an
    explicit argument, and every theorem quantifies over it.  Delays are
    IEEE-754 doubles, as in JavaScript: Rocq's primitive floats, whose
    operations are specified by [FloatAxioms] over [SpecFloat]. *)

From Stdlib Require Import QArith Qpower Qminmax Lqa DecimalString Floats.
From stdpp Require Import gmap strings list.

Open Scope string_scope.

(** ** JavaScript helpers shared by the three modules *)

(** [String(n)] for a non-negative integer. *)
Definition string_of_nat (n : nat) : string :=
  NilZero.string_of_uint (Nat.to_uint n).

(** [String(z)] for an integer. *)
Definition string_of_Z (z : Z) : string :=
  NilZero.string_of_int (Z.to_int z).

(** The one-character string holding a double quote. *)
Definition dquote : string := String (Ascii.ascii_of_nat 34) EmptyString.

(** What a template literal prints for a field that may be [undefined]. *)
Definition template (s : option string) : string :=
  match s with
  | Some v => v
  | None => "undefined"
  end.

(** [s.includes(sub)]. *)
Fixpoint includes (s sub : string) : bool :=
  String.prefix sub s ||
  match s with
  | EmptyString => false
  | String _ s' => includes s' sub
  end.

(** Truthiness of a string-valued field: [undefined] and [''] are falsy. *)
Definition truthy_string (s : option string) : bool :=
  match s with
  | Some v => negb (String.eqb v EmptyString)
  | None => false
  end.

(** [a || b] on string-valued fields. *)
Definition or_else (a : option string) (b : string) : string :=
  if truthy_string a then template a else b.

(** *** Numbers *)

(** The double that holds an integer (exact for 0 <= z < 2^53). *)
Definition double (z : Z) : float := PrimFloat.of_uint63 (Uint63.of_Z z).

(** [Math.pow(2, n)] for a loop counter [n]: the power of two, and
    [Infinity] from 2^1024 on. *)
Definition Math_pow_2 (n : nat) : float := Z.ldexp 1%float (Z.of_nat n).

(** [Math.min(a, b)]: [NaN] when an operand is, and -0 below +0. *)
Definition Math_min (a b : float) : float :=
  if PrimFloat.is_nan a || PrimFloat.is_nan b then PrimFloat.nan
  else if (a <? b)%float then a
  else if (b <? a)%float then b
  else if PrimFloat.get_sign a then a else b.

(** The rational number a positive finite double [m * 2^e] stands for. *)
Definition F2Q (m : positive) (e : Z) : Q := (inject_Z (Zpos m) * 2 ^ e)%Q.

(** ** The retrying executor, [_concurrency.js] *)

Module Concurrency.

(** The retry part of [CONFIG]. *)
Record config := {
  maxRetries : nat;
  initialRetryDelay : Z;
  maxRetryDelay : Z
}.

Definition CONFIG : config :=
  {| maxRetries := 3; initialRetryDelay := 1000; maxRetryDelay := 32000 |}.

(** The module-level [stats] object. *)
Record stats := {
  totalRequests : Z;
  successfulRequests : Z;
  failedRequests : Z;
  retriedRequests : Z;
  queuedRequests : Z;
  activeRequests : Z
}.

(** [response] of a thrown error. *)
Record http_response := { status : Z }.

(** An error object as the executor looks at it. *)
Record js_error := {
  code : option string;
  message : option string;
  response : option http_response
}.

(** [new Error(msg)]. *)
Definition new_Error (msg : string) : js_error :=
  {| code := None; message := Some msg; response := None |}.

(** A resolved value of [requestFn]: an opaque payload and, when the value
    has a truthy [error] member, that member's [code]. *)
Record js_result := {
  payload : string;
  result_error_code : option string
}.

(** One invocation of [requestFn] resolves, or rejects with an error
    object, or rejects with [undefined] or [null].  In the last case
    [type_error] is the [TypeError] the engine raises when the [catch]
    block reads [error.response]. *)
Inductive settle :=
| Resolves (r : js_result)
| Rejects (e : js_error)
| RejectsNullish (type_error : js_error).

(** A request function is a closure with effects: what it does depends on
    how many times it has been invoked before. *)
Definition request_fn := nat -> settle.

(** The delay before jitter, [min(initialRetryDelay * 2^attemptNumber,
    maxRetryDelay)], as a rational number; the doubles of [getRetryDelay]
    compute it exactly ([delay_exact] below). *)
Definition backoff (attemptNumber : nat) : Q :=
  Qmin (inject_Z (initialRetryDelay CONFIG) * 2 ^ Z.of_nat attemptNumber)
       (inject_Z (maxRetryDelay CONFIG)).

(** [getRetryDelay], in doubles; [random] is the value [Math.random()]
    returns, and [0x1.999999999999ap-3] is the double the literal [0.2]
    denotes. *)
Definition getRetryDelay (attemptNumber : nat) (random : float) : float :=
  let delay :=
    Math_min (double (initialRetryDelay CONFIG) * Math_pow_2 attemptNumber)
             (double (maxRetryDelay CONFIG)) in
  let jitter := (delay * 0x1.999999999999ap-3 * random)%float in
  (delay + jitter)%float.

Definition retryableStatuses : list Z := [429; 500; 502; 503; 504]%Z.

Definition retryableCodes : list string :=
  ["ECONNRESET"; "ETIMEDOUT"; "ENOTFOUND"].

(** [isRetryableError(error, response)]. *)
Definition isRetryableError (error : js_error) (resp : option http_response) : bool :=
  if match resp with
     | Some r => bool_decide (status r ∈ retryableStatuses)
     | None => false
     end
  then true
  else if truthy_string (code error) &&
          bool_decide (template (code error) ∈ retryableCodes)
  then true
  else if truthy_string (message error) &&
          includes (template (message error)) "SSS_REQUEST_LIMIT_EXCEEDED"
  then true
  else false.

(** What one iteration of the loop sees: the result that passed the
    rate-limit check, the error object bound by [catch (error)], or a
    nullish value bound by it. *)
Inductive attempt :=
| passed (result : js_result)
| caught (error : js_error)
| caught_nullish (type_error : js_error).

(** The body of the [try] block up to the rate-limit check. *)
Definition try_request (o : settle) : attempt :=
  match o with
  | Resolves r =>
      if bool_decide (result_error_code r = Some "SSS_REQUEST_LIMIT_EXCEEDED")
      then caught (new_Error "SSS_REQUEST_LIMIT_EXCEEDED")
      else passed r
  | Rejects e => caught e
  | RejectsNullish type_error => caught_nullish type_error
  end.

(** The attempt fails with an error the executor retries. *)
Definition retryable_failure (o : settle) : bool :=
  match try_request o with
  | caught e => isRetryableError e (response e)
  | _ => false
  end.

(** The zeroed counters, as [resetStats] leaves them. *)
Definition resetStats : stats :=
  {| totalRequests := 0; successfulRequests := 0; failedRequests := 0;
     retriedRequests := 0; queuedRequests := 0; activeRequests := 0 |}.

(** What one run of the executor leaves behind. *)
Record run := {
  outcome : js_result + js_error;
  stats_after : stats;
  invocations : nat;
  sleeps : list float
}.

(** How the retry loop is left: by [return result], by [break] or its
    condition (with [lastError]), or by the [TypeError] thrown inside the
    [catch] block. *)
Inductive loop_exit :=
| returned (result : js_result)
| left_loop (lastError : option js_error)
| catch_threw (type_error : js_error).

Definition on_success (attempt : nat) (st : stats) : stats :=
  {| totalRequests := totalRequests st;
     successfulRequests := successfulRequests st + 1;
     failedRequests := failedRequests st;
     retriedRequests :=
       if (0 <? attempt)%nat then retriedRequests st + 1 else retriedRequests st;
     queuedRequests := queuedRequests st;
     activeRequests := activeRequests st - 1 |}%Z.

Definition on_exhausted (st : stats) : stats :=
  {| totalRequests := totalRequests st;
     successfulRequests := successfulRequests st;
     failedRequests := failedRequests st + 1;
     retriedRequests := retriedRequests st;
     queuedRequests := queuedRequests st;
     activeRequests := activeRequests st - 1 |}%Z.

Definition on_submit (st : stats) : stats :=
  {| totalRequests := totalRequests st + 1;
     successfulRequests := successfulRequests st;
     failedRequests := failedRequests st;
     retriedRequests := retriedRequests st;
     queuedRequests := queuedRequests st + 1;
     activeRequests := activeRequests st |}%Z.

Definition on_admit (st : stats) : stats :=
  {| totalRequests := totalRequests st;
     successfulRequests := successfulRequests st;
     failedRequests := failedRequests st;
     retriedRequests := retriedRequests st;
     queuedRequests := queuedRequests st - 1;
     activeRequests := activeRequests st + 1 |}%Z.

Section Executor.

(** [requestFn], the jitter draws of [Math.random] and the [maxRetries]
    option. *)
Variable requestFn : request_fn.
Variable random : nat -> float.
Variable max_retries : nat.

(** The [for (let attempt = 0; attempt <= maxRetries; attempt++)] loop.
    [remaining] counts the iterations the loop condition still allows
    ([maxRetries + 1 - attempt]); [calls] and [slept] record the
    invocations of [requestFn] and the delays passed to [sleep].  A
    nullish rejection makes [lastResponse = error.response] throw: the
    function is left there, before any counter is touched. *)
Fixpoint attempts (remaining attempt : nat) (lastError : option js_error)
    (st : stats) (calls : nat) (slept : list float)
    : loop_exit * stats * nat * list float :=
  match remaining with
  | O => (left_loop lastError, st, calls, slept)
  | S remaining' =>
      match try_request (requestFn calls) with
      | passed result => (returned result, on_success attempt st, S calls, slept)
      | caught error =>
          let lastResponse := response error in
          if (attempt <? max_retries)%nat && isRetryableError error lastResponse
          then
            let delay := getRetryDelay attempt (random (length slept)) in
            attempts remaining' (S attempt) (Some error) st (S calls)
                     (slept ++ [delay])%list
          else (left_loop (Some error), st, S calls, slept)
      | caught_nullish type_error => (catch_threw type_error, st, S calls, slept)
      end
  end.

(** The error thrown after the loop.  Reading [message] of an
    [undefined] [lastError] is a [TypeError]. *)
Definition exhausted_error (lastError : option js_error) : js_error :=
  match lastError with
  | Some e =>
      new_Error ("Request failed after " ++ string_of_nat (max_retries + 1)
                 ++ " attempts: " ++ template (message e))
  | None =>
      new_Error "Cannot read properties of undefined (reading 'message')"
  end.

(** [executeWithConcurrencyControl(requestFn, { maxRetries })].  The limiter
    only delays the start of the callback; the operation is taken from the
    moment it is admitted.  When the [catch] block throws, the statements
    after the loop are not reached. *)
Definition executeWithConcurrencyControl (st : stats) : run :=
  let st := on_admit (on_submit st) in
  match attempts (S max_retries) 0 None st 0 [] with
  | (returned result, st', calls, slept) =>
      {| outcome := inl result; stats_after := st';
         invocations := calls; sleeps := slept |}
  | (left_loop lastError, st', calls, slept) =>
      {| outcome := inr (exhausted_error lastError);
         stats_after := on_exhausted st';
         invocations := calls; sleeps := slept |}
  | (catch_threw type_error, st', calls, slept) =>
      {| outcome := inr type_error; stats_after := st';
         invocations := calls; sleeps := slept |}
  end.

End Executor.

(** *** [executeBatch] *)

(** The two objects a batch promise resolves to:
    [{ success: true, data, index }] and
    [{ success: false, error: { code, message, index } }]. *)
Inductive batch_item :=
| ItemSucceeded (data : js_result) (index : nat)
| ItemFailed (error_code : string) (error_message : option string) (index : nat).

(** The argument of [onProgress]. *)
Record progress_event := {
  completed : nat;
  total : nat;
  progress_index : nat;
  progress_error : option js_error
}.

(** A settled promise, as [Promise.allSettled] reports it:
    [{ status: 'fulfilled', value }] or [{ status: 'rejected', reason }]. *)
Inductive settled :=
| fulfilled (value : batch_item)
| rejected (reason : js_error).

(** What [executeBatch] hands back: the array of [Promise.all], the array of
    [Promise.allSettled], or the rejection of [Promise.all]. *)
Inductive batch_result :=
| AllValues (values : list batch_item)
| AllSettled (results : list settled)
| BatchRejected (reason : js_error).

(** State shared by the promises of one batch: the module's [stats], the
    [completed] counter and the calls made to [onProgress]. *)
Record batch_state := {
  batch_stats : stats;
  batch_completed : nat;
  batch_progress : list progress_event
}.

Section Batch.

(** The [failFast] option, whether an [onProgress] callback was given, the
    jitter draws, and which of the rejected promises was rejected first in
    time ([race], counted among the rejected ones and taken modulo their
    number): the code does not determine it. *)
Variable failFast : bool.
Variable onProgress : bool.
Variable random : nat -> float.
Variable race : nat.

Definition report (n index : nat) (err : option js_error) (w : batch_state)
    (st : stats) : batch_state :=
  let done := S (batch_completed w) in
  {| batch_stats := st;
     batch_completed := done;
     batch_progress :=
       if onProgress
       then (batch_progress w ++
             [{| completed := done; total := n;
                 progress_index := index; progress_error := err |}])%list
       else batch_progress w |}.

(** The callback given to [requestFns.map]. *)
Definition batch_promise (n : nat) (fn : request_fn) (index : nat)
    (w : batch_state) : settled * batch_state :=
  let r := executeWithConcurrencyControl fn random (maxRetries CONFIG)
             (batch_stats w) in
  match outcome r with
  | inl result =>
      (fulfilled (ItemSucceeded result index),
       report n index None w (stats_after r))
  | inr error =>
      (if failFast then rejected error
       else fulfilled (ItemFailed "BATCH_ITEM_FAILED" (message error) index),
       report n index (Some error) w (stats_after r))
  end.

(** [requestFns.map(async (fn, index) => ...)], the promises run to
    completion one after the other in index order (one of the schedules
    the limiter admits; the operations do not share state other than the
    counters). *)
Fixpoint batch_promises (n : nat) (fns : list request_fn) (index : nat)
    (w : batch_state) : list settled * batch_state :=
  match fns with
  | [] => ([], w)
  | fn :: rest =>
      let '(p, w1) := batch_promise n fn index w in
      let '(ps, w2) := batch_promises n rest (S index) w1 in
      (p :: ps, w2)
  end.

(** The values of the fulfilled promises and the reasons of the rejected
    ones, each in index order. *)
Definition fulfilments (ps : list settled) : list batch_item :=
  omap (fun p => match p with fulfilled v => Some v | rejected _ => None end) ps.

Definition rejections (ps : list settled) : list js_error :=
  omap (fun p => match p with rejected e => Some e | fulfilled _ => None end) ps.

(** [Promise.all]: the values when every promise is fulfilled; otherwise it
    rejects with the reason of the promise that was rejected first in
    time. *)
Definition promise_all (ps : list settled) : list batch_item + js_error :=
  match rejections ps with
  | [] => inl (fulfilments ps)
  | e :: es => inr (default e ((e :: es) !! (race `mod` length (e :: es))%nat))
  end.

(** [executeBatch(requestFns, { failFast, onProgress })], with the state
    the batch leaves once every promise has settled. *)
Definition executeBatch (requestFns : list request_fn) (st : stats)
    : batch_result * batch_state :=
  let w0 := {| batch_stats := st; batch_completed := 0; batch_progress := [] |} in
  let '(promises, w) := batch_promises (length requestFns) requestFns 0 w0 in
  if failFast
  then match promise_all promises with
       | inl vs => (AllValues vs, w)
       | inr e => (BatchRejected e, w)
       end
  else (AllSettled promises, w).

End Batch.

End Concurrency.

(** ** The token exchange and its cache, [_oauth-m2m.js] *)

Module OAuth.

(** The four environment variables [getOAuthConfig] reads. *)
Record environment := {
  NETSUITE_ACCOUNT_ID : option string;
  NETSUITE_CLIENT_ID : option string;
  NETSUITE_CERT_ID : option string;
  NETSUITE_PRIVATE_KEY : option string
}.

Record oauth_config := {
  accountId : string;
  clientId : string;
  certId : string;
  privateKey : string;
  tokenEndpoint : string;
  scope : string
}.

(** [missing.join(', ')]. *)
Fixpoint join (sep : string) (l : list string) : string :=
  match l with
  | [] => EmptyString
  | [x] => x
  | x :: rest => x ++ sep ++ join sep rest
  end.

(** [getOAuthConfig]; the left side is the message of the thrown [Error]. *)
Definition getOAuthConfig (env : environment) : string + oauth_config :=
  let required :=
    [("accountId", NETSUITE_ACCOUNT_ID env);
     ("clientId", NETSUITE_CLIENT_ID env);
     ("certId", NETSUITE_CERT_ID env);
     ("privateKey", NETSUITE_PRIVATE_KEY env)] in
  let missing :=
    map fst (filter (fun kv => negb (truthy_string (snd kv))) required) in
  if (0 <? length missing)%nat
  then inl ("Missing OAuth M2M configuration: " ++ join ", " missing)
  else
    let account := template (NETSUITE_ACCOUNT_ID env) in
    inr {| accountId := account;
           clientId := template (NETSUITE_CLIENT_ID env);
           certId := template (NETSUITE_CERT_ID env);
           privateKey := template (NETSUITE_PRIVATE_KEY env);
           tokenEndpoint :=
             "https://" ++ account ++
             ".suitetalk.api.netsuite.com/services/rest/auth/oauth2/v1/token";
           scope := "rest_webservices restlets" |}.

(** The JSON body of a token response: [access_token] and [expires_in],
    either of which may be absent. *)
Record token_payload := {
  access_token : option string;
  expires_in : option Z
}.

(** What [fetch] resolves to.  [json = None] when [response.json()] rejects
    (the body does not parse) or yields [null] (reading [access_token]
    throws); [json_error] is then the message of the error the engine
    raises. *)
Record http_reply := {
  ok : bool;
  status : Z;
  text : string;
  json : option token_payload;
  json_error : string
}.

(** What the outside world does during one call: the environment, the
    result of importing the key and signing the assertion ([jose]), what
    [fetch] does (it rejects with a message or resolves), and the two
    readings of [Date.now()]. *)
Record outside := {
  env : environment;
  sign : oauth_config -> string + string;
  fetch : string + http_reply;
  now : Z;
  now_after_exchange : Z
}.

(** [generateClientAssertion]. *)
Definition generateClientAssertion (io : outside) : string + string :=
  match getOAuthConfig (env io) with
  | inl err => inl err
  | inr config => sign io config
  end.

(** [exchangeJWTForToken], with the number of [fetch] calls it made. *)
Definition exchangeJWTForToken (io : outside) : (string + token_payload) * nat :=
  match getOAuthConfig (env io) with
  | inl err => (inl err, 0)
  | inr config =>
      match generateClientAssertion io with
      | inl err => (inl err, 0)
      | inr clientAssertion =>
          match fetch io with
          | inl err => (inl err, 1)
          | inr reply =>
              if negb (ok reply)
              then (inl ("OAuth token exchange failed: " ++
                         string_of_Z (status reply) ++ " - " ++ text reply), 1)
              else
                match json reply with
                | None => (inl (json_error reply), 1)
                | Some data =>
                    if negb (truthy_string (access_token data))
                    then (inl "No access_token in OAuth response", 1)
                    else (inr data, 1)
                end
          end
      end
  end.

(** A value of [tokenCache].  [expiresAt] is [NaN] ([None]) when the token
    response carried no [expires_in]. *)
Record cache_entry := {
  token : string;
  expiresAt : option Z
}.

(** The state of the module: [tokenCache], and a counter of the token
    exchanges sent over the network so far (the [fetch] calls; it is not in
    the source and is kept to count them). *)
Record state := {
  tokenCache : gmap string cache_entry;
  exchanges : nat
}.

(** [cached.expiresAt > Date.now() + 300000]; a comparison with [NaN] is
    false. *)
Definition fresh (cached : cache_entry) (t : Z) : bool :=
  match expiresAt cached with
  | Some e => (t + 300000 <? e)%Z
  | None => false
  end.

(** The part of [getAccessToken] after the cache check: exchange, then
    [tokenCache.set]. *)
Definition refresh (io : outside) (s : state) : (string + string) * state :=
  let '(r, n) := exchangeJWTForToken io in
  match r with
  | inl err =>
      (inl err, {| tokenCache := tokenCache s; exchanges := exchanges s + n |})
  | inr data =>
      let entry :=
        {| token := template (access_token data);
           expiresAt :=
             match expires_in data with
             | Some secs => Some (now_after_exchange io + secs * 1000)%Z
             | None => None
             end |} in
      (inr (template (access_token data)),
       {| tokenCache := <["access_token" := entry]> (tokenCache s);
          exchanges := exchanges s + n |})
  end.

(** [getAccessToken]: the token (right) or the message of the error it
    throws (left). *)
Definition getAccessToken (io : outside) (s : state) : (string + string) * state :=
  match tokenCache s !! "access_token" with
  | Some cached =>
      if fresh cached (now io) then (inr (token cached), s) else refresh io s
  | None => refresh io s
  end.

(** [clearTokenCache]. *)
Definition clearTokenCache (s : state) : state :=
  {| tokenCache := ∅; exchanges := exchanges s |}.

(** [getAuthHeader]. *)
Definition getAuthHeader (io : outside) (s : state) : (string + string) * state :=
  match getAccessToken io s with
  | (inl err, s') => (inl err, s')
  | (inr tok, s') => (inr ("Bearer " ++ tok), s')
  end.

(** The arguments [netsuiteRequest] gives to [fetch]: the URL and the
    [headers] object. *)
Record api_request := {
  url : string;
  headers : gmap string string
}.

(** The headers [netsuiteRequest] sets itself. *)
Definition default_headers (authHeader : string) : gmap string string :=
  {[ "Authorization" := authHeader;
     "Content-Type" := "application/json";
     "Accept" := "application/json" ]}.

(** [netsuiteRequest(endpoint, options)] up to its call of [fetch], whose
    response it returns as it is: the request it sends, or the message of
    the error thrown before.  [options_headers] is [options.headers]; in
    the object spread the caller's members come last and win. *)
Definition netsuiteRequest (io : outside) (endpoint : string)
    (options_headers : option (gmap string string)) (s : state)
    : (string + api_request) * state :=
  match getOAuthConfig (env io) with
  | inl err => (inl err, s)
  | inr config =>
      let target :=
        "https://" ++ accountId config ++ ".suitetalk.api.netsuite.com" ++ endpoint in
      match getAuthHeader io s with
      | (inl err, s') => (inl err, s')
      | (inr authHeader, s') =>
          (inr {| url := target;
                  headers := default ∅ options_headers ∪ default_headers authHeader |},
           s')
      end
  end.

End OAuth.

(** ** The composite project + tasks RESTlet *)

Module Restlet.

(** *** [mapTaskStatus] *)

(** The values a property read on [statusMap] can produce: [undefined], one
    of the strings the literal holds, or a member the literal inherits from
    [Object.prototype] (a function, or the prototype itself for
    [__proto__]). *)
Inductive js_value :=
| Undefined
| Str (s : string)
| Inherited (member : string).

(** The own properties of the [statusMap] literal. *)
Definition statusMap : gmap string string :=
  {[ "Not Started" := "NOTSTART";
     "In Progress" := "PROGRESS";
     "Completed" := "COMPLETE";
     "On Hold" := "ONHOLD" ]}.

(** The members every object literal inherits from [Object.prototype]. *)
Definition Object_prototype : list string :=
  ["constructor"; "__proto__"; "hasOwnProperty"; "isPrototypeOf";
   "propertyIsEnumerable"; "toLocaleString"; "toString"; "valueOf";
   "__defineGetter__"; "__defineSetter__"; "__lookupGetter__";
   "__lookupSetter__"].

(** [obj[key]] on an object literal: own properties first, then the
    prototype. *)
Definition get (obj : gmap string string) (key : string) : js_value :=
  match obj !! key with
  | Some v => Str v
  | None =>
      if bool_decide (key ∈ Object_prototype) then Inherited key else Undefined
  end.

(** Truthiness: [undefined] and [''] are falsy, functions and objects are
    truthy. *)
Definition truthy (v : js_value) : bool :=
  match v with
  | Undefined => false
  | Str s => negb (String.eqb s EmptyString)
  | Inherited _ => true
  end.

(** [mapTaskStatus(frontendStatus)]; a property key that is [undefined] is
    the string ['undefined']. *)
Definition mapTaskStatus (frontendStatus : option string) : js_value :=
  let v := get statusMap (template frontendStatus) in
  if truthy v then v else Str "NOTSTART".

(** *** Records and the remote system *)

(** An error as the handler looks at it: [name] and [message]. *)
Record ns_error := {
  name : option string;
  message : option string
}.

(** [error.create({ name, message, notifyOff: true })]. *)
Definition error_create (n m : string) : ns_error :=
  {| name := Some n; message := Some m |}.

(** [requestBody.project.customerId] can be any JSON value.  The handler
    looks at it twice: at its truthiness, in the validation, and at
    [parseInt] of it, for the [parent] field ([None] is [NaN]).  The number
    3161 is truthy and parses to 3161; 0 is falsy; 1e21 is truthy and
    parses to 1 (its decimal form is ['1e+21']); the string ['abc'] is
    truthy and parses to [NaN]; a missing member is falsy and parses to
    [NaN]. *)
Record customer_id := {
  is_truthy : bool;
  parseInt : option Z
}.

(** A [customerId] that is an integer of magnitude below 1e21. *)
Definition customer_number (z : Z) : customer_id :=
  {| is_truthy := negb (z =? 0)%Z; parseInt := Some z |}.

(** [requestBody.project], the members the control flow reads.  The optional
    members ([startDate], [endDate], [status], [description]) only fill
    further fields of the record. *)
Record project_payload := {
  project_name : option string;
  project_entityid : option string;
  customerId : customer_id
}.

(** An element of [requestBody.tasks] that is not [null]: its name and
    status.  The other members ([plannedWork], [resource], [serviceItem],
    ...) only fill further fields of the record. *)
Record task_payload := {
  task_name : option string;
  task_status : option string
}.

(** The request body; an element of [tasks] is [None] when the JSON array
    holds [null] there. *)
Record request_body := {
  project : option project_payload;
  tasks : option (list (option task_payload))
}.

(** A saved job record; [parent] is [None] when it was set to [NaN]. *)
Record job := {
  entityid : string;
  companyname : option string;
  parent : option Z
}.

(** A saved project task record. *)
Record projecttask := {
  company : Z;
  title : string;
  status : option js_value
}.

Inductive log_level := AUDIT | ERROR | DEBUG.

(** The NetSuite account: job and project task records by internal id, the
    next internal id, and the script's execution log. *)
Record netsuite := {
  jobs : gmap Z job;
  projecttasks : gmap Z projecttask;
  next_id : Z;
  execution_log : list (log_level * string)
}.

(** What the platform decides during one request: the error NetSuite
    raises while [createProject] runs, if any (from a [setValue] or from
    [save]); the error it raises while the fields of the task at a given
    index are set and the task is saved, if any (the optional fields have
    a [try] of their own); the error [record.delete] throws, if any; the reading
    of [Date.now()]; and the message of the [TypeError] the script engine
    raises when the member [name] of [null] is read.  A create that throws
    leaves no record; a delete that throws leaves the record. *)
Record remote := {
  job_save : option ns_error;
  task_save : nat -> option ns_error;
  job_delete : option ns_error;
  clock : Z;
  null_name_message : string
}.

(** The [TypeError] raised by [taskData.name] or [task.name] on a [null]
    task. *)
Definition TypeError (R : remote) : ns_error :=
  {| name := Some "TypeError"; message := Some (null_name_message R) |}.

Definition log (level : log_level) (title : string) (ns : netsuite) : netsuite :=
  {| jobs := jobs ns; projecttasks := projecttasks ns; next_id := next_id ns;
     execution_log := (execution_log ns ++ [(level, title)])%list |}.

(** [createProject(projectData)]. *)
Definition createProject (R : remote) (projectData : project_payload)
    (ns : netsuite) : (ns_error + Z) * netsuite :=
  let projectRec :=
    {| entityid :=
         or_else (project_entityid projectData)
                 ("PROJ-" ++ string_of_Z (clock R));
       companyname :=
         if truthy_string (project_name projectData)
         then project_name projectData
         else project_entityid projectData;
       parent := parseInt (customerId projectData) |} in
  match job_save R with
  | Some e => (inl e, ns)
  | None =>
      let projectId := next_id ns in
      (inr projectId,
       log AUDIT "Project Created"
         {| jobs := <[projectId := projectRec]> (jobs ns);
            projecttasks := projecttasks ns;
            next_id := (projectId + 1)%Z;
            execution_log := execution_log ns |})
  end.

(** [createProjectTask(taskData, projectId)] for the task at [index].  On a
    [null] task, reading [taskData.name] for the title throws, before any
    member is copied and before [save]. *)
Definition createProjectTask (R : remote) (index : nat)
    (taskData : option task_payload) (projectId : Z) (ns : netsuite)
    : (ns_error + Z) * netsuite :=
  match taskData with
  | None => (inl (TypeError R), ns)
  | Some taskData =>
      let taskRec :=
        {| company := projectId;
           title := or_else (task_name taskData) "Untitled Task";
           status :=
             if truthy_string (task_status taskData)
             then Some (mapTaskStatus (task_status taskData))
             else None |} in
      match task_save R index with
      | Some e => (inl e, ns)
      | None =>
          let taskId := next_id ns in
          (inr taskId,
           log AUDIT "Task Created"
             {| jobs := jobs ns;
                projecttasks := <[taskId := taskRec]> (projecttasks ns);
                next_id := (taskId + 1)%Z;
                execution_log := execution_log ns |})
      end
  end.

(** [record.delete({ type: record.Type.JOB, id })]. *)
Definition record_delete (R : remote) (id : Z) (ns : netsuite)
    : (ns_error + unit) * netsuite :=
  match job_delete R with
  | Some e => (inl e, ns)
  | None =>
      (inr tt,
       {| jobs := delete id (jobs ns); projecttasks := projecttasks ns;
          next_id := next_id ns; execution_log := execution_log ns |})
  end.

(** *** The response envelope *)

Record response_data := {
  data_projectId : option Z;
  taskIds : list Z;
  taskCount : nat;
  data_entityid : option string
}.

Record error_details := {
  details_projectId : option Z;
  partialTasksCreated : nat;
  totalTasksRequested : nat
}.

Record response_error := {
  code : string;
  error_message : string;
  details : error_details
}.

Record response := {
  success : bool;
  data : option response_data;
  error : option response_error
}.

(** *** [post] *)

(** The [catch (taskError)] block for the task at index [i], with the error
    that leaves it.  The block first builds the details of its log line,
    [task.name] among them: on a [null] task this throws, before anything
    is logged and before [record.delete] is reached.  Otherwise: log, try
    to delete the project, and throw [TASK_CREATE_FAILED]. *)
Definition rollback (R : remote) (task : option task_payload) (i : nat)
    (taskError : ns_error) (projectId : Z) (ns : netsuite) : ns_error * netsuite :=
  match task with
  | None => (TypeError R, ns)
  | Some task =>
      let ns := log ERROR "Task Creation Failed" ns in
      let ns :=
        match record_delete R projectId ns with
        | (inr _, ns') => log AUDIT "Rollback Complete" ns'
        | (inl deleteError, ns') => log ERROR "Rollback Failed" ns'
        end in
      (error_create "TASK_CREATE_FAILED"
         ("Failed to create task " ++ dquote ++ template (task_name task) ++
          dquote ++ " (index " ++ string_of_nat i ++ "): " ++
          template (message taskError) ++ ". Project " ++
          string_of_Z projectId ++ " has been rolled back."),
       ns)
  end.

(** The [for (let i = 0; i < requestBody.tasks.length; i++)] loop, from
    index [i] on; [createdTaskIds] is the array the loop pushes to. *)
Fixpoint create_tasks (R : remote) (remaining : list (option task_payload)) (i : nat)
    (projectId : Z) (createdTaskIds : list Z) (ns : netsuite)
    : option ns_error * list Z * netsuite :=
  match remaining with
  | [] => (None, createdTaskIds, ns)
  | task :: rest =>
      match createProjectTask R i task projectId ns with
      | (inr taskId, ns') =>
          create_tasks R rest (S i) projectId (createdTaskIds ++ [taskId])%list ns'
      | (inl taskError, ns') =>
          let '(e, ns'') := rollback R task i taskError projectId ns' in
          (Some e, createdTaskIds, ns'')
      end
  end.

(** The [try] block of [post]: the error it throws, if any, and the values
    of [projectId] and [createdTaskIds] when it is left. *)
Definition post_try (R : remote) (requestBody : request_body) (ns : netsuite)
    : option ns_error * option Z * list Z * netsuite :=
  match project requestBody with
  | None =>
      (Some (error_create "MISSING_PROJECT_DATA"
               ("Request must include " ++ dquote ++ "project" ++ dquote ++
                " object")), None, [], ns)
  | Some projectData =>
      if negb (is_truthy (customerId projectData))
      then (Some (error_create "MISSING_CUSTOMER_ID"
                    "Project must specify customerId"), None, [], ns)
      else
        let ns := log AUDIT "Starting Composite Create" ns in
        match createProject R projectData ns with
        | (inl e, ns') => (Some e, None, [], ns')
        | (inr projectId, ns') =>
            let '(thrown, created, ns'') :=
              create_tasks R (default [] (tasks requestBody)) 0 projectId [] ns' in
            (thrown, Some projectId, created, ns'')
        end
  end.

(** [post(requestBody)]. *)
Definition post (R : remote) (requestBody : request_body) (ns : netsuite)
    : response * netsuite :=
  match post_try R requestBody ns with
  | (None, projectId, createdTaskIds, ns') =>
      ({| success := true;
          data := Some {| data_projectId := projectId;
                          taskIds := createdTaskIds;
                          taskCount := length createdTaskIds;
                          data_entityid :=
                            project requestBody ≫= project_entityid |};
          error := None |},
       ns')
  | (Some e, projectId, createdTaskIds, ns') =>
      ({| success := false;
          data := None;
          error :=
            Some {| code := or_else (name e) "COMPOSITE_CREATE_ERROR";
                    error_message := or_else (message e) "Unknown error occurred";
                    details :=
                      {| details_projectId := projectId;
                         partialTasksCreated := length createdTaskIds;
                         totalTasksRequested :=
                           length (default [] (tasks requestBody)) |} |} |},
       log ERROR "Composite Create Failed" ns')
  end.

(** *** What a caller and an operator can observe *)

#[global] Instance log_level_eq_dec : EqDecision log_level.
Proof. solve_decision. Defined.

#[global] Instance task_payload_eq_dec : EqDecision task_payload.
Proof. solve_decision. Defined.

(** The value of the handler's [projectId] variable, as the envelope
    reports it: [data.projectId] or [error.details.projectId]. *)
Definition response_projectId (r : response) : option Z :=
  match data r, error r with
  | Some d, _ => data_projectId d
  | None, Some e => details_projectId (details e)
  | None, None => None
  end.

(** The project this request created is among the job records. *)
Definition parent_exists (r : response) (ns : netsuite) : Prop :=
  exists id, response_projectId r = Some id /\ is_Some (jobs ns !! id).

(** The log lines written between two states of the account. *)
Definition new_log_entries (before after : netsuite) : list (log_level * string) :=
  drop (length (execution_log before)) (execution_log after).

(** The request logged that its compensating delete threw. *)
Definition rollback_failed (before after : netsuite) : Prop :=
  (ERROR, "Rollback Failed") ∈ new_log_entries before after.

End Restlet.

(** ** SuiteQL queries, [projects-suiteql.js] *)

Module SuiteQL.

(** The JSON body of a query response: its [items] member, when truthy, and
    the [code] of its own [error] member, when it has one.  [items] is
    whatever the body holds there: normally the array of rows, which has no
    [error] member, but an object with an [error] member of its own is
    returned, and looked at by the executor, just the same. *)
Record query_body := {
  items : option Concurrency.js_result;
  body_error_code : option string
}.

(** What [fetch] resolves to for a query.  [json = None] when
    [response.json()] rejects (the body does not parse) or yields [null]
    (reading [items] throws); [json_error] is then the message of the error
    the engine raises. *)
Record query_reply := {
  ok : bool;
  status : Z;
  text : string;
  json : option query_body;
  json_error : string
}.

(** The empty array of [result.items || []]. *)
Definition empty_array : Concurrency.js_result :=
  {| Concurrency.payload := "[]"; Concurrency.result_error_code := None |}.

(** The network during one query: what the k-th call of [fetch] does (it
    rejects with an error or resolves). *)
Definition query_network := nat -> Concurrency.js_error + query_reply.

(** The [requestFn] closure of [executeSuiteQL]; it returns
    [result.items || []]. *)
Definition requestFn (net : query_network) : Concurrency.request_fn :=
  fun k =>
    match net k with
    | inl e => Concurrency.Rejects e
    | inr reply =>
        if negb (ok reply)
        then Concurrency.Rejects
               (Concurrency.new_Error
                  ("SuiteQL query failed: " ++ string_of_Z (status reply) ++
                   " - " ++ text reply))
        else
          match json reply with
          | None =>
              Concurrency.Rejects (Concurrency.new_Error (json_error reply))
          | Some body => Concurrency.Resolves (default empty_array (items body))
          end
    end.

(** What one call of [executeSuiteQL] leaves behind: its result or the
    error it throws, the token module's state, the executor's counters and
    the number of query requests sent. *)
Record query_run := {
  result : Concurrency.js_result + Concurrency.js_error;
  oauth_after : OAuth.state;
  stats_after : Concurrency.stats;
  queries_sent : nat
}.

(** [executeSuiteQL(query)]: the token is awaited first, then the closure
    goes through the executor with the default options. *)
Definition executeSuiteQL (io : OAuth.outside) (net : query_network)
    (random : nat -> float) (s : OAuth.state) (st : Concurrency.stats) : query_run :=
  match OAuth.getAccessToken io s with
  | (inl err, s') =>
      {| result := inr (Concurrency.new_Error err); oauth_after := s';
         stats_after := st; queries_sent := 0 |}
  | (inr accessToken, s') =>
      let r := Concurrency.executeWithConcurrencyControl (requestFn net) random
                 (Concurrency.maxRetries Concurrency.CONFIG) st in
      {| result := Concurrency.outcome r; oauth_after := s';
         stats_after := Concurrency.stats_after r;
         queries_sent := Concurrency.invocations r |}
  end.

End SuiteQL.

(** * Rounding in double precision

    [SpecFloat] specifies the operations on doubles as the rounding to
    nearest, ties to even, of the exact result.  What the delay bounds need
    of it: a result does not cross a representable number the exact value
    does not cross. *)

Module DoubleRounding.

Local Open Scope Z_scope.

(** The number of binary digits of a mantissa. *)
Lemma digits2_pos_bounds m :
  2 ^ (Zpos (digits2_pos m) - 1) <= Zpos m < 2 ^ Zpos (digits2_pos m).
Proof.
  induction m as [p IH|p IH|]; cbn [digits2_pos].
  - rewrite Pos2Z.inj_succ.
    replace (Z.succ (Zpos (digits2_pos p)) - 1) with (Z.succ (Zpos (digits2_pos p) - 1)) by lia.
    rewrite !Z.pow_succ_r by lia. lia.
  - rewrite Pos2Z.inj_succ.
    replace (Z.succ (Zpos (digits2_pos p)) - 1) with (Z.succ (Zpos (digits2_pos p) - 1)) by lia.
    rewrite !Z.pow_succ_r by lia. lia.
  - simpl. lia.
Qed.

(** [iter_pos] iterates as many times as its argument says. *)
Lemma iter_pos_nat {A} (f : A -> A) p : forall x,
  SpecFloat.iter_pos f p x = Nat.iter (Pos.to_nat p) f x.
Proof.
  induction p as [p IH|p IH|]; intros x; cbn [SpecFloat.iter_pos].
  - rewrite !IH, Pos2Nat.inj_xI. 
    replace (S (2 * Pos.to_nat p))%nat with (Pos.to_nat p + (Pos.to_nat p + 1))%nat by lia.
    rewrite !Nat.iter_add. reflexivity.
  - rewrite !IH, Pos2Nat.inj_xO.
    replace (2 * Pos.to_nat p)%nat with (Pos.to_nat p + Pos.to_nat p)%nat by lia.
    rewrite Nat.iter_add. reflexivity.
  - reflexivity.
Qed.

(** One shift to the right halves the mantissa and keeps track of what is
    lost. *)
Lemma shr_1_spec m r s :
  0 <= m ->
  shr_1 (Build_shr_record m r s) = Build_shr_record (m / 2) (Z.odd m) (r || s).
Proof.
  intros Hm. destruct m as [|p|p]; [reflexivity| |lia].
  destruct p as [p|p|]; cbn [shr_1].
  - f_equal. rewrite Pos2Z.inj_xI. apply (Z.div_unique _ 2 _ 1); lia.
  - f_equal. rewrite Pos2Z.inj_xO. apply (Z.div_unique _ 2 _ 0); lia.
  - reflexivity.
Qed.

(** [k] shifts divide the mantissa by [2^k]; nothing is recorded as lost
    when the division is exact. *)
Lemma shr_iter (k : nat) M :
  0 <= M ->
  let rec := Nat.iter k shr_1 (Build_shr_record M false false) in
  shr_m rec = M / 2 ^ Z.of_nat k /\
  (M mod 2 ^ Z.of_nat k = 0 -> shr_r rec = false /\ shr_s rec = false).
Proof.
  intros HM. induction k as [|k IH]; cbv zeta.
  - simpl. split; [now rewrite Z.div_1_r|]. intros _. split; reflexivity.
  - cbv zeta in IH. destruct IH as [Hm Hex]. rewrite Nat.iter_succ.
    destruct (Nat.iter k shr_1 _) as [m r s]. cbn [shr_m shr_r shr_s] in *.
    assert (0 <= m) as Hm0 by (subst m; apply Z.div_pos; lia).
    rewrite shr_1_spec by assumption. cbn [shr_m shr_r shr_s].
    rewrite Nat2Z.inj_succ, Z.pow_succ_r by lia.
    assert (0 < 2 ^ Z.of_nat k) as Hp by (apply Z.pow_pos_nonneg; lia).
    split.
    + subst m. rewrite Z.div_div by lia. f_equal. lia.
    + intros Hmod.
      assert (M mod 2 ^ Z.of_nat k = 0 /\ (M / 2 ^ Z.of_nat k) mod 2 = 0) as [H1 H2].
      { rewrite Z.mul_comm in Hmod. rewrite Z.rem_mul_r in Hmod by lia.
        pose proof (Z.mod_pos_bound M (2 ^ Z.of_nat k) Hp).
        pose proof (Z.mod_pos_bound (M / 2 ^ Z.of_nat k) 2 ltac:(lia)).
        nia. }
      destruct (Hex H1) as [-> ->]. split; [|reflexivity].
      subst m. rewrite <- Z.negb_even. rewrite Zeven_mod, H2. reflexivity.
Qed.

(** Rounding to nearest moves a truncated mantissa up by at most one. *)
Lemma round_nearest_even_bounds q l :
  q <= round_nearest_even q l <= q + 1.
Proof.
  destruct l as [|[| |]]; cbn [round_nearest_even]; try lia.
  destruct (Z.even q); lia.
Qed.

(** The exponent of the last place of a double of magnitude [2^e]. *)
Local Abbreviation fexp64 := (SpecFloat.fexp prec emax).

Lemma fexp64_eq e : fexp64 e = Z.max (e - 53) (-1074).
Proof. reflexivity. Qed.

(** The number of binary digits of a positive integer, and how it compares
    with powers of two. *)
Lemma Zdigits2_bounds z :
  0 < z -> 2 ^ (Zdigits2 z - 1) <= z < 2 ^ Zdigits2 z.
Proof. destruct z as [|p|p]; try lia. intros _. apply digits2_pos_bounds. Qed.

Lemma Zdigits2_pos z : 0 < z -> 0 < Zdigits2 z.
Proof. destruct z; simpl; lia. Qed.

Lemma Zdigits2_le z t : 0 < z -> 0 <= t -> z < 2 ^ t -> Zdigits2 z <= t.
Proof.
  intros Hz Ht Hlt. pose proof (Zdigits2_bounds z Hz) as [Hlo _].
  pose proof (Zdigits2_pos z Hz).
  destruct (Z_le_gt_dec (Zdigits2 z) t) as [|Hgt]; [assumption|exfalso].
  assert (2 ^ t <= 2 ^ (Zdigits2 z - 1)) by (apply Z.pow_le_mono_r; lia). lia.
Qed.

Lemma Zdigits2_ge z t : 0 < z -> 2 ^ t <= z -> t + 1 <= Zdigits2 z.
Proof.
  intros Hz Hle. pose proof (Zdigits2_bounds z Hz) as [_ Hhi].
  pose proof (Zdigits2_pos z Hz).
  destruct (Z_le_gt_dec (t + 1) (Zdigits2 z)) as [|Hgt]; [assumption|exfalso].
  destruct (Z_lt_le_dec t 0) as [Hneg|Hnn].
  - lia.
  - assert (2 ^ Zdigits2 z <= 2 ^ t) by (apply Z.pow_le_mono_r; lia). lia.
Qed.

(** One [shr_fexp] on a non-negative mantissa with an exact location. *)
Lemma shr_fexp_spec m e :
  0 <= m ->
  let e1 := Z.max e (fexp64 (Zdigits2 m + e)) in
  exists r s,
    shr_fexp prec emax m e loc_Exact =
      (Build_shr_record (m / 2 ^ (e1 - e)) r s, e1) /\
    (m mod 2 ^ (e1 - e) = 0 -> r = false /\ s = false).
Proof.
  intros Hm e1. unfold shr_fexp, shr. cbn [shr_record_of_loc].
  destruct (fexp64 (Zdigits2 m + e) - e) as [|p|p] eqn:Hn.
  - exists false, false. subst e1.
    rewrite Z.max_l by lia. rewrite Z.sub_diag, Z.div_1_r. split; [reflexivity|tauto].
  - rewrite iter_pos_nat.
    destruct (shr_iter (Pos.to_nat p) m Hm) as [H1 H2].
    rewrite positive_nat_Z in H1, H2.
    destruct (Nat.iter _ _ _) as [m' r s]. cbn [shr_m shr_r shr_s] in *.
    exists r, s. subst e1. rewrite Z.max_r by lia.
    replace (fexp64 (Zdigits2 m + e) - e) with (Zpos p) by lia.
    replace (e + Zpos p) with (fexp64 (Zdigits2 m + e)) by lia.
    subst m'. split; [reflexivity|exact H2].
  - exists false, false. subst e1.
    rewrite Z.max_l by lia. rewrite Z.sub_diag, Z.div_1_r. split; [reflexivity|tauto].
Qed.

Lemma fexp64_ge e : -1074 <= fexp64 e /\ e - 53 <= fexp64 e.
Proof. rewrite fexp64_eq. lia. Qed.

(** Rounding a positive mantissa that carries at least the format's
    precision. *)
Lemma binary_round_aux_spec M E :
  E <= fexp64 (Zpos (digits2_pos M) + E) ->
  let e1 := fexp64 (Zpos (digits2_pos M) + E) in
  let q := Zpos M / 2 ^ (e1 - E) in
  exists m_r m2 e2,
    q <= m_r <= q + 1 /\
    (Zpos M mod 2 ^ (e1 - E) = 0 -> m_r = q) /\
    ((e2 = e1 /\ m2 = m_r /\ m_r < 2 ^ 53) \/
     (e2 = e1 + 1 /\ m_r = 2 ^ 53 /\ m2 = 2 ^ 52)) /\
    binary_round_aux prec emax false (Zpos M) E loc_Exact =
      match m2 with
      | Z0 => S754_zero false
      | Zpos p =>
          if e2 <=? emax - prec then S754_finite false p e2
          else S754_infinity false
      | Zneg _ => S754_nan
      end.
Proof.
  intros H0 e1 q. unfold binary_round_aux.
  destruct (shr_fexp_spec (Zpos M) E ltac:(lia)) as (r & s & H1 & Hex).
  cbn [Zdigits2] in H1, Hex. fold e1 in H1, Hex.
  rewrite (Z.max_r E e1) in H1, Hex by (subst e1; lia).
  rewrite H1. fold q. cbn [shr_m].
  set (m_r := round_nearest_even q (loc_of_shr_record (Build_shr_record q r s))).
  pose proof (round_nearest_even_bounds q (loc_of_shr_record (Build_shr_record q r s)))
    as Hb. fold m_r in Hb.
  pose proof (digits2_pos_bounds M) as [_ HM].
  pose proof (fexp64_ge (Zpos (digits2_pos M) + E)) as [Hemin Hprec]. fold e1 in Hemin, Hprec.
  assert (0 <= e1 - E) as Hn by lia.
  assert (0 < 2 ^ (e1 - E)) as Hpow by (apply Z.pow_pos_nonneg; lia).
  assert (0 <= q) as Hq0 by (apply Z.div_pos; lia).
  assert (q < 2 ^ 53) as Hq.
  { apply Z.div_lt_upper_bound; [lia|].
    destruct (Z_le_gt_dec (Zpos (digits2_pos M)) 53) as [Hd|Hd].
    - assert (2 ^ Zpos (digits2_pos M) <= 2 ^ 53) by (apply Z.pow_le_mono_r; lia).
      nia.
    - assert (2 ^ Zpos (digits2_pos M) <= 2 ^ (e1 - E) * 2 ^ 53).
      { rewrite <- Z.pow_add_r by lia. apply Z.pow_le_mono_r; lia. }
      lia. }
  destruct (shr_fexp_spec m_r e1 ltac:(lia)) as (r2 & s2 & H2 & _).
  exists m_r.
  destruct (Z_lt_le_dec m_r (2 ^ 53)) as [Hlt|Hge].
  - assert (Z.max e1 (fexp64 (Zdigits2 m_r + e1)) = e1) as He2.
    { apply Z.max_l. rewrite fexp64_eq.
      destruct (Z.eq_dec m_r 0) as [->|Hnz]; [simpl; lia|].
      pose proof (Zdigits2_le m_r 53 ltac:(lia) ltac:(lia) Hlt). lia. }
    rewrite He2, Z.sub_diag, Z.div_1_r in H2. rewrite H2. cbn [shr_m].
    exists m_r, e1. split; [exact Hb|]. split.
    + intros Hmod. destruct (Hex Hmod) as [-> ->]. reflexivity.
    + split; [left; auto|reflexivity].
  - assert (m_r = 2 ^ 53) as Hm by lia.
    assert (Z.max e1 (fexp64 (Zdigits2 m_r + e1)) = e1 + 1) as He2.
    { rewrite Hm. change (Zdigits2 (2 ^ 53)) with 54. rewrite fexp64_eq. lia. }
    rewrite He2 in H2. replace (e1 + 1 - e1) with 1 in H2 by lia.
    rewrite H2. cbn [shr_m]. rewrite Hm. change (2 ^ 53 / 2 ^ 1) with (2 ^ 52).
    exists (2 ^ 52), (e1 + 1). split; [lia|]. split.
    + intros Hmod. exfalso. destruct (Hex Hmod) as [Hr Hs].
      unfold m_r in Hge. rewrite Hr, Hs in Hge. cbn [loc_of_shr_record round_nearest_even] in Hge. lia.
    + split; [right; auto|reflexivity].
Qed.

(** A mantissa in canonical form has at most 53 digits, and exactly 53
    above the subnormal range. *)
Lemma canonical_spec m e :
  canonical_mantissa prec emax m e = true ->
  fexp64 (Zpos (digits2_pos m) + e) = e /\ -1074 <= e /\
  Zpos m < 2 ^ 53 /\ (-1074 < e -> 2 ^ 52 <= Zpos m).
Proof.
  unfold canonical_mantissa. intros H%Z.eqb_eq.
  pose proof (digits2_pos_bounds m) as [Hlo Hhi].
  rewrite fexp64_eq in H.
  split; [rewrite fexp64_eq; exact H|]. split; [lia|]. split.
  - assert (2 ^ Zpos (digits2_pos m) <= 2 ^ 53) by (apply Z.pow_le_mono_r; lia). lia.
  - intros He. assert (Zpos (digits2_pos m) = 53) as Hd by lia.
    rewrite Hd in Hlo. exact Hlo.
Qed.

(** Powers of two with a sum as exponent. *)
Lemma pow2_split a b : 0 <= a -> 0 <= b -> 2 ^ (a + b) = 2 ^ a * 2 ^ b.
Proof. intros. apply Z.pow_add_r; lia. Qed.

(** [SFleb] on positive finite numbers compares exponents, then
    mantissas. *)
Lemma finite_leb m1 e1 m2 e2 :
  e1 < e2 \/ (e1 = e2 /\ Zpos m1 <= Zpos m2) ->
  SFleb (S754_finite false m1 e1) (S754_finite false m2 e2) = true.
Proof.
  intros H. unfold SFleb, SFcompare.
  destruct (Z.compare_spec e1 e2) as [Heq|Hlt|Hgt]; [|reflexivity|lia].
  change (Pos.compare_cont Eq m1 m2) with (Pos.compare m1 m2).
  rewrite Pos2Z.inj_compare.
  destruct (Z.compare_spec (Zpos m1) (Zpos m2)); [reflexivity|reflexivity|lia].
Qed.

(** A value below a representable number rounds to at most that number. *)
Lemma round_le_representable M E mc ec B :
  E <= fexp64 (Zpos (digits2_pos M) + E) ->
  canonical_mantissa prec emax mc ec = true ->
  ec <= emax - prec ->
  B <= E -> B <= ec ->
  Zpos M * 2 ^ (E - B) <= Zpos mc * 2 ^ (ec - B) ->
  SFleb (binary_round_aux prec emax false (Zpos M) E loc_Exact)
        (S754_finite false mc ec) = true.
Proof.
  intros H0 Hcan Hmax HBE HBc Hle.
  destruct (binary_round_aux_spec M E H0) as (m_r & m2 & e2 & Hb & Hex & Hcase & ->).
  destruct (canonical_spec mc ec Hcan) as (Hfc & Hemin & Hmc & _).
  set (d := Zpos (digits2_pos M)) in *. set (e1 := fexp64 (d + E)) in *.
  pose proof (digits2_pos_bounds M) as [HMlo HMhi]. fold d in HMlo, HMhi.
  pose proof (digits2_pos_bounds mc) as [Hclo Hchi].
  set (dc := Zpos (digits2_pos mc)) in *.
  assert (0 < 2 ^ (E - B)) as HpE by (apply Z.pow_pos_nonneg; lia).
  assert (0 < 2 ^ (ec - B)) as Hpc by (apply Z.pow_pos_nonneg; lia).
  assert (d + E <= dc + ec) as Hmag.
  { assert (2 ^ (d - 1 + (E - B)) < 2 ^ (dc + (ec - B))) as Hp.
    { rewrite !pow2_split by (subst d dc; lia). nia. }
    apply Z.pow_lt_mono_r_iff in Hp; subst d dc; lia. }
  assert (e1 <= ec) as He1.
  { subst e1. rewrite <- Hfc. rewrite !fexp64_eq. fold dc. lia. }
  assert (0 <= e1 - E) as Hn by lia.
  assert (0 < 2 ^ (e1 - E)) as Hpn by (apply Z.pow_pos_nonneg; lia).
  assert (0 < 2 ^ (ec - e1)) as Hpce by (apply Z.pow_pos_nonneg; lia).
  set (C := Zpos mc * 2 ^ (ec - e1)).
  assert (Zpos M <= C * 2 ^ (e1 - E)) as HMC.
  { replace (ec - B) with ((ec - e1) + (e1 - E) + (E - B)) in Hle by lia.
    rewrite !pow2_split in Hle by lia. subst C. nia. }
  assert (m_r <= C) as Hmr.
  { assert (Zpos M / 2 ^ (e1 - E) <= C) as Hq
        by (apply Z.div_le_upper_bound; lia).
    destruct (Z.eq_dec (Zpos M mod 2 ^ (e1 - E)) 0) as [Hz|Hnz].
    - rewrite (Hex Hz). exact Hq.
    - assert (Zpos M / 2 ^ (e1 - E) < C); [|lia].
      apply Z.div_lt_upper_bound; [lia|].
      destruct (Z.eq_dec (Zpos M) (C * 2 ^ (e1 - E))) as [Heq|Hne]; [|lia].
      exfalso. apply Hnz. rewrite Heq. apply Z.mod_mul. lia. }
  assert (0 <= Zpos M / 2 ^ (e1 - E)) as Hq0 by (apply Z.div_pos; lia).
  destruct Hcase as [(-> & -> & Hlt)|(-> & Hm & ->)].
  - destruct m_r as [|p|p]; [reflexivity| |lia].
    replace (e1 <=? emax - prec) with true by (symmetry; apply Z.leb_le; lia).
    apply finite_leb.
    destruct (Z.eq_dec e1 ec) as [Heq|Hne]; [right|left; lia].
    split; [exact Heq|]. subst C. rewrite Heq, Z.sub_diag in Hmr. lia.
  - assert (1 <= ec - e1) as Hgap.
    { destruct (Z_le_gt_dec 1 (ec - e1)); [assumption|exfalso].
      assert (ec - e1 = 0) as Hz by lia. subst C. rewrite Hz in Hmr. lia. }
    change (2 ^ 52) with (Zpos 4503599627370496).
    replace (e1 + 1 <=? emax - prec) with true by (symmetry; apply Z.leb_le; lia).
    apply finite_leb.
    destruct (Z.eq_dec (e1 + 1) ec) as [Heq|Hne]; [right|left; lia].
    split; [exact Heq|].
    subst C. replace (ec - e1) with 1 in Hmr by lia.
    change (2 ^ 53) with 9007199254740992 in Hm. change (2 ^ 1) with 2 in Hmr.
    clear - Hm Hmr. lia.
Qed.

(** A value above a representable number rounds to at least that number. *)
Lemma round_ge_representable M E mc ec B :
  E <= fexp64 (Zpos (digits2_pos M) + E) ->
  canonical_mantissa prec emax mc ec = true ->
  B <= E -> B <= ec ->
  Zpos mc * 2 ^ (ec - B) <= Zpos M * 2 ^ (E - B) ->
  SFleb (S754_finite false mc ec)
        (binary_round_aux prec emax false (Zpos M) E loc_Exact) = true.
Proof.
  intros H0 Hcan HBE HBc Hle.
  destruct (binary_round_aux_spec M E H0) as (m_r & m2 & e2 & Hb & _ & Hcase & ->).
  destruct (canonical_spec mc ec Hcan) as (Hfc & Hemin & Hmc & Hnorm).
  set (d := Zpos (digits2_pos M)) in *. set (e1 := fexp64 (d + E)) in *.
  pose proof (digits2_pos_bounds M) as [HMlo HMhi]. fold d in HMlo, HMhi.
  pose proof (fexp64_ge (d + E)) as [He1min He1prec]. fold e1 in He1min, He1prec.
  assert (0 < 2 ^ (E - B)) as HpE by (apply Z.pow_pos_nonneg; lia).
  assert (0 < 2 ^ (ec - B)) as Hpc by (apply Z.pow_pos_nonneg; lia).
  assert (0 <= e1 - E) as Hn by lia.
  assert (0 < 2 ^ (e1 - E)) as Hpn by (apply Z.pow_pos_nonneg; lia).
  set (q := Zpos M / 2 ^ (e1 - E)) in *.
  assert (0 <= q) as Hq0 by (apply Z.div_pos; lia).
  (* above the subnormal range the quotient keeps 53 digits *)
  assert (-1074 < e1 -> 2 ^ 52 <= q) as Hqnorm.
  { intros Hgt. assert (e1 = d + E - 53) as He by (subst e1; rewrite fexp64_eq in *; lia).
    apply Z.div_le_lower_bound; [lia|].
    replace (e1 - E) with (d - 53) by lia.
    rewrite <- pow2_split by lia. replace (d - 53 + 52) with (d - 1) by lia.
    exact HMlo. }
  (* when the representable number is on the grid of the rounding *)
  assert (e1 <= ec -> Zpos mc * 2 ^ (ec - e1) <= q) as Hgrid.
  { intros He. assert (0 < 2 ^ (ec - e1)) by (apply Z.pow_pos_nonneg; lia).
    apply Z.div_le_lower_bound; [lia|].
    replace (ec - B) with ((ec - e1) + (e1 - E) + (E - B)) in Hle by lia.
    rewrite !pow2_split in Hle by lia. nia. }
  change (2 ^ 52) with 4503599627370496 in *.
  change (2 ^ 53) with 9007199254740992 in *.
  assert (0 < m_r) as Hpos.
  { destruct (Z_lt_le_dec (-1074) e1) as [Hgt|Hle1]; [specialize (Hqnorm Hgt); lia|].
    assert (e1 <= ec) as He by lia. specialize (Hgrid He).
    assert (0 < 2 ^ (ec - e1)) by (apply Z.pow_pos_nonneg; lia). nia. }
  destruct Hcase as [(-> & -> & Hlt)|(-> & Hm & ->)].
  - destruct m_r as [|p|p]; [lia| |lia].
    destruct (e1 <=? emax - prec); [|reflexivity].
    apply finite_leb.
    destruct (Z_lt_le_dec ec e1) as [Hlt'|Hge]; [left; exact Hlt'|right].
    specialize (Hgrid Hge).
    assert (ec = e1) as ->.
    { destruct (Z.eq_dec ec e1) as [|Hne]; [assumption|exfalso].
      assert (-1074 < ec) as Hn1 by lia. specialize (Hnorm Hn1).
      assert (2 ^ 1 <= 2 ^ (ec - e1)) by (apply Z.pow_le_mono_r; lia).
      change (2 ^ 1) with 2 in *. nia. }
    rewrite Z.sub_diag in Hgrid. split; [reflexivity|]. lia.
  - change 4503599627370496 with (Zpos 4503599627370496).
    destruct (e1 + 1 <=? emax - prec); [|reflexivity].
    apply finite_leb.
    destruct (Z_lt_le_dec ec (e1 + 1)) as [Hlt'|Hge]; [left; exact Hlt'|right].
    assert (e1 <= ec) as He by lia. specialize (Hgrid He).
    assert (-1074 < ec) as Hn1 by lia. specialize (Hnorm Hn1).
    assert (ec = e1 + 1) as ->.
    { destruct (Z.eq_dec ec (e1 + 1)) as [|Hne]; [assumption|exfalso].
      assert (2 ^ 2 <= 2 ^ (ec - e1)) by (apply Z.pow_le_mono_r; lia).
      change (2 ^ 2) with 4 in *. nia. }
    replace (e1 + 1 - e1) with 1 in Hgrid by lia. change (2 ^ 1) with 2 in Hgrid.
    split; [reflexivity|]. clear - Hgrid Hb Hm. lia.
Qed.


(** *** Values of floating-point numbers as rationals *)

Lemma Qpow2_pos e : (0 < 2 ^ e)%Q.
Proof. apply Qpower_0_lt. reflexivity. Qed.

Lemma F2Q_pos m e : (0 < F2Q m e)%Q.
Proof.
  unfold F2Q. apply Qmult_lt_0_compat; [|apply Qpow2_pos].
  change 0%Q with (inject_Z 0). rewrite <- Zlt_Qlt. lia.
Qed.

Lemma F2Q_scaled m e B :
  B <= e -> (F2Q m e == inject_Z (Zpos m * 2 ^ (e - B)) * 2 ^ B)%Q.
Proof.
  intros H. unfold F2Q. rewrite inject_Z_mult, Zpower_Qpower by lia.
  change (inject_Z 2) with 2%Q.
  replace e with ((e - B) + B) at 1 by lia.
  rewrite Qpower_plus by discriminate. ring.
Qed.

Lemma F2Q_le_iff m1 e1 m2 e2 B :
  B <= e1 -> B <= e2 ->
  (F2Q m1 e1 <= F2Q m2 e2)%Q <->
  Zpos m1 * 2 ^ (e1 - B) <= Zpos m2 * 2 ^ (e2 - B).
Proof.
  intros H1 H2. rewrite (F2Q_scaled m1 e1 B H1), (F2Q_scaled m2 e2 B H2).
  rewrite Zle_Qle. pose proof (Qpow2_pos B) as Hp.
  split; intros H.
  - apply Qmult_le_r in H; assumption.
  - apply Qmult_le_r; assumption.
Qed.

Lemma F2Q_mul m1 e1 m2 e2 :
  (F2Q (m1 * m2) (e1 + e2) == F2Q m1 e1 * F2Q m2 e2)%Q.
Proof.
  unfold F2Q. rewrite Pos2Z.inj_mul, inject_Z_mult.
  rewrite Qpower_plus by discriminate. ring.
Qed.

(** The two rounding bounds, with the values compared as rationals. *)
Lemma round_le_Q M E mc ec :
  E <= fexp64 (Zpos (digits2_pos M) + E) ->
  canonical_mantissa prec emax mc ec = true ->
  ec <= emax - prec ->
  (F2Q M E <= F2Q mc ec)%Q ->
  SFleb (binary_round_aux prec emax false (Zpos M) E loc_Exact)
        (S754_finite false mc ec) = true.
Proof.
  intros H0 Hc Hm Hle.
  apply (round_le_representable M E mc ec (Z.min E ec)); try assumption; try lia.
  apply F2Q_le_iff; [lia|lia|assumption].
Qed.

Lemma round_ge_Q M E mc ec :
  E <= fexp64 (Zpos (digits2_pos M) + E) ->
  canonical_mantissa prec emax mc ec = true ->
  (F2Q mc ec <= F2Q M E)%Q ->
  SFleb (S754_finite false mc ec)
        (binary_round_aux prec emax false (Zpos M) E loc_Exact) = true.
Proof.
  intros H0 Hc Hle.
  apply (round_ge_representable M E mc ec (Z.min E ec)); try assumption; try lia.
  apply F2Q_le_iff; [lia|lia|assumption].
Qed.

(** Rounding a positive value gives zero or a positive number. *)
Lemma round_nonneg M E :
  E <= fexp64 (Zpos (digits2_pos M) + E) ->
  SFleb (S754_zero false)
        (binary_round_aux prec emax false (Zpos M) E loc_Exact) = true.
Proof.
  intros H0.
  destruct (binary_round_aux_spec M E H0) as (m_r & m2 & e2 & Hb & _ & Hcase & ->).
  assert (0 <= Zpos M / 2 ^ (fexp64 (Zpos (digits2_pos M) + E) - E)) as Hq.
  { apply Z.div_pos; [lia|]. apply Z.pow_pos_nonneg; lia. }
  destruct Hcase as [(-> & -> & _)|(-> & _ & ->)].
  - destruct m_r as [|p|p]; [reflexivity| |lia].
    destruct (_ <=? _); reflexivity.
  - change (2 ^ 52) with (Zpos 4503599627370496).
    destruct (_ <=? _); reflexivity.
Qed.

(** The order of two positive finite numbers in canonical form is the
    order of their values. *)
Lemma finite_leb_Q m1 e1 m2 e2 :
  canonical_mantissa prec emax m1 e1 = true ->
  canonical_mantissa prec emax m2 e2 = true ->
  SFleb (S754_finite false m1 e1) (S754_finite false m2 e2) = true ->
  (F2Q m1 e1 <= F2Q m2 e2)%Q.
Proof.
  intros Hc1 Hc2. unfold SFleb, SFcompare.
  destruct (canonical_spec m1 e1 Hc1) as (_ & Hmin1 & Hhi1 & _).
  destruct (canonical_spec m2 e2 Hc2) as (_ & _ & _ & Hlo2).
  change (2 ^ 52) with 4503599627370496 in *.
  change (2 ^ 53) with 9007199254740992 in *.
  destruct (Z.compare_spec e1 e2) as [Heq|Hlt|Hgt]; [| |discriminate].
  - change (Pos.compare_cont Eq m1 m2) with (Pos.compare m1 m2).
    rewrite Pos2Z.inj_compare.
    destruct (Z.compare_spec (Zpos m1) (Zpos m2)) as [H|H|H]; try discriminate;
      intros _; apply (F2Q_le_iff m1 e1 m2 e2 e1); try lia;
      rewrite Heq, Z.sub_diag; lia.
  - intros _. apply (F2Q_le_iff m1 e1 m2 e2 e1); try lia.
    rewrite Z.sub_diag.
    assert (2 ^ 1 <= 2 ^ (e2 - e1)) by (apply Z.pow_le_mono_r; lia).
    change (2 ^ 1) with 2 in *. specialize (Hlo2 ltac:(lia)). nia.
Qed.

(** *** Primitive floats *)

(** The mantissa and exponent of a double are in canonical form. *)
Lemma valid_finite x s m e :
  Prim2SF x = S754_finite s m e ->
  canonical_mantissa prec emax m e = true /\ e <= emax - prec.
Proof.
  intros H. pose proof (Prim2SF_valid x) as Hv. rewrite H in Hv.
  cbn [valid_binary] in Hv. unfold bounded in Hv.
  apply andb_prop in Hv as [Hc Hb]. split; [exact Hc|apply Z.leb_le; exact Hb].
Qed.

(** A float between 0 and 1. *)
Lemma unit_interval r :
  (0 <=? r)%float = true -> (r <? 1)%float = true ->
  (exists s, Prim2SF r = S754_zero s) \/
  (exists m e, Prim2SF r = S754_finite false m e /\ (F2Q m e <= 1)%Q).
Proof.
  rewrite leb_spec, ltb_spec.
  change (Prim2SF 0) with (S754_zero false).
  change (Prim2SF 1) with (S754_finite false 4503599627370496 (-52)).
  destruct (Prim2SF r) as [s|s| |s m e] eqn:Hr.
  - intros _ _. left. eauto.
  - destruct s; discriminate.
  - discriminate.
  - destruct s; [discriminate|]. intros _ Hlt. right. exists m, e. split; [reflexivity|].
    destruct (valid_finite r false m e Hr) as [Hc _].
    assert (F2Q m e <= F2Q 4503599627370496 (-52))%Q as H.
    { apply finite_leb_Q; [exact Hc|reflexivity|].
      unfold SFltb in Hlt. unfold SFleb.
      destruct (SFcompare _ _) as [[| |]|]; try discriminate; reflexivity. }
    assert (F2Q 4503599627370496 (-52) == 1)%Q as Hone by (vm_compute; reflexivity).
    rewrite Hone in H. exact H.
Qed.

(** [x * r] for a normal positive [x] and [r] in [0, 1): between 0 and [x]. *)
Lemma mul_unit_interval (x r : float) mx ex :
  Prim2SF x = S754_finite false mx ex ->
  2 ^ 52 <= Zpos mx ->
  (0 <=? r)%float = true -> (r <? 1)%float = true ->
  (0 <=? x * r)%float = true /\ (x * r <=? x)%float = true.
Proof.
  intros Hx Hnorm H0 H1.
  destruct (valid_finite x false mx ex Hx) as [Hcx Hbx].
  rewrite !leb_spec, mul_spec, Hx.
  change (Prim2SF 0) with (S754_zero false). unfold SF64mul.
  destruct (unit_interval r H0 H1) as [[s ->]|(mr & er & -> & Hr)].
  - cbn [SFmul]. split; [reflexivity|]. destruct s; reflexivity.
  - cbn [SFmul xorb].
    assert (ex + er <= fexp64 (Zpos (digits2_pos (mx * mr)) + (ex + er))) as Hprec.
    { pose proof (Zdigits2_ge (Zpos (mx * mr)) 52 ltac:(lia)) as Hd.
      cbn [Zdigits2] in Hd. rewrite fexp64_eq.
      assert (2 ^ 52 <= Zpos (mx * mr)) by (rewrite Pos2Z.inj_mul; nia).
      specialize (Hd ltac:(assumption)). lia. }
    split; [apply round_nonneg; exact Hprec|].
    apply round_le_Q; try assumption.
    rewrite F2Q_mul. pose proof (F2Q_pos mx ex). nra.
Qed.

(** ... and conversely. *)
Lemma finite_leb_of_Q m1 e1 m2 e2 :
  canonical_mantissa prec emax m1 e1 = true ->
  canonical_mantissa prec emax m2 e2 = true ->
  (F2Q m1 e1 <= F2Q m2 e2)%Q ->
  SFleb (S754_finite false m1 e1) (S754_finite false m2 e2) = true.
Proof.
  intros Hc1 Hc2 Hle.
  destruct (canonical_spec m1 e1 Hc1) as (_ & _ & _ & Hlo1).
  destruct (canonical_spec m2 e2 Hc2) as (_ & Hmin2 & Hhi2 & _).
  change (2 ^ 52) with 4503599627370496 in *.
  change (2 ^ 53) with 9007199254740992 in *.
  apply finite_leb.
  destruct (Z.compare_spec e1 e2) as [Heq|Hlt|Hgt]; [right|left; exact Hlt|exfalso].
  - split; [exact Heq|].
    apply (F2Q_le_iff m1 e1 m2 e2 e1) in Hle; try lia.
    rewrite Heq, Z.sub_diag in Hle. lia.
  - apply (F2Q_le_iff m1 e1 m2 e2 e2) in Hle; try lia.
    rewrite Z.sub_diag in Hle.
    assert (2 ^ 1 <= 2 ^ (e1 - e2)) by (apply Z.pow_le_mono_r; lia).
    change (2 ^ 1) with 2 in *. specialize (Hlo1 ltac:(lia)). nia.
Qed.

(** Appending [d] zero bits multiplies by [2^d]. *)
Lemma Pos_iter_xO m d : Zpos (Pos.iter xO m d) = Zpos m * 2 ^ Zpos d.
Proof.
  induction d as [|d IH] using Pos.peano_ind.
  - cbn [Pos.iter]. rewrite Pos2Z.inj_xO. change (2 ^ 1) with 2. lia.
  - rewrite Pos.iter_succ, Pos2Z.inj_xO, IH, Pos2Z.inj_succ, Z.pow_succ_r by lia. lia.
Qed.

Lemma digits2_pos_unique z t :
  0 < z -> 2 ^ (t - 1) <= z < 2 ^ t -> Zdigits2 z = t.
Proof.
  intros Hz [Hlo Hhi].
  assert (0 < t) as Ht.
  { destruct (Z_lt_le_dec 0 t); [assumption|exfalso].
    rewrite (Z.pow_neg_r 2 (t - 1)) in Hlo by lia.
    destruct (Z.eq_dec t 0) as [->|]; [simpl in Hhi; lia|].
    rewrite Z.pow_neg_r in Hhi by lia. lia. }
  pose proof (Zdigits2_le z t Hz ltac:(lia) Hhi).
  pose proof (Zdigits2_ge z (t - 1) Hz Hlo). lia.
Qed.

(** [shl_align] keeps the value and lowers the exponent to the smaller of
    the two. *)
Lemma shl_align_spec m e e' :
  exists m',
    shl_align m e e' = (m', Z.min e e') /\
    Zpos m' = Zpos m * 2 ^ (e - Z.min e e') /\
    Zpos (digits2_pos m') = Zpos (digits2_pos m) + (e - Z.min e e').
Proof.
  unfold shl_align. destruct (e' - e) as [|d|d] eqn:Hd.
  - exists m. rewrite Z.min_l by lia. rewrite Z.sub_diag. simpl. split; [reflexivity|].
    split; lia.
  - exists m. rewrite Z.min_l by lia. rewrite Z.sub_diag. simpl. split; [reflexivity|].
    split; lia.
  - exists (Pos.iter xO m d). rewrite Z.min_r by lia.
    replace (e - e') with (Zpos d) by lia.
    split; [reflexivity|]. split; [apply Pos_iter_xO|].
    pose proof (digits2_pos_bounds m) as [Hlo Hhi].
    apply (digits2_pos_unique (Zpos (Pos.iter xO m d))); [lia|].
    rewrite Pos_iter_xO.
    assert (0 < 2 ^ Zpos d) by (apply Z.pow_pos_nonneg; lia).
    replace (Zpos (digits2_pos m) + Zpos d - 1)
      with ((Zpos (digits2_pos m) - 1) + Zpos d) by lia.
    rewrite !pow2_split by lia. nia.
Qed.

(** The same value with a lower exponent. *)
Lemma F2Q_shift m m' e e' :
  e' <= e -> Zpos m' = Zpos m * 2 ^ (e - e') -> (F2Q m' e' == F2Q m e)%Q.
Proof.
  intros He Hm. rewrite (F2Q_scaled m e e' He). unfold F2Q.
  rewrite Hm. rewrite inject_Z_mult. reflexivity.
Qed.

(** The sum of two positive finite numbers is the rounding of their exact
    sum. *)
Lemma SFadd_finite m1 e1 m2 e2 :
  exists M E,
    SFadd prec emax (S754_finite false m1 e1) (S754_finite false m2 e2) =
      binary_round_aux prec emax false (Zpos M) E loc_Exact /\
    E <= fexp64 (Zpos (digits2_pos M) + E) /\
    (F2Q M E == F2Q m1 e1 + F2Q m2 e2)%Q.
Proof.
  cbn [SFadd cond_Zopp].
  destruct (shl_align_spec m1 e1 (Z.min e1 e2)) as (a & -> & Ha & _).
  destruct (shl_align_spec m2 e2 (Z.min e1 e2)) as (b & -> & Hb & _).
  cbn [fst]. rewrite <- Pos2Z.inj_add. cbn [binary_normalize]. unfold binary_round.
  set (ez := Z.min e1 e2).
  replace (Z.min e1 (Z.min e1 e2)) with ez in * by (subst ez; lia).
  replace (Z.min e2 (Z.min e1 e2)) with ez in * by (subst ez; lia).
  destruct (shl_align_spec (a + b) ez (fexp64 (Zpos (digits2_pos (a + b)) + ez)))
    as (M & -> & HM & HD).
  set (E := Z.min ez (fexp64 (Zpos (digits2_pos (a + b)) + ez))) in *.
  exists M, E. split; [reflexivity|]. split.
  - rewrite HD. replace (Zpos (digits2_pos (a + b)) + (ez - E) + E)
      with (Zpos (digits2_pos (a + b)) + ez) by lia.
    subst E. lia.
  - rewrite (F2Q_shift (a + b) M ez E) by (subst E; lia || exact HM).
    rewrite <- (F2Q_shift m1 a e1 ez) by (subst ez; lia || exact Ha).
    rewrite <- (F2Q_shift m2 b e2 ez) by (subst ez; lia || exact Hb).
    unfold F2Q. rewrite Pos2Z.inj_add, inject_Z_plus. ring.
Qed.

(** [D + j] for a positive [D] and [j] between 0 and [x], when [D + x] is
    the float [c]: between [D] and [c]. *)
Lemma add_bounded_increment (D x c j : float) mD eD mx ex mc ec :
  Prim2SF D = S754_finite false mD eD ->
  Prim2SF x = S754_finite false mx ex ->
  Prim2SF c = S754_finite false mc ec ->
  (F2Q mc ec == F2Q mD eD + F2Q mx ex)%Q ->
  (0 <=? j)%float = true -> (j <=? x)%float = true ->
  (D <=? D + j)%float = true /\ (D + j <=? c)%float = true.
Proof.
  intros HD Hx Hc Hsum H0 H1.
  destruct (valid_finite D false mD eD HD) as [HcD HbD].
  destruct (valid_finite x false mx ex Hx) as [Hcx Hbx].
  destruct (valid_finite c false mc ec Hc) as [Hcc Hbc].
  pose proof (F2Q_pos mx ex) as Hxpos.
  rewrite leb_spec in H0, H1. rewrite !leb_spec, add_spec, HD, Hc.
  rewrite Hx in H1. change (Prim2SF 0) with (S754_zero false) in H0.
  unfold SF64add.
  destruct (Prim2SF j) as [s|s| |s mj ej] eqn:Hj.
  - cbn [SFadd]. split.
    + apply finite_leb. right. split; [reflexivity|lia].
    + apply finite_leb_of_Q; [assumption|assumption|]. rewrite Hsum. lra.
  - destruct s; discriminate.
  - discriminate.
  - destruct s; [discriminate|].
    destruct (valid_finite j false mj ej Hj) as [Hcj _].
    pose proof (finite_leb_Q mj ej mx ex Hcj Hcx H1) as Hjx.
    pose proof (F2Q_pos mj ej) as Hjpos.
    destruct (SFadd_finite mD eD mj ej) as (M & E & -> & Hprec & Hval).
    split.
    + apply round_ge_Q; [assumption|assumption|]. rewrite Hval. lra.
    + apply round_le_Q; try assumption. rewrite Hval, Hsum. lra.
Qed.

(** The two roundings of [getRetryDelay] after the delay [D] is known:
    [x] is [D * 0.2] and [c] is [D + x], both computed without error. *)
Lemma jitter_bounds (D x c r : float) mD eD mx ex mc ec :
  Prim2SF D = S754_finite false mD eD ->
  Prim2SF x = S754_finite false mx ex ->
  Prim2SF c = S754_finite false mc ec ->
  2 ^ 52 <= Zpos mx ->
  (F2Q mc ec == F2Q mD eD + F2Q mx ex)%Q ->
  (0 <=? r)%float = true -> (r <? 1)%float = true ->
  (0 <=? x * r)%float = true /\ (x * r <=? x)%float = true /\
  (D <=? D + x * r)%float = true /\ (D + x * r <=? c)%float = true.
Proof.
  intros HD Hx Hc Hn Hsum H0 H1.
  destruct (mul_unit_interval x r mx ex Hx Hn H0 H1) as [Ha Hb].
  destruct (add_bounded_increment D x c (x * r) mD eD mx ex mc ec HD Hx Hc Hsum Ha Hb)
    as [Hc1 Hc2].
  auto.
Qed.

End DoubleRounding.

(** * Properties of the retrying executor *)

Module ConcurrencyProofs.
Import Concurrency.

Section Loop.

Variable requestFn : request_fn.
Variable random : nat -> float.
Variable m : nat.

Local Abbreviation loop := (attempts requestFn random m).

(** The loop invokes [requestFn] once per iteration. *)
Lemma attempts_calls remaining a le st c sl :
  c < (loop remaining a le st c sl).1.2 <= c + remaining \/
  (remaining = 0 /\ (loop remaining a le st c sl).1.2 = c).
Proof.
  revert a le st c sl.
  induction remaining as [|rem IH]; intros a le st c sl; simpl.
  - right. done.
  - left. destruct (try_request (requestFn c)) as [res|e|te]; simpl; [lia| |lia].
    destruct (_ && _); simpl; [|lia].
    destruct (IH (S a) (Some e) st (S c) (sl ++ [getRetryDelay a (random (length sl))])%list)
      as [H|[-> H]]; lia.
Qed.

(** Neither the exit nor the invocations nor the delays depend on the
    counters. *)
Lemma attempts_stats_irrelevant remaining a le st st' c sl :
  let r := loop remaining a le st c sl in
  let r' := loop remaining a le st' c sl in
  r.1.1.1 = r'.1.1.1 /\ r.1.2 = r'.1.2 /\ r.2 = r'.2.
Proof.
  revert a le c sl.
  induction remaining as [|rem IH]; intros a le c sl; simpl; [done|].
  destruct (try_request (requestFn c)) as [res|e|te]; simpl; [done| |done].
  destruct (_ && _); simpl; [apply IH | done].
Qed.

(** What the loop does to the counters: a [return] at attempt [k] applies
    [on_success k]; a [break] and a throwing [catch] leave them alone.
    Invocation [c + j] is attempt [a + j]. *)
Lemma attempts_stats remaining a le st c sl :
  let r := loop remaining a le st c sl in
  match r.1.1.1 with
  | returned _ => exists k, r.1.1.2 = on_success (a + k) st /\ r.1.2 = S (c + k)
  | _ => r.1.1.2 = st
  end.
Proof.
  revert a le c sl.
  induction remaining as [|rem IH]; intros a le c sl; simpl; [done|].
  destruct (try_request (requestFn c)) as [res|e|te]; simpl; [|
    |done].
  - exists 0. by rewrite !Nat.add_0_r.
  - destruct (_ && _); simpl; [|done].
    specialize (IH (S a) (Some e) (S c)
                  (sl ++ [getRetryDelay a (random (length sl))])%list).
    simpl in IH. destruct (_.1.1.1); [|done|done].
    destruct IH as (k & H1 & H2). exists (S k).
    rewrite H1, H2. split; f_equal; lia.
Qed.

(** A run of [k] retryable failures followed by a success, within the
    budget, returns that success at attempt [a + k]. *)
Lemma attempts_recover k : forall remaining a le st c sl result,
  k < remaining -> a + k <= m ->
  (forall j, j < k -> retryable_failure (requestFn (c + j)) = true) ->
  try_request (requestFn (c + k)) = passed result ->
  let r := loop remaining a le st c sl in
  r.1.1.1 = returned result /\ r.1.2 = S (c + k).
Proof.
  induction k as [|k IH]; intros remaining a le st c sl result Hrem Hm Hpre Hok;
    (destruct remaining as [|rem]; [lia|]); simpl.
  - rewrite Nat.add_0_r in Hok. rewrite Hok. simpl. split; [done|f_equal; lia].
  - pose proof (Hpre 0 ltac:(lia)) as H0. rewrite Nat.add_0_r in H0.
    unfold retryable_failure in H0.
    destruct (try_request (requestFn c)) as [res|e|te]; [done| |done].
    rewrite H0, andb_true_r.
    replace (a <? m)%nat with true by (symmetry; apply Nat.ltb_lt; lia).
    destruct (IH rem (S a) (Some e) st (S c)
                 (sl ++ [getRetryDelay a (random (length sl))])%list result)
      as [H1 H2]; try lia.
    + intros j Hj. replace (S c + j) with (c + S j) by lia. apply Hpre. lia.
    + by replace (S c + k) with (c + S k) by lia.
    + split; [done|]. rewrite H2. f_equal. lia.
Qed.

(** When the loop is left by [break], [lastError] is the error of the last
    invocation; when the [catch] block threw, the last invocation was
    rejected with a nullish value. *)
Lemma attempts_last_error remaining a le st c sl :
  let r := loop remaining a le st c sl in
  0 < remaining ->
  match r.1.1.1 with
  | returned _ => True
  | left_loop last =>
      exists e, last = Some e /\ 0 < r.1.2 /\
                try_request (requestFn (r.1.2 - 1)) = caught e
  | catch_threw type_error =>
      0 < r.1.2 /\ try_request (requestFn (r.1.2 - 1)) = caught_nullish type_error
  end.
Proof.
  revert a le c sl.
  induction remaining as [|rem IH]; intros a le c sl; simpl; [lia|].
  intros _.
  destruct (try_request (requestFn c)) as [res|e|te] eqn:E; simpl; [done| |].
  - destruct (a <? m)%nat eqn:Ha; simpl.
    + destruct (isRetryableError e (response e)); simpl.
      * destruct rem as [|rem'].
        -- simpl. exists e. rewrite Nat.sub_0_r. split; [done|]. split; [lia|done].
        -- apply IH. lia.
      * exists e. rewrite Nat.sub_0_r. split; [done|]. split; [lia|done].
    + exists e. rewrite Nat.sub_0_r. split; [done|]. split; [lia|done].
  - rewrite Nat.sub_0_r. split; [lia|done].
Qed.

(** A run of retryable failures that uses the whole budget, followed by a
    failure with an error object: the loop is left after attempt [m] with
    that error. *)
Lemma attempts_exhaust e : forall remaining a le st sl,
  a + remaining = S m -> 0 < remaining ->
  (forall j, a <= j -> j < m -> retryable_failure (requestFn j) = true) ->
  try_request (requestFn m) = caught e ->
  let r := loop remaining a le st a sl in
  r.1.1.1 = left_loop (Some e) /\ r.1.2 = m + 1.
Proof.
  induction remaining as [|rem IH]; intros a le st sl Ha Hrem Hpre Hlast; [lia|].
  simpl. destruct (decide (a = m)) as [->|Hne].
  - rewrite Hlast, Nat.ltb_irrefl. simpl. split; [done|lia].
  - pose proof (Hpre a ltac:(lia) ltac:(lia)) as Hr. unfold retryable_failure in Hr.
    destruct (try_request (requestFn a)) as [res|e'|te]; [done| |done].
    rewrite Hr, andb_true_r.
    replace (a <? m)%nat with true by (symmetry; apply Nat.ltb_lt; lia).
    apply IH; [lia|lia| |done]. intros j ? ?. apply Hpre; lia.
Qed.

End Loop.

(** *** Retry classification *)

(** A truthy string field holds a non-empty string. *)
Lemma truthy_string_iff (o : option string) :
  truthy_string o = true <-> exists v, o = Some v /\ v <> EmptyString.
Proof.
  destruct o as [v|]; simpl.
  - rewrite negb_true_iff, String.eqb_neq. split; [eauto|].
    by intros (? & [= <-] & ?).
  - split; [done|]. by intros (? & ? & ?).
Qed.

(** [isRetryableError] is true exactly for a retryable status, a retryable
    network code, or a message carrying the rate-limit signal. *)
Lemma isRetryableError_iff e resp :
  isRetryableError e resp = true <->
  (exists r, resp = Some r /\ status r ∈ retryableStatuses) \/
  (exists c, code e = Some c /\ c ∈ retryableCodes) \/
  (exists msg, message e = Some msg /\
               includes msg "SSS_REQUEST_LIMIT_EXCEEDED" = true).
Proof.
  assert (isRetryableError e resp =
          match resp with
          | Some r => bool_decide (status r ∈ retryableStatuses)
          | None => false
          end
          || truthy_string (code e) &&
             bool_decide (template (code e) ∈ retryableCodes)
          || truthy_string (message e) &&
             includes (template (message e)) "SSS_REQUEST_LIMIT_EXCEEDED") as ->.
  { unfold isRetryableError.
    destruct (match resp with Some _ => _ | None => _ end); [done|].
    destruct (truthy_string (code e) && _); [done|].
    by destruct (truthy_string (message e) && _). }
  rewrite !orb_true_iff, !andb_true_iff, !truthy_string_iff.
  split.
  - intros [[H|[(c & Hc & _) H]]|[(msg & Hm & _) H]].
    + left. destruct resp as [r|]; [|done]. apply bool_decide_eq_true in H. eauto.
    + right; left. rewrite Hc in H. apply bool_decide_eq_true in H. eauto.
    + right; right. rewrite Hm in H. eauto.
  - intros [(r & -> & Hs)|[(c & Hc & Hin)|(msg & Hm & Hi)]].
    + left; left. by apply bool_decide_eq_true.
    + left; right. rewrite Hc. split.
      * exists c. split; [done|]. intros ->.
        unfold retryableCodes in Hin.
        repeat (apply elem_of_cons in Hin as [Hin|Hin]; [discriminate|]).
        by apply elem_of_nil in Hin.
      * by apply bool_decide_eq_true.
    + right. rewrite Hm. split; [|done].
      exists msg. split; [done|]. by intros ->.
Qed.

(** *** The retry budget *)

Section Budget.

Variable requestFn : request_fn.
Variable random : nat -> float.
Variable m : nat.
Variable st : stats.

Local Abbreviation the_run := (executeWithConcurrencyControl requestFn random m st).

(** How a run relates to the loop it contains. *)
Lemma run_unfold :
  let l := attempts requestFn random m (S m) 0 None (on_admit (on_submit st)) 0 [] in
  invocations the_run = l.1.2 /\
  sleeps the_run = l.2 /\
  match l.1.1.1 with
  | returned result =>
      outcome the_run = inl result /\ stats_after the_run = l.1.1.2
  | left_loop lastError =>
      outcome the_run = inr (exhausted_error m lastError) /\
      stats_after the_run = on_exhausted l.1.1.2
  | catch_threw type_error =>
      outcome the_run = inr type_error /\ stats_after the_run = l.1.1.2
  end.
Proof.
  unfold executeWithConcurrencyControl.
  destruct (attempts _ _ _ _ _ _ _ _ _) as [[[[res|le|te] st'] calls] slept]; by simpl.
Qed.

(** C5.  With retry budget [m] the operation is invoked at most [m + 1]
    times; when its attempt [k <= m] succeeds after [k] retryable failures
    the run returns that success after exactly [k + 1] invocations; and when
    its first failure is not retryable the run fails after exactly one
    invocation. *)
Theorem retry_budget :
  let r := executeWithConcurrencyControl requestFn random m st in
  invocations r <= m + 1 /\
  (forall k result,
      k <= m ->
      (forall j, j < k -> retryable_failure (requestFn j) = true) ->
      try_request (requestFn k) = passed result ->
      outcome r = inl result /\ invocations r = k + 1) /\
  (forall e,
      try_request (requestFn 0) = caught e ->
      isRetryableError e (response e) = false ->
      invocations r = 1 /\
      outcome r = inr (exhausted_error m (Some e))).
Proof.
  intros r. subst r.
  destruct run_unfold as (Hinv & _ & Hout). cbv zeta in *.
  split; [|split].
  - rewrite Hinv.
    destruct (attempts_calls requestFn random m (S m) 0 None
                (on_admit (on_submit st)) 0 []) as [H|[H _]]; lia.
  - intros k result Hk Hpre Hok.
    destruct (attempts_recover requestFn random m k (S m) 0 None
                (on_admit (on_submit st)) 0 [] result) as [H1 H2];
      [lia|lia|done|done|].
    rewrite H1 in Hout. destruct Hout as [-> _].
    rewrite Hinv, H2. split; [done|lia].
  - intros e He Hnr. revert Hinv Hout. simpl. rewrite He. simpl.
    rewrite Hnr, andb_false_r. simpl. by intros -> [-> _].
Qed.

(** C9.  [retriedRequests] grows by one exactly when the run returns a
    result after two or more invocations; a success at the first attempt
    and every failing run leave it as it was. *)
Theorem retried_counts_recovered_successes :
  let r := executeWithConcurrencyControl requestFn random m st in
  retriedRequests (stats_after r) =
  match outcome r with
  | inl _ =>
      if (2 <=? invocations r)%nat
      then (retriedRequests st + 1)%Z
      else retriedRequests st
  | inr _ => retriedRequests st
  end.
Proof.
  intros r. subst r.
  destruct run_unfold as (Hinv & _ & Hout). cbv zeta in *.
  pose proof (attempts_stats requestFn random m (S m) 0 None
                (on_admit (on_submit st)) 0 []) as Hst.
  cbv zeta in Hst.
  destruct (_.1.1.1) as [res|le|te].
  - destruct Hout as [-> ->]. destruct Hst as (k & -> & Hc).
    rewrite Hinv, Hc. simpl. destruct k; by simpl.
  - destruct Hout as [-> ->]. by rewrite Hst.
  - destruct Hout as [-> ->]. by rewrite Hst.
Qed.

(** A run whose first [m] attempts fail with retryable errors and whose
    last attempt fails with the error object [e] makes [m + 1] invocations
    and throws the error built from [e]. *)
Lemma run_exhausted e :
  (forall j, j < m -> retryable_failure (requestFn j) = true) ->
  try_request (requestFn m) = caught e ->
  invocations the_run = m + 1 /\
  outcome the_run = inr (exhausted_error m (Some e)).
Proof.
  intros Hpre Hlast.
  destruct run_unfold as (Hinv & _ & Hout). cbv zeta in *.
  destruct (attempts_exhaust requestFn random m e (S m) 0 None
              (on_admit (on_submit st)) [] ltac:(lia) ltac:(lia)
              ltac:(intros j _ Hj; by apply Hpre) Hlast) as [H1 H2].
  rewrite H1 in Hout. destruct Hout as [-> _]. by rewrite Hinv, H2.
Qed.

(** A run that fails after using the whole budget did make [m + 1]
    invocations. *)
Lemma failure_after_retryable_errors :
  (forall j, j <= m -> retryable_failure (requestFn j) = true) ->
  invocations the_run = m + 1 /\ exists err, outcome the_run = inr err.
Proof.
  intros Hall.
  pose proof (Hall m ltac:(lia)) as Hm. unfold retryable_failure in Hm.
  destruct (try_request (requestFn m)) as [res|e|te] eqn:E; [done| |done].
  destruct (run_exhausted e) as [H1 H2]; [intros j Hj; apply Hall; lia|done|].
  split; [done|eauto].
Qed.

End Budget.



(** The count in the message is [maxRetries + 1] also when the loop is left
    early: an operation whose first failure is an HTTP 400 is invoked once
    and fails with "after 4 attempts". *)
Example early_failure_message :
  let bad_request :=
    {| code := None; message := Some "Invalid field value";
       response := Some {| status := 400 |} |} in
  let r := executeWithConcurrencyControl (fun _ => Rejects bad_request)
             (fun _ => 0%float) (maxRetries CONFIG) resetStats in
  invocations r = 1 /\
  outcome r =
    inr (new_Error "Request failed after 4 attempts: Invalid field value").
Proof. split; reflexivity. Qed.

(** *** The backoff delay *)

(** The backoff is an integer number of milliseconds. *)
Lemma backoff_Z n :
  (backoff n == inject_Z (Z.min (1000 * 2 ^ Z.of_nat n) 32000))%Q.
Proof.
  unfold backoff.
  change (inject_Z (initialRetryDelay CONFIG)) with (inject_Z 1000).
  change (inject_Z (maxRetryDelay CONFIG)) with (inject_Z 32000).
  change 2%Q with (inject_Z 2).
  assert (inject_Z 1000 * inject_Z 2 ^ Z.of_nat n ==
          inject_Z (1000 * 2 ^ Z.of_nat n))%Q as Hpow.
  { rewrite inject_Z_mult. by rewrite Zpower_Qpower by lia. }
  destruct (Z.min_spec (1000 * 2 ^ Z.of_nat n) 32000) as [[Hlt ->]|[Hle ->]].
  - rewrite Q.min_l; [done|]. rewrite Hpow. rewrite <- Zle_Qle. lia.
  - rewrite Q.min_r; [done|]. rewrite Hpow. by rewrite <- Zle_Qle.
Qed.

(** The delay before jitter, as the doubles compute it. *)
Local Abbreviation delay n :=
  (Math_min (double (initialRetryDelay CONFIG) * Math_pow_2 n)
            (double (maxRetryDelay CONFIG))).

(** [Math.pow(2, n)] is [Infinity] from 2^1024 on; [Z.ldexp] clamps the
    exponent it is given. *)
Lemma Math_pow_2_overflow n : 2098 <= n -> Math_pow_2 n = Math_pow_2 2098.
Proof.
  intros H. unfold Math_pow_2, Z.ldexp.
  replace (Z.min (Z.of_nat n) (emax - emin)) with 2098%Z.
  - reflexivity.
  - change (emax - emin)%Z with 2098%Z. lia.
Qed.

Lemma delay_table :
  forallb (fun n => PrimFloat.Leibniz.eqb (delay n) 32000) (seq 5 2094) = true.
Proof. vm_compute. reflexivity. Qed.

(** From the fifth retry on the delay before jitter is 32000 ms, also when
    [1000 * Math.pow(2, n)] is [Infinity]. *)
Lemma delay_capped n : 5 <= n -> delay n = 32000%float.
Proof.
  intros Hn. destruct (Nat.le_gt_cases n 2098) as [Hle|Hgt].
  - pose proof delay_table as H. rewrite forallb_forall in H.
    apply Leibniz.eqb_spec. apply H. apply in_seq. lia.
  - rewrite Math_pow_2_overflow by lia. reflexivity.
Qed.

(** The doubles compute the delay before jitter exactly. *)
Lemma delay_exact n : delay n = double (Z.min (1000 * 2 ^ Z.of_nat n) 32000).
Proof.
  destruct (Nat.le_gt_cases 5 n) as [Hge|Hlt].
  - rewrite delay_capped by done.
    assert (2 ^ 5 <= 2 ^ Z.of_nat n)%Z by (apply Z.pow_le_mono_r; lia).
    change (2 ^ 5)%Z with 32%Z in *. by rewrite Z.min_r by lia.
  - do 5 (destruct n as [|n]; [reflexivity|]). lia.
Qed.

(** C7, as the doubles have it.  For a draw [r] of [Math.random()], a
    double in [0, 1), the delay of attempt [n] is [D + jitter] with
    [D = min (1000 * 2^n) 32000], computed exactly, and
    [jitter = D * 0.2 * r], each operation rounded to the nearest double.
    The jitter lies between 0 and [0.2 * D] and the delay between [D] and
    [1.2 * D], both bounds included. *)
Theorem getRetryDelay_bounds (n : nat) (r : float) :
  (0 <=? r)%float = true -> (r <? 1)%float = true ->
  let d := Z.min (1000 * 2 ^ Z.of_nat n) 32000 in
  let jitter := (double d * 0x1.999999999999ap-3 * r)%float in
  (backoff n == inject_Z d)%Q /\
  getRetryDelay n r = (double d + jitter)%float /\
  (0 <=? jitter)%float = true /\
  (jitter <=? double (2 * d / 10))%float = true /\
  (double d <=? getRetryDelay n r)%float = true /\
  (getRetryDelay n r <=? double (12 * d / 10))%float = true.
Proof.
  intros H0 H1 d jitter. subst jitter.
  split; [apply backoff_Z|].
  unfold getRetryDelay. rewrite delay_exact. fold d.
  split; [reflexivity|].
  assert (d = 1000 \/ d = 2000 \/ d = 4000 \/ d = 8000 \/ d = 16000 \/ d = 32000)%Z
    as Hd.
  { subst d. destruct (Nat.le_gt_cases 5 n) as [Hge|Hlt].
    - assert (2 ^ 5 <= 2 ^ Z.of_nat n)%Z by (apply Z.pow_le_mono_r; lia).
      change (2 ^ 5)%Z with 32%Z in *. lia.
    - do 5 (destruct n as [|n]; [vm_compute; tauto|]). lia. }
  clearbody d.
  destruct Hd as [->|[->|[->|[->|[->| ->]]]]];
    (eapply DoubleRounding.jitter_bounds;
     [ vm_compute; reflexivity | vm_compute; reflexivity | vm_compute; reflexivity
     | vm_compute; discriminate | vm_compute; reflexivity | exact H0 | exact H1 ]).
Qed.

(** The third retry, with a jitter draw of one half: 8000 + 800. *)
Lemma getRetryDelay_bounds_witness :
  let d := Z.min (1000 * 2 ^ Z.of_nat 3) 32000 in
  let jitter := (double d * 0x1.999999999999ap-3 * 0.5)%float in
  (backoff 3 == inject_Z d)%Q /\
  getRetryDelay 3 0.5 = (double d + jitter)%float /\
  (0 <=? jitter)%float = true /\
  (jitter <=? double (2 * d / 10))%float = true /\
  (double d <=? getRetryDelay 3 0.5)%float = true /\
  (getRetryDelay 3 0.5 <=? double (12 * d / 10))%float = true.
Proof. apply (getRetryDelay_bounds 3 0.5); reflexivity. Defined.

(** C7 as stated fails: with the largest draw below 1 the first retry waits
    exactly 1200 ms, which is [1.2 * D] and not less. *)
Lemma delay_reaches_upper_bound :
  let r := 0x1.fffffffffffffp-1%float in
  (0 <=? r)%float = true /\ (r <? 1)%float = true /\
  getRetryDelay 0 r = 1200%float /\
  (getRetryDelay 0 r <? double (12 * 1000 / 10))%float = false.
Proof. vm_compute. auto. Qed.

Example backoff_first : (backoff 0 == 1000)%Q.
Proof. reflexivity. Qed.

Example backoff_capped : (backoff 5 == 32000 /\ backoff 9 == 32000)%Q.
Proof. split; reflexivity. Qed.

(** An operation that is refused once with a 503 and then answers, and one
    that is refused with a 400. *)
Lemma retry_budget_witness :
  let unavailable :=
    {| code := None; message := Some "Service Unavailable";
       response := Some {| status := 503 |} |} in
  let bad_request :=
    {| code := None; message := Some "Invalid field value";
       response := Some {| status := 400 |} |} in
  let answer := {| payload := "rows"; result_error_code := None |} in
  let flaky n := match n with 0 => Rejects unavailable | _ => Resolves answer end in
  let broken (_ : nat) := Rejects bad_request in
  let r1 := executeWithConcurrencyControl flaky (fun _ => 0%float) 3 resetStats in
  let r2 := executeWithConcurrencyControl broken (fun _ => 0%float) 3 resetStats in
  (outcome r1 = inl answer /\ invocations r1 = 2) /\
  (invocations r2 = 1 /\ outcome r2 = inr (exhausted_error 3 (Some bad_request))).
Proof.
  intros unavailable bad_request answer flaky broken. split.
  - apply (proj1 (proj2 (retry_budget flaky (fun _ => 0%float) 3 resetStats)) 1 answer).
    + lia.
    + intros [|j] Hj; [reflexivity|lia].
    + reflexivity.
  - apply (proj2 (proj2 (retry_budget broken (fun _ => 0%float) 3 resetStats)) bad_request);
      reflexivity.
Defined.

(** *** Batches *)

(** The outcome of a run does not depend on the counters it starts from. *)
Lemma outcome_stats_irrelevant fn random m st st' :
  outcome (executeWithConcurrencyControl fn random m st) =
  outcome (executeWithConcurrencyControl fn random m st').
Proof.
  destruct (run_unfold fn random m st) as (_ & _ & H).
  destruct (run_unfold fn random m st') as (_ & _ & H').
  destruct (attempts_stats_irrelevant fn random m (S m) 0 None
              (on_admit (on_submit st)) (on_admit (on_submit st')) 0 [])
    as (E & _ & _).
  cbv zeta in *. rewrite E in H.
  destruct (_.1.1.1); destruct H as [-> _], H' as [-> _]; done.
Qed.

(** The object a batch promise resolves to without [failFast], given the
    run of its operation. *)
Lemma batch_promises_spec onProgress random n fns : forall index0 w,
  let ps := (batch_promises false onProgress random n fns index0 w).1 in
  let w' := (batch_promises false onProgress random n fns index0 w).2 in
  length ps = length fns /\
  batch_completed w' = batch_completed w + length fns /\
  forall i fn, fns !! i = Some fn ->
    ps !! i = Some (fulfilled
      match outcome (executeWithConcurrencyControl fn random (maxRetries CONFIG)
                       resetStats) with
      | inl result => ItemSucceeded result (index0 + i)
      | inr error => ItemFailed "BATCH_ITEM_FAILED" (message error) (index0 + i)
      end).
Proof.
  induction fns as [|fn rest IH]; intros index0 w; simpl.
  - split; [done|]. split; [lia|]. by intros i fn.
  - destruct (batch_promise false onProgress random n fn index0 w) as [p w1] eqn:Ep.
    specialize (IH (S index0) w1). cbv zeta in IH.
    destruct (batch_promises false onProgress random n rest (S index0) w1)
      as [ps w2]. simpl in *.
    destruct IH as (Hlen & Hdone & Hitems).
    assert (batch_completed w1 = S (batch_completed w) /\
            p = fulfilled
                  match outcome (executeWithConcurrencyControl fn random
                                   (maxRetries CONFIG) resetStats) with
                  | inl result => ItemSucceeded result index0
                  | inr error => ItemFailed "BATCH_ITEM_FAILED" (message error) index0
                  end) as [Hw1 Hp].
    { unfold batch_promise in Ep.
      rewrite (outcome_stats_irrelevant fn random (maxRetries CONFIG)
                 (batch_stats w) resetStats) in Ep.
      destruct (outcome _); injection Ep as <- <-; done. }
    split; [by rewrite Hlen|]. split; [lia|].
    intros [|i] fn' Hfn; simpl in *.
    + injection Hfn as <-. by rewrite Nat.add_0_r, Hp.
    + rewrite (Hitems i fn' Hfn). by rewrite Nat.add_succ_r.
Qed.

(** C8.  Without [failFast] a batch of N operations returns N settled
    entries, all N operations are counted as completed, and the entry at
    each index is the operation's own outcome: its result, or the tagged
    failure [BATCH_ITEM_FAILED] carrying its message and index, whatever the
    other operations did. *)
Theorem batch_reports_every_item onProgress random race
    (requestFns : list request_fn) st :
  exists results w,
    executeBatch false onProgress random race requestFns st =
      (AllSettled results, w) /\
    length results = length requestFns /\
    batch_completed w = length requestFns /\
    forall index fn,
      requestFns !! index = Some fn ->
      results !! index = Some (fulfilled
        match outcome (executeWithConcurrencyControl fn random (maxRetries CONFIG)
                         resetStats) with
        | inl result => ItemSucceeded result index
        | inr error => ItemFailed "BATCH_ITEM_FAILED" (message error) index
        end).
Proof.
  unfold executeBatch.
  pose proof (batch_promises_spec onProgress random (length requestFns) requestFns 0
                {| batch_stats := st; batch_completed := 0; batch_progress := [] |})
    as H.
  cbv zeta in H.
  destruct (batch_promises _ _ _ _ _ _ _) as [ps w]. simpl in H.
  destruct H as (Hlen & Hdone & Hitems).
  exists ps, w. by repeat split.
Qed.

(** Three operations, the middle one failing with a 400: the first and the
    third are reported with their results. *)
Lemma batch_reports_every_item_witness :
  let bad_request :=
    {| code := None; message := Some "Invalid field value";
       response := Some {| status := 400 |} |} in
  let answer := {| payload := "rows"; result_error_code := None |} in
  let fns : list request_fn :=
    [fun _ => Resolves answer; fun _ => Rejects bad_request;
     fun _ => Resolves answer] in
  exists results w,
    executeBatch false false (fun _ => 0%float) 0 fns resetStats =
      (AllSettled results, w) /\
    results !! 2 = Some (fulfilled (ItemSucceeded answer 2)) /\
    results !! 1 =
      Some (fulfilled
              (ItemFailed "BATCH_ITEM_FAILED"
                 (Some "Request failed after 4 attempts: Invalid field value") 1)).
Proof.
  intros bad_request answer fns.
  destruct (batch_reports_every_item false (fun _ => 0%float) 0 fns resetStats)
    as (results & w & Hrun & _ & _ & Hitems).
  exists results, w. split; [exact Hrun|]. split.
  - exact (Hitems 2 (fun _ => Resolves answer) eq_refl).
  - exact (Hitems 1 (fun _ => Rejects bad_request) eq_refl).
Defined.

End ConcurrencyProofs.

(** * Properties of the token cache *)

Module OAuthProofs.
Import OAuth.

Local Open Scope Z_scope.

(** An exchange that yields a payload went to the network exactly once, and
    the payload has a non-empty [access_token]. *)
Lemma exchange_success io data n :
  exchangeJWTForToken io = (inr data, n) ->
  n = 1%nat /\ truthy_string (access_token data) = true.
Proof.
  unfold exchangeJWTForToken.
  destruct (getOAuthConfig (env io)); [done|].
  destruct (generateClientAssertion io); [done|].
  destruct (fetch io) as [err|reply]; [done|].
  destruct (negb (ok reply)); [done|].
  destruct (json reply) as [d|]; [|done].
  destruct (negb (truthy_string (access_token d))) eqn:E; [done|].
  intros [= <- <-]. split; [done|]. by apply negb_false_iff.
Qed.

(** A non-2xx reply, or a 2xx reply without an [access_token], makes the
    exchange fail, whatever else happens. *)
Lemma exchange_failure io reply :
  fetch io = inr reply ->
  ok reply = false \/
  (exists data, json reply = Some data /\ truthy_string (access_token data) = false) ->
  exists err n, exchangeJWTForToken io = (inl err, n).
Proof.
  intros Hf Hbad. unfold exchangeJWTForToken.
  destruct (getOAuthConfig (env io)); [eauto|].
  destruct (generateClientAssertion io); [eauto|].
  rewrite Hf.
  destruct Hbad as [->|(data & -> & ->)]; simpl; [eauto|].
  destruct (ok reply); simpl; eauto.
Qed.

(** A token that is not fresh does not become fresh later. *)
Lemma fresh_antitone c t t' : t <= t' -> fresh c t = false -> fresh c t' = false.
Proof.
  unfold fresh. destruct (expiresAt c) as [e|]; [|done].
  rewrite !Z.ltb_ge. lia.
Qed.

(** Past its expiry a token is not fresh. *)
Lemma expired_not_fresh c e t : expiresAt c = Some e -> e <= t -> fresh c t = false.
Proof. unfold fresh. intros -> H. apply Z.ltb_ge. lia. Qed.

(** A call that finds a fresh token returns it and touches nothing. *)
Lemma getAccessToken_hit io s c :
  tokenCache s !! "access_token" = Some c -> fresh c (now io) = true ->
  getAccessToken io s = (inr (token c), s).
Proof. unfold getAccessToken. by intros -> ->. Qed.

(** A call that finds no fresh token goes to the exchange. *)
Lemma getAccessToken_miss io s :
  (forall c, tokenCache s !! "access_token" = Some c -> fresh c (now io) = false) ->
  getAccessToken io s = refresh io s.
Proof.
  unfold getAccessToken. intros H.
  destruct (tokenCache s !! "access_token") as [c|]; [|done].
  by rewrite (H c eq_refl).
Qed.

(** C3.  Two calls, the first finding no fresh token and the second made
    while the cached token is more than 300 s from its expiry: one exchange
    goes over the network in total, the first call returns the exchanged
    token, and the second returns the same token and leaves the state as it
    is.  A call made after the cached token's expiry, with an exchange that
    yields a payload, sends one exchange, returns the new token and
    replaces the cache entry. *)
Theorem token_cache_single_exchange :
  (forall io1 io2 s,
      (forall c, tokenCache s !! "access_token" = Some c ->
                 fresh c (now io1) = false) ->
      now io1 <= now io2 ->
      let s1 := (getAccessToken io1 s).2 in
      let s2 := (getAccessToken io2 s1).2 in
      (exists c, tokenCache s1 !! "access_token" = Some c /\
                 fresh c (now io2) = true) ->
      exchanges s2 = (exchanges s + 1)%nat /\
      s2 = s1 /\
      exists tok, (getAccessToken io1 s).1 = inr tok /\
                  (getAccessToken io2 s1).1 = inr tok) /\
  (forall io s c e data n,
      tokenCache s !! "access_token" = Some c ->
      expiresAt c = Some e -> e <= now io ->
      exchangeJWTForToken io = (inr data, n) ->
      let s' := (getAccessToken io s).2 in
      exchanges s' = (exchanges s + 1)%nat /\
      (getAccessToken io s).1 = inr (template (access_token data)) /\
      tokenCache s' !! "access_token" =
        Some {| token := template (access_token data);
                expiresAt :=
                  (fun secs => now_after_exchange io + secs * 1000) <$>
                  expires_in data |}).
Proof.
  split.
  - intros io1 io2 s Hmiss Hle s1 s2 (c & Hc & Hfresh).
    subst s2 s1. revert Hc. rewrite (getAccessToken_miss io1 s Hmiss).
    unfold refresh.
    destruct (exchangeJWTForToken io1) as [[err|data] n] eqn:Hx; simpl.
    + intros Hc. pose proof (Hmiss c Hc) as Hold.
      by rewrite (fresh_antitone c _ _ Hle Hold) in Hfresh.
    + destruct (exchange_success io1 data n Hx) as [-> _].
      rewrite lookup_insert_eq. intros [= <-].
      erewrite getAccessToken_hit; [|by apply lookup_insert_eq|done].
      simpl. repeat split. by eexists.
  - intros io s c e data n Hc He Hexp Hx s'. subst s'.
    rewrite (getAccessToken_miss io s).
    + unfold refresh. rewrite Hx. simpl.
      destruct (exchange_success io data n Hx) as [-> _].
      rewrite lookup_insert_eq. by repeat split.
    + intros c' Hc'. rewrite Hc in Hc'. injection Hc' as <-.
      by apply (expired_not_fresh c e).
Qed.

(** A complete environment, a signer that succeeds, and a token endpoint
    that answers with the given reply. *)
Lemma token_cache_single_exchange_witness :
  let configured :=
    {| NETSUITE_ACCOUNT_ID := Some "1234567"; NETSUITE_CLIENT_ID := Some "client";
       NETSUITE_CERT_ID := Some "cert"; NETSUITE_PRIVATE_KEY := Some "key" |} in
  let granted tok :=
    inr {| ok := true; status := 200; text := "{}";
           json := Some {| access_token := Some tok; expires_in := Some 3600 |};
           json_error := EmptyString |} in
  let call tok t :=
    {| env := configured; sign := fun _ => inr "assertion";
       fetch := granted tok; now := t; now_after_exchange := t + 200 |} in
  let s0 := {| tokenCache := ∅; exchanges := 0 |} in
  let s1 := (getAccessToken (call "t1" 1000) s0).2 in
  let s2 := (getAccessToken (call "t2" 2000000) s1).2 in
  let s3 := (getAccessToken (call "t3" 4000000) s2).2 in
  (exchanges s2 = 1%nat /\ s2 = s1 /\
   exists tok, (getAccessToken (call "t1" 1000) s0).1 = inr tok /\
               (getAccessToken (call "t2" 2000000) s1).1 = inr tok) /\
  (exchanges s3 = (exchanges s2 + 1)%nat /\
   (getAccessToken (call "t3" 4000000) s2).1 = inr "t3" /\
   tokenCache s3 !! "access_token" =
     Some {| token := "t3"; expiresAt := Some 7600200 |}).
Proof.
  intros configured granted call s0 s1 s2 s3. split.
  - apply (proj1 token_cache_single_exchange (call "t1" 1000) (call "t2" 2000000) s0).
    + intros c Hc. unfold s0 in Hc. simpl in Hc. by rewrite lookup_empty in Hc.
    + simpl. lia.
    + exists {| token := "t1"; expiresAt := Some 3601200 |}. split; reflexivity.
  - apply (proj2 token_cache_single_exchange (call "t3" 4000000) s2
             {| token := "t1"; expiresAt := Some 3601200 |} 3601200
             {| access_token := Some "t3"; expires_in := Some 3600 |} 1%nat).
    + reflexivity.
    + reflexivity.
    + simpl. lia.
    + reflexivity.
Defined.

(** C6, as the code has it.  When the token endpoint answers with a non-2xx
    status or without an [access_token], a call that found no fresh token
    fails with an error and leaves [tokenCache] as it was; and the cached
    token, expired or not, is not what the call returns. *)
Theorem failed_exchange_keeps_cache io s reply :
  fetch io = inr reply ->
  ok reply = false \/
  (exists data, json reply = Some data /\
                truthy_string (access_token data) = false) ->
  (forall c, tokenCache s !! "access_token" = Some c ->
             fresh c (now io) = false) ->
  (exists err, (getAccessToken io s).1 = inl err) /\
  tokenCache (getAccessToken io s).2 = tokenCache s /\
  (forall c, tokenCache s !! "access_token" = Some c ->
             (getAccessToken io s).1 <> inr (token c)).
Proof.
  intros Hf Hbad Hmiss.
  destruct (exchange_failure io reply Hf Hbad) as (err & n & Hx).
  rewrite (getAccessToken_miss io s Hmiss). unfold refresh. rewrite Hx. simpl.
  split; [eauto|]. split; [done|]. by intros c _.
Qed.

(** A token 200 s from its expiry and an endpoint that answers 503. *)
Lemma failed_exchange_keeps_cache_witness :
  let c := {| token := "old"; expiresAt := Some 1000200000 |} in
  let s := {| tokenCache := {[ "access_token" := c ]}; exchanges := 1 |} in
  let reply :=
    {| ok := false; status := 503; text := "Service Unavailable"; json := None;
       json_error := "Unexpected token S in JSON at position 0" |} in
  let io :=
    {| env := {| NETSUITE_ACCOUNT_ID := Some "1234567";
                 NETSUITE_CLIENT_ID := Some "client";
                 NETSUITE_CERT_ID := Some "cert";
                 NETSUITE_PRIVATE_KEY := Some "key" |};
       sign := fun _ => inr "assertion"; fetch := inr reply;
       now := 1000000000; now_after_exchange := 1000000200 |} in
  (exists err, (getAccessToken io s).1 = inl err) /\
  tokenCache (getAccessToken io s).2 = tokenCache s /\
  (forall c', tokenCache s !! "access_token" = Some c' ->
              (getAccessToken io s).1 <> inr (token c')).
Proof.
  intros c s reply io.
  apply (failed_exchange_keeps_cache io s reply).
  - reflexivity.
  - left. reflexivity.
  - intros c' Hc'.
    unfold s in Hc'. simpl in Hc'. rewrite lookup_singleton_eq in Hc'.
    injection Hc' as <-. reflexivity.
Defined.

(** C6 as stated fails: a cached token that is inside the safety margin but
    200 s short of its expiry is not usable once the exchange fails; the
    caller gets the exchange error instead of the token. *)
Lemma stale_token_not_served :
  let c := {| token := "old"; expiresAt := Some 1000200000 |} in
  let s := {| tokenCache := {[ "access_token" := c ]}; exchanges := 1 |} in
  let reply :=
    {| ok := false; status := 503; text := "Service Unavailable"; json := None;
       json_error := "Unexpected token S in JSON at position 0" |} in
  let io :=
    {| env := {| NETSUITE_ACCOUNT_ID := Some "1234567";
                 NETSUITE_CLIENT_ID := Some "client";
                 NETSUITE_CERT_ID := Some "cert";
                 NETSUITE_PRIVATE_KEY := Some "key" |};
       sign := fun _ => inr "assertion"; fetch := inr reply;
       now := 1000000000; now_after_exchange := 1000000200 |} in
  tokenCache s !! "access_token" = Some c /\
  (exists e, expiresAt c = Some e /\ now io < e <= now io + 300000) /\
  (getAccessToken io s).1 =
    inl "OAuth token exchange failed: 503 - Service Unavailable" /\
  (getAccessToken io s).1 <> inr (token c).
Proof.
  intros c s reply io.
  split; [reflexivity|]. split; [exists 1000200000; split; [reflexivity|unfold io; simpl; lia]|].
  split; [reflexivity|discriminate].
Qed.

End OAuthProofs.

(** * Properties of the composite RESTlet *)

Module RestletProofs.
Import Restlet.

(** *** [mapTaskStatus] *)

(** The four frontend labels map to the four NetSuite codes. *)
Lemma mapTaskStatus_known :
  mapTaskStatus (Some "Not Started") = Str "NOTSTART" /\
  mapTaskStatus (Some "In Progress") = Str "PROGRESS" /\
  mapTaskStatus (Some "Completed") = Str "COMPLETE" /\
  mapTaskStatus (Some "On Hold") = Str "ONHOLD".
Proof. repeat split; reflexivity. Qed.

(** Any other input that is not the name of an [Object.prototype] member,
    [undefined] included, maps to [NOTSTART]. *)
Lemma mapTaskStatus_default (frontendStatus : option string) :
  statusMap !! template frontendStatus = None ->
  template frontendStatus ∉ Object_prototype ->
  mapTaskStatus frontendStatus = Str "NOTSTART".
Proof.
  intros Hown Hproto. unfold mapTaskStatus, get. rewrite Hown.
  by rewrite bool_decide_eq_false_2.
Qed.

Example mapTaskStatus_undefined : mapTaskStatus None = Str "NOTSTART".
Proof. reflexivity. Qed.

(** An input that names an [Object.prototype] member comes back as that
    member. *)
Lemma mapTaskStatus_inherited (key : string) :
  key ∈ Object_prototype -> mapTaskStatus (Some key) = Inherited key.
Proof.
  intros Hin. unfold Object_prototype in Hin.
  repeat (apply elem_of_cons in Hin as [->|Hin]; [reflexivity|]).
  by apply elem_of_nil in Hin.
Qed.

(** C10.  The status ['constructor'] is none of the four frontend labels,
    yet [mapTaskStatus] does not return [NOTSTART] for it: the lookup finds
    the member the [statusMap] literal inherits from [Object.prototype],
    which is truthy, and returns it. *)
Theorem mapTaskStatus_constructor :
  statusMap !! "constructor" = None /\
  mapTaskStatus (Some "constructor") = Inherited "constructor" /\
  mapTaskStatus (Some "constructor") <> Str "NOTSTART".
Proof. split; [reflexivity|]. split; [reflexivity|discriminate]. Qed.

(** *** [post] *)

(** Membership of a log line in a list built from appends and literals. *)
Ltac log_lines :=
  repeat first [ rewrite elem_of_app | rewrite elem_of_cons | rewrite elem_of_nil ];
  first [ tauto | intuition congruence ].

Lemma createProjectTask_spec R i task pid ns :
  match createProjectTask R i task pid ns with
  | (inl e, ns') =>
      ns' = ns /\ (is_Some (task_save R i) \/ task = None)
  | (inr tid, ns') =>
      task_save R i = None /\ is_Some task /\
      jobs ns' = jobs ns /\
      execution_log ns' = (execution_log ns ++ [(AUDIT, "Task Created")])%list /\
      (exists t, projecttasks ns' !! tid = Some t /\ company t = pid) /\
      (forall tid', tid' <> tid -> projecttasks ns' !! tid' = projecttasks ns !! tid')
  end.
Proof.
  unfold createProjectTask. destruct task as [task|]; [|by eauto].
  destruct (task_save R i) as [e|]; [by eauto|].
  simpl. repeat split; [by eexists| |].
  - eexists. by rewrite lookup_insert_eq.
  - intros tid' Hne. by rewrite lookup_insert_ne.
Qed.

(** The [catch (taskError)] block, on a task that is not [null], either
    deletes the project and logs "Rollback Complete", or leaves it and logs
    "Rollback Failed"; on a [null] task it does nothing at all. *)
Lemma rollback_spec R task i taskError pid ns :
  let ns' := (rollback R task i taskError pid ns).2 in
  exists entries,
    execution_log ns' = (execution_log ns ++ entries)%list /\
    ((is_Some task /\ job_delete R = None /\ jobs ns' = delete pid (jobs ns) /\
      (ERROR, "Rollback Failed") ∉ entries) \/
     (is_Some task /\ is_Some (job_delete R) /\ jobs ns' = jobs ns /\
      (ERROR, "Rollback Failed") ∈ entries) \/
     (task = None /\ ns' = ns /\ entries = [])).
Proof.
  unfold rollback, record_delete. destruct task as [task|]; simpl.
  2:{ exists []. rewrite app_nil_r. split; [done|]. right; right. done. }
  destruct (job_delete R) as [e|]; simpl.
  - exists [(ERROR, "Task Creation Failed"); (ERROR, "Rollback Failed")].
    split; [by rewrite <- app_assoc|]. right; left. split; [by eexists|].
    split; [by eexists|]. split; [done|]. log_lines.
  - exists [(ERROR, "Task Creation Failed"); (AUDIT, "Rollback Complete")].
    split; [by rewrite <- app_assoc|]. left. split; [by eexists|]. split; [done|].
    split; [done|]. log_lines.
Qed.

(** The task loop: it ends without an error after saving every remaining
    task under the project; or with an error after the rollback, when a
    task that is not [null] was refused; or with an error and no rollback,
    at a [null] task. *)
Lemma create_tasks_spec R pid rest : forall i created ns,
  (forall tid, tid ∈ created ->
     exists t, projecttasks ns !! tid = Some t /\ company t = pid) ->
  let r := create_tasks R rest i pid created ns in
  exists entries,
    execution_log r.2 = (execution_log ns ++ entries)%list /\
    match r.1.1 with
    | None =>
        jobs r.2 = jobs ns /\
        ((ERROR, "Rollback Failed") ∉ entries) /\
        length (r.1.2) = length created + length rest /\
        (forall tid, tid ∈ r.1.2 ->
           exists t, projecttasks r.2 !! tid = Some t /\ company t = pid)
    | Some e =>
        length (r.1.2) < length created + length rest /\
        ((job_delete R = None /\ jobs r.2 = delete pid (jobs ns) /\
          (ERROR, "Rollback Failed") ∉ entries) \/
         (is_Some (job_delete R) /\ jobs r.2 = jobs ns /\
          (ERROR, "Rollback Failed") ∈ entries) \/
         (None ∈ rest /\ jobs r.2 = jobs ns /\
          (ERROR, "Rollback Failed") ∉ entries))
    end.
Proof.
  induction rest as [|task rest IH]; intros i created ns Hinv;
    cbn [create_tasks fst snd length].
  - exists []. rewrite app_nil_r. split; [done|]. split; [done|].
    split; [log_lines|]. split; [lia|done].
  - pose proof (createProjectTask_spec R i task pid ns) as Hc.
    destruct (createProjectTask R i task pid ns) as [[taskError|tid] ns1].
    + destruct Hc as [-> _].
      destruct (rollback_spec R task i taskError pid ns)
        as (entries & Hlog & Hcases).
      destruct (rollback R task i taskError pid ns) as [e ns2].
      cbn [fst snd] in *.
      exists entries. split; [done|]. split; [lia|].
      destruct Hcases as [(_ & ? & ? & ?)|[(_ & ? & ? & ?)|(-> & -> & ->)]];
        [by left|by right; left|right; right].
      split; [by left|]. split; [done|]. log_lines.
    + destruct Hc as (_ & _ & Hjobs & Hlog & (t & Ht & Hco) & Hother).
      destruct (IH (S i) (created ++ [tid])%list ns1) as (entries & Hlog2 & Hcases).
      { intros tid' [Hin| ->%list_elem_of_singleton]%elem_of_app; [|eauto].
        destruct (decide (tid' = tid)) as [->|Hne]; [eauto|].
        rewrite (Hother tid' Hne). by apply Hinv. }
      exists ((AUDIT, "Task Created") :: entries).
      split; [by rewrite Hlog2, Hlog, <- app_assoc|].
      rewrite length_app in Hcases. cbn [length] in Hcases.
      destruct (_.1.1).
      * destruct Hcases as [Hlen Hc2]. split; [lia|].
        rewrite <- Hjobs.
        destruct Hc2 as [(? & ? & ?)|[(? & ? & ?)|(? & ? & ?)]];
          [left|right; left|right; right];
          (split; [done || by right|]; split; [done|log_lines]).
      * destruct Hcases as (Hj & Hrf & Hlen & Hall).
        split; [congruence|]. split; [log_lines|]. split; [lia|done].
Qed.

(** What [post] leaves behind, case by case: nothing was created; the
    project and all its tasks were created; the project was created and
    deleted again; the project was created and its delete threw; the
    project was created and, at a [null] task, left without a delete. *)
Lemma post_cases R requestBody ns :
  let resp := (post R requestBody ns).1 in
  let ns' := (post R requestBody ns).2 in
  exists entries,
    execution_log ns' = (execution_log ns ++ entries)%list /\
    ((success resp = false /\ response_projectId resp = None /\
      (ERROR, "Rollback Failed") ∉ entries) \/
     (exists pid d,
        success resp = true /\ data resp = Some d /\
        data_projectId d = Some pid /\ is_Some (jobs ns' !! pid) /\
        ((ERROR, "Rollback Failed") ∉ entries) /\
        length (taskIds d) = length (default [] (tasks requestBody)) /\
        (forall tid, tid ∈ taskIds d ->
           exists t, projecttasks ns' !! tid = Some t /\ company t = pid)) \/
     (exists pid,
        success resp = false /\ response_projectId resp = Some pid /\
        jobs ns' !! pid = None /\ job_delete R = None /\
        (ERROR, "Rollback Failed") ∉ entries) \/
     (exists pid,
        success resp = false /\ response_projectId resp = Some pid /\
        is_Some (jobs ns' !! pid) /\ is_Some (job_delete R) /\
        (ERROR, "Rollback Failed") ∈ entries) \/
     (exists pid,
        success resp = false /\ response_projectId resp = Some pid /\
        is_Some (jobs ns' !! pid) /\ None ∈ default [] (tasks requestBody) /\
        (ERROR, "Rollback Failed") ∉ entries)).
Proof.
  unfold post, post_try.
  destruct (project requestBody) as [projectData|]; cbn [fst snd].
  2:{ exists [(ERROR, "Composite Create Failed")]. split; [done|].
      left. split; [done|]. split; [done|]. log_lines. }
  destruct (negb (is_truthy (customerId projectData))); cbn [fst snd].
  { exists [(ERROR, "Composite Create Failed")]. split; [done|].
    left. split; [done|]. split; [done|]. log_lines. }
  unfold createProject. destruct (job_save R) as [e|]; cbn [fst snd].
  { exists [(AUDIT, "Starting Composite Create"); (ERROR, "Composite Create Failed")].
    split; [cbn; by rewrite <- app_assoc|].
    left. split; [done|]. split; [done|]. log_lines. }
  set (pid := next_id (log AUDIT "Starting Composite Create" ns)).
  set (ns1 := log AUDIT "Project Created" _).
  assert (is_Some (jobs ns1 !! pid)) as Hjob.
  { subst ns1. cbn. rewrite lookup_insert_eq. by eexists. }
  assert (execution_log ns1 =
          (execution_log ns ++ [(AUDIT, "Starting Composite Create");
                                (AUDIT, "Project Created")])%list) as Hlog1.
  { subst ns1. cbn. by rewrite <- app_assoc. }
  destruct (create_tasks_spec R pid (default [] (tasks requestBody)) 0 [] ns1)
    as (entries & Hlog & Hcases).
  { intros tid Htid. by apply elem_of_nil in Htid. }
  destruct (create_tasks R (default [] (tasks requestBody)) 0 pid [] ns1)
    as [[[e|] created] ns2]; cbn [fst snd] in *.
  - exists ((AUDIT, "Starting Composite Create") :: (AUDIT, "Project Created")
            :: entries ++ [(ERROR, "Composite Create Failed")])%list.
    split.
    { cbn. rewrite Hlog, Hlog1. by rewrite <- !app_assoc. }
    destruct Hcases as [_ [(Hdel & Hjobs & Hrf)|[(Hdel & Hjobs & Hrf)
                                               |(Hnull & Hjobs & Hrf)]]].
    + right; right; left. exists pid. split; [done|]. split; [done|].
      split; [cbn; by rewrite Hjobs, lookup_delete_eq|]. split; [done|]. log_lines.
    + right; right; right; left. exists pid. split; [done|]. split; [done|].
      split; [cbn; by rewrite Hjobs|]. split; [done|]. log_lines.
    + right; right; right; right. exists pid. split; [done|]. split; [done|].
      split; [cbn; by rewrite Hjobs|]. split; [done|]. log_lines.
  - exists ((AUDIT, "Starting Composite Create") :: (AUDIT, "Project Created")
            :: entries)%list.
    split.
    { rewrite Hlog, Hlog1. by rewrite <- !app_assoc. }
    destruct Hcases as (Hjobs & Hrf & Hlen & Hall).
    right; left. eexists pid, _. split; [done|]. split; [done|].
    cbn. split; [done|]. split; [by rewrite Hjobs|].
    split; [log_lines|]. split; [by rewrite Hlen|done].
Qed.

(** The "Rollback Failed" line is logged exactly when a task was refused
    after the project was created and [record.delete] threw. *)
Lemma rollback_failed_delete_threw R requestBody ns :
  rollback_failed ns (post R requestBody ns).2 ->
  is_Some (job_delete R) /\ success (post R requestBody ns).1 = false /\
  is_Some (response_projectId (post R requestBody ns).1).
Proof.
  destruct (post_cases R requestBody ns) as (entries & Hlog & Hcases).
  unfold rollback_failed, new_log_entries. cbv zeta in *.
  rewrite Hlog, drop_app_length. intros Hin.
  destruct Hcases as [(_ & _ & Hrf)
                     |[(pid & d & _ & _ & _ & _ & Hrf & _)
                     |[(pid & _ & _ & _ & _ & Hrf)
                     |[(pid & Hs & Hp & _ & Hdel & _)
                      |(pid & _ & _ & _ & _ & Hrf)]]]]; try done.
Qed.

(** C1.  A request whose second task is [null], on an account that accepts
    every create and every delete.  The first task is saved; the second
    makes [createProjectTask] throw, and the [catch] block throw again at
    [task.name], before [record.delete]: the log has no rollback line.  The
    response reports a failure, and the project stays among the job records
    with one of its two tasks, although the compensating delete did not
    fail: it was never attempted. *)
Theorem null_task_skips_rollback :
  let requestBody :=
    {| project := Some {| project_name := Some "Rollout";
                          project_entityid := Some "PRJ-001";
                          customerId := customer_number 3161 |};
       tasks := Some [ Some {| task_name := Some "Discovery";
                               task_status := Some "Not Started" |};
                       None ] |} in
  let accepts_all :=
    {| job_save := None; task_save := fun _ => None; job_delete := None;
       clock := 0%Z;
       null_name_message := "Cannot read property 'name' of null" |} in
  let ns := {| jobs := ∅; projecttasks := ∅; next_id := 1000%Z;
               execution_log := [] |} in
  let resp := (post accepts_all requestBody ns).1 in
  let ns' := (post accepts_all requestBody ns).2 in
  resp =
    {| success := false;
       data := None;
       error :=
         Some {| code := "TypeError";
                 error_message := "Cannot read property 'name' of null";
                 details := {| details_projectId := Some 1000%Z;
                               partialTasksCreated := 1;
                               totalTasksRequested := 2 |} |} |} /\
  parent_exists resp ns' /\
  jobs ns' !! 1000%Z =
    Some {| entityid := "PRJ-001"; companyname := Some "Rollout";
            parent := Some 3161%Z |} /\
  projecttasks ns' =
    {[ 1001%Z := {| company := 1000%Z; title := "Discovery";
                    status := Some (Str "NOTSTART") |} ]} /\
  job_delete accepts_all = None /\
  ~ rollback_failed ns ns' /\
  new_log_entries ns ns' =
    [(AUDIT, "Starting Composite Create"); (AUDIT, "Project Created");
     (AUDIT, "Task Created"); (ERROR, "Composite Create Failed")].
Proof.
  intros requestBody accepts_all ns resp ns'.
  split; [reflexivity|]. split.
  { exists 1000%Z. split; [reflexivity|]. by eexists. }
  split; [reflexivity|]. split; [reflexivity|]. split; [reflexivity|].
  split; [|reflexivity].
  unfold rollback_failed. apply (proj1 (bool_decide_eq_false _)). reflexivity.
Qed.

(** The response does not depend on what the compensating delete did. *)
Lemma create_tasks_ignores_delete R R' pid rest : forall i created ns ns',
  (forall k, task_save R k = task_save R' k) ->
  null_name_message R = null_name_message R' ->
  next_id ns = next_id ns' ->
  (create_tasks R rest i pid created ns).1 =
  (create_tasks R' rest i pid created ns').1.
Proof.
  induction rest as [|task rest IH]; intros i created ns ns' Hsave Hmsg Hid;
    cbn [create_tasks]; [done|].
  unfold createProjectTask. rewrite <- Hsave.
  destruct (task_save R i) as [e|].
  - unfold rollback. destruct task as [task|]; [|unfold TypeError; by rewrite Hmsg].
    by destruct (record_delete R _ _), (record_delete R' _ _).
  - destruct task as [task|].
    + rewrite Hid. by apply IH.
    + unfold rollback, TypeError. by rewrite Hmsg.
Qed.

Lemma post_ignores_delete R R' requestBody ns :
  job_save R = job_save R' ->
  (forall k, task_save R k = task_save R' k) ->
  clock R = clock R' ->
  null_name_message R = null_name_message R' ->
  (post R requestBody ns).1 = (post R' requestBody ns).1.
Proof.
  intros Hjob Hsave Hclock Hmsg. unfold post, post_try.
  destruct (project requestBody) as [projectData|]; [|done].
  destruct (negb _); [done|].
  unfold createProject. rewrite <- Hjob, <- Hclock.
  destruct (job_save R) as [e|]; [done|].
  match goal with
  | |- context [create_tasks R ?rest ?i ?pid ?c ?n] =>
      pose proof (create_tasks_ignores_delete R R' pid rest i c n n Hsave Hmsg
                    eq_refl) as H;
      destruct (create_tasks R rest i pid c n) as [[thrown created] ns1];
      destruct (create_tasks R' rest i pid c n) as [[thrown' created'] ns1']
  end.
  cbn [fst] in H. injection H as <- <-. by destruct thrown.
Qed.

(** C2.  The second task is refused and the compensating delete throws.  The
    response is the one a successful rollback produces: its message says the
    project has been rolled back, while the project is still among the job
    records and only the execution log tells. *)
Theorem rollback_failure_not_reported :
  let requestBody :=
    {| project := Some {| project_name := Some "Rollout";
                          project_entityid := Some "PRJ-001";
                          customerId := customer_number 3161 |};
       tasks := Some [ Some {| task_name := Some "Discovery";
                               task_status := Some "Not Started" |};
                       Some {| task_name := Some "Implementation";
                               task_status := Some "In Progress" |} ] |} in
  let refused :=
    {| name := Some "INVALID_FLD_VALUE"; message := Some "Invalid service item" |} in
  let locked :=
    {| name := Some "RCRD_LOCKED"; message := Some "Record is locked" |} in
  let second_refused k := match k with 1 => Some refused | _ => None end in
  let delete_throws :=
    {| job_save := None; task_save := second_refused; job_delete := Some locked;
       clock := 0%Z;
       null_name_message := "Cannot read property 'name' of null" |} in
  let delete_works :=
    {| job_save := None; task_save := second_refused; job_delete := None;
       clock := 0%Z;
       null_name_message := "Cannot read property 'name' of null" |} in
  let ns := {| jobs := ∅; projecttasks := ∅; next_id := 1000%Z;
               execution_log := [] |} in
  (post delete_throws requestBody ns).1 = (post delete_works requestBody ns).1 /\
  is_Some (jobs (post delete_throws requestBody ns).2 !! 1000%Z) /\
  jobs (post delete_works requestBody ns).2 !! 1000%Z = None /\
  rollback_failed ns (post delete_throws requestBody ns).2 /\
  error (post delete_throws requestBody ns).1 =
    Some {| code := "TASK_CREATE_FAILED";
            error_message :=
              "Failed to create task " ++ dquote ++ "Implementation" ++ dquote ++
              " (index 1): Invalid service item. " ++
              "Project 1000 has been rolled back.";
            details := {| details_projectId := Some 1000%Z;
                          partialTasksCreated := 1;
                          totalTasksRequested := 2 |} |}.
Proof.
  intros requestBody refused locked second_refused delete_throws delete_works ns.
  split; [by apply post_ignores_delete|].
  split; [by eexists|]. split; [reflexivity|].
  split; [|reflexivity].
  unfold rollback_failed. apply (bool_decide_unpack _). reflexivity.
Qed.

End RestletProofs.

(** * Further properties of the retrying executor *)

Module ConcurrencyExtra.
Import Concurrency ConcurrencyProofs.

Section Trace.

Variable requestFn : request_fn.
Variable random : nat -> float.
Variable m : nat.

Local Abbreviation loop := (attempts requestFn random m).

(** Every invocation the loop makes before its last one failed with a
    retryable error, and a returned result is the one of the last
    invocation. *)
Lemma attempts_trace remaining a le st c sl :
  let r := loop remaining a le st c sl in
  (forall j, c <= j -> j + 1 < r.1.2 -> retryable_failure (requestFn j) = true) /\
  (forall result, r.1.1.1 = returned result ->
     c < r.1.2 /\ try_request (requestFn (r.1.2 - 1)) = passed result).
Proof.
  revert a le c sl.
  induction remaining as [|rem IH]; intros a le c sl; simpl.
  - split; [intros j ? ?; lia|done].
  - destruct (try_request (requestFn c)) as [res|e|te] eqn:E; simpl;
      [|
      |split; [intros j ? ?; lia|done]].
    + split; [intros j ? ?; lia|].
      intros result [= <-]. rewrite Nat.sub_0_r. split; [lia|done].
    + destruct (_ && _) eqn:Hcond; simpl.
      * apply andb_true_iff in Hcond as [_ Hretry].
        destruct (IH (S a) (Some e) (S c)
                    (sl ++ [getRetryDelay a (random (length sl))])%list)
          as [Hpre Hres].
        split.
        -- intros j Hc Hj. destruct (decide (j = c)) as [->|Hne].
           ++ unfold retryable_failure. by rewrite E.
           ++ apply Hpre; lia.
        -- intros result Hr. destruct (Hres result Hr) as [Hlt Hlast].
           split; [lia|done].
      * split; [intros j ? ?; lia|done].
Qed.

(** The loop sleeps once between two consecutive invocations, for the delay
    of the attempt that just failed. *)
Lemma attempts_sleeps remaining : forall a le st c sl,
  a + remaining = S m ->
  let r := loop remaining a le st c sl in
  length r.2 = length sl + (r.1.2 - c - 1) /\
  (forall k, k + 1 < r.1.2 - c ->
     r.2 !! (length sl + k) =
       Some (getRetryDelay (a + k) (random (length sl + k)))) /\
  (forall k, k < length sl -> r.2 !! k = sl !! k).
Proof.
  induction remaining as [|rem IH]; intros a le st c sl Hinv; simpl.
  { split; [lia|]. split; [intros k ?; lia|done]. }
  destruct (try_request (requestFn c)) as [res|e|te]; simpl;
    [|
    |split; [lia|]; split; [intros k ?; lia|done]].
  - split; [lia|]. split; [intros k ?; lia|done].
  - destruct (a <? m)%nat eqn:Ha; simpl.
    + destruct (isRetryableError e (response e)); simpl.
      * apply Nat.ltb_lt in Ha.
        destruct (IH (S a) (Some e) st (S c)
                    (sl ++ [getRetryDelay a (random (length sl))])%list
                    ltac:(lia)) as (Hlen & Hnew & Hold).
        pose proof (attempts_calls requestFn random m rem (S a) (Some e) st (S c)
                      (sl ++ [getRetryDelay a (random (length sl))])%list)
          as [Hcalls|[-> _]]; [|exfalso; lia].
        rewrite length_app in Hlen, Hnew, Hold. simpl in Hlen, Hnew, Hold.
        split; [lia|]. split.
        -- intros [|k] Hk.
           ++ rewrite !Nat.add_0_r. rewrite Hold by lia.
              by rewrite lookup_app_r, Nat.sub_diag by lia.
           ++ replace (length sl + S k) with (length sl + 1 + k) by lia.
              replace (a + S k) with (S a + k) by lia.
              apply Hnew. lia.
        -- intros k Hk. rewrite Hold by lia. by rewrite lookup_app_l.
      * split; [lia|]. split; [intros k ?; lia|done].
    + split; [lia|]. split; [intros k ?; lia|done].
Qed.

End Trace.

(** *** One run *)

(** X1.  Every run adds one to [totalRequests] and leaves [queuedRequests]
    where it was.  A run that returns a result adds one to
    [successfulRequests], and a run that throws after the loop adds one to
    [failedRequests]; both give [activeRequests] back.  A run whose last
    invocation was rejected with a nullish value is left from inside the
    [catch] block: it counts neither as a success nor as a failure, and
    [activeRequests] stays one higher than before. *)
Theorem run_counters requestFn random m st :
  let r := executeWithConcurrencyControl requestFn random m st in
  totalRequests (stats_after r) = (totalRequests st + 1)%Z /\
  queuedRequests (stats_after r) = queuedRequests st /\
  match outcome r, requestFn (invocations r - 1) with
  | inl _, _ =>
      successfulRequests (stats_after r) = (successfulRequests st + 1)%Z /\
      failedRequests (stats_after r) = failedRequests st /\
      activeRequests (stats_after r) = activeRequests st
  | inr err, RejectsNullish type_error =>
      err = type_error /\
      successfulRequests (stats_after r) = successfulRequests st /\
      failedRequests (stats_after r) = failedRequests st /\
      activeRequests (stats_after r) = (activeRequests st + 1)%Z
  | inr _, _ =>
      successfulRequests (stats_after r) = successfulRequests st /\
      failedRequests (stats_after r) = (failedRequests st + 1)%Z /\
      activeRequests (stats_after r) = activeRequests st
  end.
Proof.
  intros r. subst r.
  destruct (run_unfold requestFn random m st) as (Hinv & _ & Hout). cbv zeta in Hout.
  pose proof (attempts_stats requestFn random m (S m) 0 None
                (on_admit (on_submit st)) 0 []) as Hst.
  pose proof (attempts_last_error requestFn random m (S m) 0 None
                (on_admit (on_submit st)) 0 [] ltac:(lia)) as Hlast.
  cbv zeta in Hst, Hlast. rewrite <- Hinv in Hlast.
  destruct (_.1.1.1) as [res|le|te].
  - destruct Hout as [-> ->]. destruct Hst as (k & -> & _). simpl.
    repeat split; lia.
  - destruct Hout as [-> ->]. rewrite Hst.
    destruct Hlast as (e & _ & _ & He). unfold try_request in He.
    destruct (requestFn _) as [r0|e0|te]; [| |done]; simpl; repeat split; lia.
  - destruct Hout as [-> ->]. rewrite Hst.
    destruct Hlast as (_ & He). unfold try_request in He.
    destruct (requestFn _) as [r0|e0|te']; [by case_bool_decide|done|].
    injection He as ->. simpl. repeat split; lia.
Qed.

(** An operation that rejects with [undefined] at its first attempt. *)
Example run_counters_nullish :
  let type_error :=
    new_Error "Cannot read properties of undefined (reading 'response')" in
  let r := executeWithConcurrencyControl (fun _ => RejectsNullish type_error)
             (fun _ => 0%float) 3 resetStats in
  outcome r = inr type_error /\ invocations r = 1 /\
  activeRequests (stats_after r) = 1%Z /\ failedRequests (stats_after r) = 0%Z.
Proof. repeat split. Qed.

(** X2.  A run invokes the operation at least once; every invocation before
    the last one failed with a retryable error; and a result it returns is
    the value the last invocation resolved to, which does not carry the
    rate-limit code. *)
Theorem run_trace requestFn random m st :
  let r := executeWithConcurrencyControl requestFn random m st in
  1 <= invocations r /\
  (forall j, j + 1 < invocations r -> retryable_failure (requestFn j) = true) /\
  (forall result,
      outcome r = inl result ->
      requestFn (invocations r - 1) = Resolves result /\
      result_error_code result <> Some "SSS_REQUEST_LIMIT_EXCEEDED").
Proof.
  intros r. subst r.
  destruct (run_unfold requestFn random m st) as (Hinv & _ & Hout). cbv zeta in *.
  destruct (attempts_trace requestFn random m (S m) 0 None
              (on_admit (on_submit st)) 0 []) as [Hpre Hres].
  rewrite Hinv. split; [|split].
  - destruct (attempts_calls requestFn random m (S m) 0 None
                (on_admit (on_submit st)) 0 []) as [H|[H _]]; lia.
  - intros j Hj. apply Hpre; lia.
  - intros result Hr. destruct (_.1.1.1) as [res|le|te].
    + destruct Hout as [Ho _]. rewrite Ho in Hr. injection Hr as ->.
      destruct (Hres result eq_refl) as [_ Hlast].
      unfold try_request in Hlast.
      destruct (requestFn _) as [r0|e|te]; [|done|done].
      case_bool_decide as Hcode; [done|]. by injection Hlast as ->.
    + destruct Hout as [Ho _]. by rewrite Ho in Hr.
    + destruct Hout as [Ho _]. by rewrite Ho in Hr.
Qed.

(** An operation refused twice with a 503 before it answers. *)
Lemma run_trace_witness :
  let unavailable :=
    {| code := None; message := Some "Service Unavailable";
       response := Some {| status := 503 |} |} in
  let answer := {| payload := "rows"; result_error_code := None |} in
  let flaky n := match n with 0 | 1 => Rejects unavailable | _ => Resolves answer end in
  let r := executeWithConcurrencyControl flaky (fun _ => 0%float) 3 resetStats in
  retryable_failure (flaky 1) = true /\
  flaky (invocations r - 1) = Resolves answer.
Proof.
  intros unavailable answer flaky r.
  destruct (run_trace flaky (fun _ => 0%float) 3 resetStats) as (_ & Hpre & Hres).
  split.
  - apply Hpre. vm_compute. lia.
  - apply (Hres answer). reflexivity.
Defined.

(** X3.  A run sleeps once between two consecutive invocations and nowhere
    else, and the k-th sleep lasts [getRetryDelay(k)] with the k-th jitter
    draw. *)
Theorem run_sleeps requestFn random m st :
  let r := executeWithConcurrencyControl requestFn random m st in
  length (sleeps r) = invocations r - 1 /\
  forall k, k + 1 < invocations r ->
    sleeps r !! k = Some (getRetryDelay k (random k)).
Proof.
  intros r. subst r.
  destruct (run_unfold requestFn random m st) as (Hinv & Hsl & _). cbv zeta in *.
  destruct (attempts_sleeps requestFn random m (S m) 0 None
              (on_admit (on_submit st)) 0 [] ltac:(lia)) as (Hlen & Hnew & _).
  rewrite Hinv, Hsl. simpl in *. split; [lia|].
  intros k Hk. apply Hnew. lia.
Qed.

Lemma run_sleeps_witness :
  let unavailable :=
    {| code := None; message := Some "Service Unavailable";
       response := Some {| status := 503 |} |} in
  let answer := {| payload := "rows"; result_error_code := None |} in
  let flaky n := match n with 0 | 1 => Rejects unavailable | _ => Resolves answer end in
  let r := executeWithConcurrencyControl flaky (fun _ => 0.5%float) 3 resetStats in
  sleeps r !! 1 = Some (getRetryDelay 1 0.5).
Proof.
  intros unavailable answer flaky r.
  apply (proj2 (run_sleeps flaky (fun _ => 0.5%float) 3 resetStats) 1).
  vm_compute. lia.
Defined.

(** *** The backoff schedule *)



(** *** Batches with [failFast] and with a progress callback *)

Section BatchModes.

Variable failFast : bool.
Variable onProgress : bool.
Variable random : nat -> float.

Local Abbreviation alone fn :=
  (executeWithConcurrencyControl fn random (maxRetries CONFIG) resetStats).

(** The error a batch item reports to [onProgress]. *)
Local Abbreviation item_error fn :=
  (match outcome (alone fn) with inl _ => None | inr e => Some e end).

(** One batch promise, in terms of the run of its operation alone. *)
Lemma batch_promise_alone n fn index w :
  batch_promise failFast onProgress random n fn index w =
  (match outcome (alone fn) with
   | inl d => fulfilled (ItemSucceeded d index)
   | inr e =>
       if failFast then rejected e
       else fulfilled (ItemFailed "BATCH_ITEM_FAILED" (message e) index)
   end,
   report onProgress n index (item_error fn) w
     (stats_after (executeWithConcurrencyControl fn random (maxRetries CONFIG)
                     (batch_stats w)))).
Proof.
  unfold batch_promise.
  rewrite (outcome_stats_irrelevant fn random (maxRetries CONFIG)
             (batch_stats w) resetStats).
  by destruct (outcome _).
Qed.

(** The promises of a batch, one per operation, each settled by its own
    operation. *)
Lemma batch_promises_items n fns : forall index0 w,
  let ps := (batch_promises failFast onProgress random n fns index0 w).1 in
  let w' := (batch_promises failFast onProgress random n fns index0 w).2 in
  length ps = length fns /\
  batch_completed w' = batch_completed w + length fns /\
  forall i fn, fns !! i = Some fn ->
    ps !! i = Some
      match outcome (alone fn) with
      | inl d => fulfilled (ItemSucceeded d (index0 + i))
      | inr e =>
          if failFast then rejected e
          else fulfilled (ItemFailed "BATCH_ITEM_FAILED" (message e) (index0 + i))
      end.
Proof.
  induction fns as [|fn rest IH]; intros index0 w; cbn [batch_promises].
  - split; [done|]. split; [simpl; lia|]. by intros i fn.
  - rewrite batch_promise_alone.
    specialize (IH (S index0)
                  (report onProgress n index0 (item_error fn) w
                     (stats_after (executeWithConcurrencyControl fn random
                                     (maxRetries CONFIG) (batch_stats w))))).
    cbv zeta in IH.
    destruct (batch_promises _ _ _ _ _ _ _) as [ps w2]. cbn [fst snd] in *.
    destruct IH as (Hlen & Hdone & Hitems).
    split; [simpl; by rewrite Hlen|]. split; [simpl in *; lia|].
    intros [|i] fn' Hfn; simpl in *.
    + injection Hfn as <-. by rewrite Nat.add_0_r.
    + rewrite (Hitems i fn' Hfn). by rewrite Nat.add_succ_r.
Qed.

(** The calls made to [onProgress]: one per operation, appended in the
    order of completion. *)
Lemma batch_promises_progress n fns : forall index0 w,
  let w' := (batch_promises failFast onProgress random n fns index0 w).2 in
  if onProgress
  then
    length (batch_progress w') = length (batch_progress w) + length fns /\
    (forall k, k < length (batch_progress w) ->
       batch_progress w' !! k = batch_progress w !! k) /\
    (forall k fn, fns !! k = Some fn ->
       batch_progress w' !! (length (batch_progress w) + k) =
         Some {| completed := batch_completed w + k + 1; total := n;
                 progress_index := index0 + k;
                 progress_error := item_error fn |})
  else batch_progress w' = batch_progress w.
Proof.
  induction fns as [|fn rest IH]; intros index0 w; cbn [batch_promises].
  - destruct onProgress; [|done]. simpl.
    split; [lia|]. split; [done|]. by intros k fn.
  - rewrite batch_promise_alone.
    specialize (IH (S index0)
                  (report onProgress n index0 (item_error fn) w
                     (stats_after (executeWithConcurrencyControl fn random
                                     (maxRetries CONFIG) (batch_stats w))))).
    cbv zeta in IH.
    destruct (batch_promises _ _ _ _ _ _ _) as [ps w2]. cbn [fst snd] in *.
    unfold report in IH. cbn [batch_progress batch_completed] in IH.
    destruct onProgress; [|done].
    rewrite length_app in IH. cbn [length] in IH.
    destruct IH as (Hlen & Hold & Hnew).
    split; [simpl; lia|]. split.
    + intros k Hk. rewrite Hold by lia. by rewrite lookup_app_l.
    + intros [|k] fn' Hfn; simpl in Hfn.
      * injection Hfn as <-. rewrite !Nat.add_0_r.
        rewrite Hold by lia. rewrite lookup_app_r, Nat.sub_diag by lia.
        simpl. do 2 f_equal. lia.
      * replace (length (batch_progress w) + S k)
          with (length (batch_progress w) + 1 + k) by lia.
        rewrite (Hnew k fn' Hfn). do 2 f_equal; lia.
Qed.

End BatchModes.

(** [Promise.all] resolves to the values of promises that are all fulfilled,
    and otherwise rejects with the reason of a rejected one. *)
Lemma promise_all_spec race ps :
  match promise_all race ps with
  | inl vs => ps = map fulfilled vs
  | inr e => exists i, ps !! i = Some (rejected e)
  end.
Proof.
  unfold promise_all.
  destruct (rejections ps) as [|e es] eqn:Hrej.
  - clear race. unfold rejections, fulfilments in *.
    induction ps as [|[v|e] ps IH]; cbn in *; [done| |done].
    by rewrite <- IH.
  - assert (race `mod` length (e :: es) < length (e :: es)) as Hlt
        by (apply Nat.mod_upper_bound; done).
    destruct (lookup_lt_is_Some_2 _ _ Hlt) as [e' He']. rewrite He'. simpl.
    assert (e' ∈ rejections ps) as Hin.
    { rewrite Hrej. by eapply list_elem_of_lookup_2. }
    apply list_elem_of_omap in Hin as (p & Hp & Hpe).
    destruct p as [v|e0]; [done|]. injection Hpe as ->.
    by apply list_elem_of_lookup_1.
Qed.

(** X5.  With [failFast] a batch still runs every operation.  It resolves
    to the N success objects, in index order, when every operation
    succeeds, and otherwise rejects with the error of an operation that
    failed; it never produces a per-item failure object. *)
Theorem fail_fast_batch onProgress random race (requestFns : list request_fn) st :
  let res := executeBatch true onProgress random race requestFns st in
  batch_completed res.2 = length requestFns /\
  match res.1 with
  | AllValues values =>
      length values = length requestFns /\
      forall index fn,
        requestFns !! index = Some fn ->
        exists d,
          outcome (executeWithConcurrencyControl fn random (maxRetries CONFIG)
                     resetStats) = inl d /\
          values !! index = Some (ItemSucceeded d index)
  | BatchRejected e =>
      exists index fn,
        requestFns !! index = Some fn /\
        outcome (executeWithConcurrencyControl fn random (maxRetries CONFIG)
                   resetStats) = inr e
  | AllSettled _ => False
  end.
Proof.
  intros res. subst res. unfold executeBatch.
  pose proof (batch_promises_items true onProgress random (length requestFns)
                requestFns 0
                {| batch_stats := st; batch_completed := 0; batch_progress := [] |})
    as H.
  cbv zeta in H.
  destruct (batch_promises _ _ _ _ _ _ _) as [ps w]. cbn [fst snd] in *.
  destruct H as (Hlen & Hdone & Hitems). simpl in Hdone.
  pose proof (promise_all_spec race ps) as Hall.
  destruct (promise_all race ps) as [vs|e]; cbn [fst snd].
  - split; [done|]. subst ps. rewrite length_map in Hlen. split; [done|].
    intros index fn Hfn. specialize (Hitems index fn Hfn). simpl in Hitems.
    rewrite list_lookup_fmap in Hitems.
    destruct (outcome _) as [d|e].
    + exists d. split; [done|].
      destruct (vs !! index) as [v|]; [|done]. simpl in Hitems. congruence.
    + destruct (vs !! index); done.
  - split; [done|]. destruct Hall as [i Hi].
    assert (i < length requestFns) as Hlt.
    { rewrite <- Hlen. by apply lookup_lt_Some in Hi. }
    destruct (lookup_lt_is_Some_2 requestFns i Hlt) as [fn Hfn].
    exists i, fn. split; [done|].
    specialize (Hitems i fn Hfn). simpl in Hitems. rewrite Hi in Hitems.
    destruct (outcome _) as [d|e']; [done|]. congruence.
Qed.

(** Two operations that answer, and the same two with a failing one in
    between. *)
Lemma fail_fast_batch_witness :
  let bad_request :=
    {| code := None; message := Some "Invalid field value";
       response := Some {| status := 400 |} |} in
  let answer := {| payload := "rows"; result_error_code := None |} in
  let good : request_fn := fun _ => Resolves answer in
  let bad : request_fn := fun _ => Rejects bad_request in
  (executeBatch true false (fun _ => 0%float) 0 [good; good] resetStats).1 =
    AllValues [ItemSucceeded answer 0; ItemSucceeded answer 1] /\
  (executeBatch true false (fun _ => 0%float) 0 [good; bad; good] resetStats).1 =
    BatchRejected
      (new_Error "Request failed after 4 attempts: Invalid field value") /\
  batch_completed
    (executeBatch true false (fun _ => 0%float) 0 [good; bad; good] resetStats).2 = 3.
Proof.
  intros bad_request answer good bad.
  pose proof (fail_fast_batch false (fun _ => 0%float) 0 [good; good] resetStats) as H1.
  pose proof (fail_fast_batch false (fun _ => 0%float) 0 [good; bad; good] resetStats)
    as H2.
  cbv zeta in H1, H2.
  split; [reflexivity|]. split; [reflexivity|]. exact (proj1 H2).
Defined.

(** X6.  With an [onProgress] callback a batch of N operations calls it N
    times, in either mode: the k-th call reports [completed = k + 1] and
    [total = N], for an operation of the batch, with that operation's error
    when it failed and none when it succeeded.  Without a callback nothing
    is reported. *)
Theorem batch_progress_events failFast random race
    (requestFns : list request_fn) st :
  let reported :=
    batch_progress (executeBatch failFast true random race requestFns st).2 in
  length reported = length requestFns /\
  (forall k ev,
      reported !! k = Some ev ->
      completed ev = k + 1 /\ total ev = length requestFns /\
      exists fn,
        requestFns !! progress_index ev = Some fn /\
        progress_error ev =
          match outcome (executeWithConcurrencyControl fn random
                           (maxRetries CONFIG) resetStats) with
          | inl _ => None
          | inr e => Some e
          end) /\
  batch_progress (executeBatch failFast false random race requestFns st).2 = [].
Proof.
  intros reported. subst reported. unfold executeBatch.
  pose proof (batch_promises_progress failFast true random (length requestFns)
                requestFns 0
                {| batch_stats := st; batch_completed := 0; batch_progress := [] |})
    as Hon.
  pose proof (batch_promises_progress failFast false random (length requestFns)
                requestFns 0
                {| batch_stats := st; batch_completed := 0; batch_progress := [] |})
    as Hoff.
  cbv zeta in Hon, Hoff. simpl in Hon, Hoff.
  destruct (batch_promises failFast true _ _ _ _ _) as [ps w].
  destruct (batch_promises failFast false _ _ _ _ _) as [ps' w'].
  cbn [fst snd] in *. destruct Hon as (Hlen & _ & Hnew).
  assert (forall (b : bool) (x : batch_result * batch_state) y z,
             (if b then match y with inl vs => (AllValues vs, z)
                                   | inr e => (BatchRejected e, z) end
              else x).2 = (if b then z else x.2)) as Hsnd.
  { intros [] x [vs|e] z; done. }
  rewrite !Hsnd. simpl. replace (if failFast then w else w) with w by by destruct failFast.
  replace (if failFast then w' else w') with w' by by destruct failFast.
  split; [done|]. split; [|done].
  intros k ev Hev.
  assert (k < length requestFns) as Hlt.
  { rewrite <- Hlen. by apply lookup_lt_Some in Hev. }
  destruct (lookup_lt_is_Some_2 requestFns k Hlt) as [fn Hfn].
  rewrite (Hnew k fn Hfn) in Hev. injection Hev as <-. simpl.
  split; [lia|]. split; [done|]. by exists fn.
Qed.

Lemma batch_progress_events_witness :
  let bad_request :=
    {| code := None; message := Some "Invalid field value";
       response := Some {| status := 400 |} |} in
  let answer := {| payload := "rows"; result_error_code := None |} in
  let fns : list request_fn :=
    [fun _ => Resolves answer; fun _ => Rejects bad_request] in
  let second :=
    {| completed := 2; total := 2; progress_index := 1;
       progress_error :=
         Some (new_Error "Request failed after 4 attempts: Invalid field value") |} in
  completed second = 1 + 1 /\ total second = length fns /\
  exists fn,
    fns !! progress_index second = Some fn /\
    progress_error second =
      match outcome (executeWithConcurrencyControl fn (fun _ => 0%float)
                       (maxRetries CONFIG) resetStats) with
      | inl _ => None
      | inr e => Some e
      end.
Proof.
  intros bad_request answer fns second.
  apply (proj1 (proj2 (batch_progress_events false (fun _ => 0%float) 0 fns
                         resetStats))
           1 second).
  reflexivity.
Defined.

(** *** The error of a failing run *)

(** X7.  The error a failing run throws depends on what its last invocation
    was rejected with.  After an error object (or a result carrying the
    rate-limit code) it is a fresh [Error]: its message is "Request failed
    after <maxRetries + 1> attempts: " followed by the message of that
    error ("undefined" when it has none), and it carries neither the [code]
    nor the [response] of that error.  After a nullish rejection it is the
    [TypeError] raised inside the [catch] block. *)
Theorem failure_wraps_last_error requestFn random m st err :
  let r := executeWithConcurrencyControl requestFn random m st in
  outcome r = inr err ->
  match try_request (requestFn (invocations r - 1)) with
  | passed _ => False
  | caught e =>
      code err = None /\ response err = None /\
      message err =
        Some ("Request failed after " ++ string_of_nat (m + 1) ++ " attempts: "
              ++ template (message e))
  | caught_nullish type_error => err = type_error
  end.
Proof.
  intros r. subst r.
  destruct (run_unfold requestFn random m st) as (Hinv & _ & Hout). cbv zeta in Hout.
  pose proof (attempts_last_error requestFn random m (S m) 0 None
                (on_admit (on_submit st)) 0 [] ltac:(lia)) as Hlast.
  cbv zeta in Hlast. rewrite <- Hinv in Hlast.
  destruct (_.1.1.1) as [res|le|te].
  - destruct Hout as [-> _]. done.
  - destruct Hout as [-> _]. intros [= <-].
    destruct Hlast as (e & -> & _ & ->). done.
  - destruct Hout as [-> _]. intros [= <-].
    destruct Hlast as (_ & ->). done.
Qed.

Lemma failure_wraps_last_error_witness :
  let throttled :=
    {| code := Some "ETIMEDOUT"; message := None;
       response := Some {| status := 429 |} |} in
  let r := executeWithConcurrencyControl (fun _ => Rejects throttled)
             (fun _ => 0%float) 1 resetStats in
  let err := new_Error "Request failed after 2 attempts: undefined" in
  code err = None /\ response err = None /\
  message err =
    Some ("Request failed after " ++ string_of_nat (1 + 1) ++ " attempts: "
          ++ template (message throttled)).
Proof.
  intros throttled r err.
  apply (failure_wraps_last_error (fun _ => Rejects throttled) (fun _ => 0%float) 1
           resetStats err).
  reflexivity.
Defined.

End ConcurrencyExtra.

(** * Further properties of the token module *)

Module OAuthExtra.
Import OAuth OAuthProofs.

Local Open Scope Z_scope.

(** [getOAuthConfig] succeeds exactly when the four variables are set and
    non-empty. *)
Lemma getOAuthConfig_inr env :
  (exists config, getOAuthConfig env = inr config) <->
  truthy_string (NETSUITE_ACCOUNT_ID env) &&
  truthy_string (NETSUITE_CLIENT_ID env) &&
  truthy_string (NETSUITE_CERT_ID env) &&
  truthy_string (NETSUITE_PRIVATE_KEY env) = true.
Proof.
  unfold getOAuthConfig. rewrite !filter_cons, filter_nil. cbn [snd].
  destruct (truthy_string (NETSUITE_ACCOUNT_ID env)),
    (truthy_string (NETSUITE_CLIENT_ID env)),
    (truthy_string (NETSUITE_CERT_ID env)),
    (truthy_string (NETSUITE_PRIVATE_KEY env)); simpl;
    (split; [by intros [? ?] | by eauto]).
Qed.

(** X8.  When one of the four configuration variables is missing or empty, a
    call that finds no fresh token fails with the "Missing OAuth M2M
    configuration" error before anything is signed or sent: no exchange is
    counted and the cache is untouched. *)
Theorem missing_configuration_fails_fast io s :
  truthy_string (NETSUITE_ACCOUNT_ID (env io)) &&
  truthy_string (NETSUITE_CLIENT_ID (env io)) &&
  truthy_string (NETSUITE_CERT_ID (env io)) &&
  truthy_string (NETSUITE_PRIVATE_KEY (env io)) = false ->
  (forall c, tokenCache s !! "access_token" = Some c ->
             fresh c (now io) = false) ->
  exists missing,
    (getAccessToken io s).1 =
      inl ("Missing OAuth M2M configuration: " ++ missing) /\
    (exchangeJWTForToken io).2 = 0%nat /\
    exchanges (getAccessToken io s).2 = exchanges s /\
    tokenCache (getAccessToken io s).2 = tokenCache s.
Proof.
  intros Hcfg Hmiss. rewrite (getAccessToken_miss io s Hmiss).
  unfold refresh, exchangeJWTForToken.
  destruct (getOAuthConfig (env io)) as [err|config] eqn:E.
  - simpl. unfold getOAuthConfig in E.
    destruct (0 <? _)%nat; [|done]. injection E as <-.
    eexists. split; [done|]. split; [done|]. split; [lia|done].
  - assert (exists config, getOAuthConfig (env io) = inr config) as H by eauto.
    apply getOAuthConfig_inr in H. congruence.
Qed.

Lemma missing_configuration_fails_fast_witness :
  let io :=
    {| env := {| NETSUITE_ACCOUNT_ID := Some "1234567";
                 NETSUITE_CLIENT_ID := None;
                 NETSUITE_CERT_ID := Some "cert";
                 NETSUITE_PRIVATE_KEY := Some EmptyString |};
       sign := fun _ => inr "assertion"; fetch := inl "unreachable";
       now := 1000; now_after_exchange := 1000 |} in
  let s := {| tokenCache := ∅; exchanges := 0 |} in
  exists missing,
    (getAccessToken io s).1 =
      inl ("Missing OAuth M2M configuration: " ++ missing) /\
    (exchangeJWTForToken io).2 = 0%nat /\
    exchanges (getAccessToken io s).2 = exchanges s /\
    tokenCache (getAccessToken io s).2 = tokenCache s.
Proof.
  intros io s. apply (missing_configuration_fails_fast io s).
  - reflexivity.
  - intros c Hc. unfold s in Hc. simpl in Hc. by rewrite lookup_empty in Hc.
Defined.

(** X9.  A call that returns a token without sending an exchange returned
    the cached token, whose expiry was more than 300000 ms ahead, and left
    the state as it was. *)
Theorem served_from_cache io s tok s' :
  getAccessToken io s = (inr tok, s') ->
  exchanges s' = exchanges s ->
  s' = s /\
  exists c e,
    tokenCache s !! "access_token" = Some c /\ token c = tok /\
    expiresAt c = Some e /\ now io + 300000 < e.
Proof.
  unfold getAccessToken.
  assert (refresh io s = (inr tok, s') -> exchanges s' = exchanges s -> False)
    as Hrefresh.
  { unfold refresh.
    destruct (exchangeJWTForToken io) as [[err|data] n] eqn:Hx; [done|].
    destruct (exchange_success io data n Hx) as [-> _].
    intros [= <- <-]. simpl. lia. }
  destruct (tokenCache s !! "access_token") as [c|] eqn:Hc.
  - destruct (fresh c (now io)) eqn:Hf.
    + intros [= <- <-] _. split; [done|].
      unfold fresh in Hf. destruct (expiresAt c) as [e|] eqn:He; [|done].
      exists c, e. split; [done|]. split; [done|]. split; [done|].
      by apply Z.ltb_lt.
    + intros H1 H2. by destruct (Hrefresh H1 H2).
  - intros H1 H2. by destruct (Hrefresh H1 H2).
Qed.

Lemma served_from_cache_witness :
  let c := {| token := "cached"; expiresAt := Some 5000000 |} in
  let s := {| tokenCache := {[ "access_token" := c ]}; exchanges := 1 |} in
  let io :=
    {| env := {| NETSUITE_ACCOUNT_ID := None; NETSUITE_CLIENT_ID := None;
                 NETSUITE_CERT_ID := None; NETSUITE_PRIVATE_KEY := None |};
       sign := fun _ => inl "no key"; fetch := inl "offline";
       now := 1000000; now_after_exchange := 1000000 |} in
  s = s /\
  exists c' e,
    tokenCache s !! "access_token" = Some c' /\ token c' = "cached" /\
    expiresAt c' = Some e /\ now io + 300000 < e.
Proof.
  intros c s io. apply (served_from_cache io s "cached" s); reflexivity.
Defined.

(** X10.  A token whose response carries no [expires_in], or one of at most
    300 seconds, is returned by the call that exchanged it but never served
    from the cache: every later call goes to the exchange again. *)
Theorem short_lived_token_never_cached io s data n :
  exchangeJWTForToken io = (inr data, n) ->
  (forall c, tokenCache s !! "access_token" = Some c ->
             fresh c (now io) = false) ->
  (getAccessToken io s).1 = inr (template (access_token data)) /\
  (expires_in data = None ->
   forall io2,
     getAccessToken io2 (getAccessToken io s).2 =
     refresh io2 (getAccessToken io s).2) /\
  (forall secs,
     expires_in data = Some secs -> secs <= 300 ->
     forall io2,
       now_after_exchange io <= now io2 ->
       getAccessToken io2 (getAccessToken io s).2 =
       refresh io2 (getAccessToken io s).2).
Proof.
  intros Hx Hmiss. rewrite (getAccessToken_miss io s Hmiss).
  assert (exists s1,
             refresh io s = (inr (template (access_token data)), s1) /\
             tokenCache s1 !! "access_token" =
               Some {| token := template (access_token data);
                       expiresAt :=
                         (fun secs => now_after_exchange io + secs * 1000) <$>
                         expires_in data |}) as (s1 & -> & Hs1).
  { unfold refresh. rewrite Hx. eexists. split; [done|]. simpl.
    by rewrite lookup_insert_eq. }
  cbn [fst snd]. split; [done|]. split.
  - intros Hnone io2. apply getAccessToken_miss.
    rewrite Hs1, Hnone. by intros c [= <-].
  - intros secs Hsome Hsecs io2 Hlater. apply getAccessToken_miss.
    rewrite Hs1, Hsome. intros c [= <-].
    unfold fresh. simpl. apply Z.ltb_ge. lia.
Qed.

Lemma short_lived_token_never_cached_witness :
  let data := {| access_token := Some "brief"; expires_in := Some 120 |} in
  let io t :=
    {| env := {| NETSUITE_ACCOUNT_ID := Some "1234567";
                 NETSUITE_CLIENT_ID := Some "client";
                 NETSUITE_CERT_ID := Some "cert";
                 NETSUITE_PRIVATE_KEY := Some "key" |};
       sign := fun _ => inr "assertion";
       fetch := inr {| ok := true; status := 200; text := "{}"; json := Some data;
                       json_error := EmptyString |};
       now := t; now_after_exchange := t + 50 |} in
  let s := {| tokenCache := ∅; exchanges := 0 |} in
  getAccessToken (io 2000) (getAccessToken (io 1000) s).2 =
  refresh (io 2000) (getAccessToken (io 1000) s).2.
Proof.
  intros data io s.
  apply (proj2 (proj2 (short_lived_token_never_cached (io 1000) s data 1%nat
                         eq_refl
                         ltac:(intros c Hc; unfold s in Hc; simpl in Hc;
                               by rewrite lookup_empty in Hc)))
           120 eq_refl ltac:(lia) (io 2000)).
  simpl. lia.
Defined.

(** *** [netsuiteRequest] *)

(** X11.  A request that [netsuiteRequest] sends carries every header the
    caller passed, with the caller's value, and for every other name the
    module's default: [Authorization] is "Bearer " followed by the token
    [getAccessToken] returned, unless the caller passed an [Authorization]
    header of its own. *)
Theorem netsuiteRequest_headers io endpoint options_headers s req s' :
  netsuiteRequest io endpoint options_headers s = (inr req, s') ->
  exists tok,
    getAccessToken io s = (inr tok, s') /\
    (forall k v, default ∅ options_headers !! k = Some v ->
                 headers req !! k = Some v) /\
    (forall k, default ∅ options_headers !! k = None ->
               headers req !! k = default_headers ("Bearer " ++ tok) !! k).
Proof.
  unfold netsuiteRequest, getAuthHeader.
  destruct (getOAuthConfig (env io)); [done|].
  destruct (getAccessToken io s) as [[err|tok] s1]; [done|].
  intros [= <- <-]. exists tok. split; [done|]. simpl. split.
  - intros k v Hk. by apply lookup_union_Some_l.
  - intros k Hk. by rewrite lookup_union_r.
Qed.

Lemma netsuiteRequest_headers_witness :
  let c := {| token := "cached"; expiresAt := Some 5000000 |} in
  let s := {| tokenCache := {[ "access_token" := c ]}; exchanges := 1 |} in
  let io :=
    {| env := {| NETSUITE_ACCOUNT_ID := Some "1234567";
                 NETSUITE_CLIENT_ID := Some "client";
                 NETSUITE_CERT_ID := Some "cert";
                 NETSUITE_PRIVATE_KEY := Some "key" |};
       sign := fun _ => inr "assertion"; fetch := inl "offline";
       now := 1000000; now_after_exchange := 1000000 |} in
  let mine : gmap string string := {[ "Accept" := "text/csv" ]} in
  let req :=
    {| url := "https://1234567.suitetalk.api.netsuite.com/services/rest/record/v1/job";
       headers := mine ∪ default_headers "Bearer cached" |} in
  exists tok,
    getAccessToken io s = (inr tok, s) /\
    (forall k v, default ∅ (Some mine) !! k = Some v ->
                 headers req !! k = Some v) /\
    (forall k, default ∅ (Some mine) !! k = None ->
               headers req !! k = default_headers ("Bearer " ++ tok) !! k).
Proof.
  intros c s io mine req.
  apply (netsuiteRequest_headers io "/services/rest/record/v1/job" (Some mine) s req s).
  reflexivity.
Defined.

(** X12.  [netsuiteRequest] reads the configuration before it asks for a
    token: with a variable missing or empty it fails with the "Missing
    OAuth M2M configuration" error and leaves the state alone, also when a
    fresh token is cached. *)
Theorem netsuiteRequest_needs_configuration io endpoint options_headers s :
  truthy_string (NETSUITE_ACCOUNT_ID (env io)) &&
  truthy_string (NETSUITE_CLIENT_ID (env io)) &&
  truthy_string (NETSUITE_CERT_ID (env io)) &&
  truthy_string (NETSUITE_PRIVATE_KEY (env io)) = false ->
  exists missing,
    netsuiteRequest io endpoint options_headers s =
      (inl ("Missing OAuth M2M configuration: " ++ missing), s).
Proof.
  intros Hcfg. unfold netsuiteRequest.
  destruct (getOAuthConfig (env io)) as [err|config] eqn:E.
  - unfold getOAuthConfig in E. destruct (0 <? _)%nat; [|done].
    injection E as <-. by eexists.
  - assert (exists config, getOAuthConfig (env io) = inr config) as H by eauto.
    apply getOAuthConfig_inr in H. congruence.
Qed.

Lemma netsuiteRequest_needs_configuration_witness :
  let c := {| token := "cached"; expiresAt := Some 5000000 |} in
  let s := {| tokenCache := {[ "access_token" := c ]}; exchanges := 1 |} in
  let io :=
    {| env := {| NETSUITE_ACCOUNT_ID := None; NETSUITE_CLIENT_ID := Some "client";
                 NETSUITE_CERT_ID := Some "cert";
                 NETSUITE_PRIVATE_KEY := Some "key" |};
       sign := fun _ => inr "assertion"; fetch := inl "offline";
       now := 1000000; now_after_exchange := 1000000 |} in
  (getAccessToken io s).1 = inr "cached" /\
  exists missing,
    netsuiteRequest io "/services/rest/record/v1/job" None s =
      (inl ("Missing OAuth M2M configuration: " ++ missing), s).
Proof.
  intros c s io. split; [reflexivity|].
  apply (netsuiteRequest_needs_configuration io). reflexivity.
Defined.

End OAuthExtra.

(** * Further properties of the composite RESTlet *)

Module RestletExtra.
Import Restlet RestletProofs.

Local Open Scope Z_scope.

(** *** The task loop *)

(** Every task from index [i] on is an object and is accepted by
    NetSuite. *)
Local Abbreviation all_accepted R rest i :=
  (forall (k : nat) entry,
     rest !! k = Some entry -> is_Some entry /\ task_save R (i + k)%nat = None).

(** The loop ends without an error exactly when no task is [null] or
    refused. *)
Lemma create_tasks_none_iff R pid rest : forall i created ns,
  (create_tasks R rest i pid created ns).1.1 = None <-> all_accepted R rest i.
Proof.
  induction rest as [|task rest IH]; intros i created ns; cbn [create_tasks].
  - split; [|done]. intros _ k entry Hk. by rewrite lookup_nil in Hk.
  - unfold createProjectTask.
    destruct task as [task|].
    + destruct (task_save R i) as [e|] eqn:Hi.
      * destruct (rollback R (Some task) i e pid ns) as [e' ns']. cbn [fst snd].
        split; [done|]. intros H. destruct (H 0%nat (Some task) eq_refl) as [_ H0].
        rewrite Nat.add_0_r in H0. congruence.
      * rewrite IH. split.
        -- intros H [|k] entry Hk; simpl in Hk.
           ++ injection Hk as <-. rewrite Nat.add_0_r. split; [by eexists|done].
           ++ replace (i + S k)%nat with (S i + k)%nat by lia. by apply H.
        -- intros H k entry Hk. replace (S i + k)%nat with (i + S k)%nat by lia.
           by apply H.
    + cbn [rollback fst snd]. split; [done|]. intros H.
      destruct (H 0%nat None eq_refl) as [[? [=]] _].
Qed.

(** When no task is [null] or refused, the loop saves one record per task,
    under consecutive internal ids, and touches nothing else. *)
Lemma create_tasks_all_saved R pid rest : forall i created ns,
  all_accepted R rest i ->
  let r := create_tasks R rest i pid created ns in
  r.1.2 = (created ++
           ((fun k : nat => next_id ns + Z.of_nat k) <$> seq 0 (length rest)))%list /\
  next_id r.2 = next_id ns + Z.of_nat (length rest) /\
  jobs r.2 = jobs ns /\
  execution_log r.2 =
    (execution_log ns ++ replicate (length rest) (AUDIT, "Task Created"))%list /\
  (forall (k : nat) task,
     rest !! k = Some (Some task) ->
     projecttasks r.2 !! (next_id ns + Z.of_nat k) =
       Some {| company := pid;
               title := or_else (task_name task) "Untitled Task";
               status := if truthy_string (task_status task)
                         then Some (mapTaskStatus (task_status task))
                         else None |}) /\
  (forall id, id < next_id ns -> projecttasks r.2 !! id = projecttasks ns !! id).
Proof.
  induction rest as [|entry rest IH]; intros i created ns Hsave; cbn [create_tasks].
  - cbn [fst snd length seq fmap list_fmap replicate].
    rewrite !app_nil_r, Z.add_0_r.
    split; [done|]. split; [done|]. split; [done|]. split; [done|].
    split; [|done]. intros k task Hk. by rewrite lookup_nil in Hk.
  - unfold createProjectTask.
    destruct (Hsave 0%nat entry eq_refl) as [[task ->] H0].
    rewrite Nat.add_0_r in H0. rewrite H0.
    set (ns1 := log AUDIT "Task Created" _).
    assert (next_id ns1 = next_id ns + 1) as Hn1 by done.
    assert (execution_log ns1 =
            (execution_log ns ++ [(AUDIT, "Task Created")])%list) as Hl1 by done.
    assert (jobs ns1 = jobs ns) as Hj1 by done.
    assert (forall id, id <> next_id ns ->
                       projecttasks ns1 !! id = projecttasks ns !! id) as Hp1.
    { intros id Hid. subst ns1. cbn. by rewrite lookup_insert_ne. }
    assert (projecttasks ns1 !! next_id ns =
            Some {| company := pid;
                    title := or_else (task_name task) "Untitled Task";
                    status := if truthy_string (task_status task)
                              then Some (mapTaskStatus (task_status task))
                              else None |}) as Hp0.
    { subst ns1. cbn. by rewrite lookup_insert_eq. }
    clearbody ns1.
    destruct (IH (S i) (created ++ [next_id ns])%list ns1)
      as (Hids & Hnext & Hjobs & Hlog & Hrec & Hframe).
    { intros k entry Hk. replace (S i + k)%nat with (i + S k)%nat by lia.
      by apply Hsave. }
    split; [|split; [|split; [|split; [|split]]]].
    + rewrite Hids, <- app_assoc. f_equal. cbn [length seq fmap list_fmap].
      rewrite Z.add_0_r. cbn [app]. f_equal.
      rewrite <- fmap_S_seq, <- list_fmap_compose.
      apply list_fmap_ext. intros _ k _. simpl. rewrite Hn1. lia.
    + rewrite Hnext, Hn1. cbn [length]. lia.
    + by rewrite Hjobs.
    + rewrite Hlog, Hl1, <- app_assoc. done.
    + intros [|k] task' Hk; simpl in Hk.
      * injection Hk as <-. rewrite Z.add_0_r, Hframe by lia. done.
      * rewrite <- (Hrec k task' Hk). f_equal. rewrite Hn1. lia.
    + intros id Hid. rewrite Hframe by lia. apply Hp1. lia.
Qed.

(** The message of the error thrown when the task at [index] is refused. *)
Local Abbreviation task_failure_message task index taskError pid :=
  ("Failed to create task " ++ dquote ++ template (task_name task) ++
   dquote ++ " (index " ++ string_of_nat index ++ "): " ++
   template (message taskError) ++ ". Project " ++
   string_of_Z pid ++ " has been rolled back.").

(** The error that leaves the loop at the task [entry] of index [index]:
    [TASK_CREATE_FAILED] when NetSuite refused a task that is an object
    (with the error [e]), the engine's [TypeError] at a [null] task. *)
Local Abbreviation loop_error R entry index e pid :=
  (match entry with
   | Some task =>
       error_create "TASK_CREATE_FAILED" (task_failure_message task index e pid)
   | None => TypeError R
   end).

(** When the task at position [k] is the first one that is [null] or
    refused, the loop has saved the [k] tasks before it and attempts no task
    after it.  At a task that is an object it tries to delete the project
    and throws [TASK_CREATE_FAILED] naming the task; at a [null] task it
    leaves the project alone and throws the [TypeError]. *)
Lemma create_tasks_first_failure R pid : forall (k : nat) rest i created ns entry,
  (forall (j : nat) entry',
     (j < k)%nat -> rest !! j = Some entry' ->
     is_Some entry' /\ task_save R (i + j)%nat = None) ->
  rest !! k = Some entry ->
  is_Some (task_save R (i + k)%nat) \/ entry = None ->
  let r := create_tasks R rest i pid created ns in
  (forall e, task_save R (i + k)%nat = Some e \/ entry = None ->
     r.1.1 = Some (loop_error R entry (i + k)%nat e pid)) /\
  r.1.2 = (created ++ ((fun j : nat => next_id ns + Z.of_nat j) <$> seq 0 k))%list /\
  next_id r.2 = next_id ns + Z.of_nat k /\
  jobs r.2 = match entry, job_delete R with
             | Some _, None => delete pid (jobs ns)
             | _, _ => jobs ns
             end /\
  last (execution_log r.2) =
    match entry, job_delete R with
    | Some _, Some _ => Some (ERROR, "Rollback Failed")
    | Some _, None => Some (AUDIT, "Rollback Complete")
    | None, _ => last (execution_log ns ++ replicate k (AUDIT, "Task Created"))
    end.
Proof.
  induction k as [|k IH]; intros rest i created ns entry Hpre Hk He;
    (destruct rest as [|entry0 rest]; [done|]); cbn [create_tasks];
    unfold createProjectTask.
  - injection Hk as ->. rewrite Nat.add_0_r in *.
    cbn [seq fmap list_fmap replicate]. rewrite !app_nil_r, Z.add_0_r.
    destruct (task_save R i) as [e0|] eqn:Hsave.
    + unfold rollback, record_delete.
      destruct entry as [task|]; [destruct (job_delete R)|]; cbn [fst snd];
        (split; [intros e [[= <-]|[=]]; done || done|]); cbn;
        (split; [done|]); (split; [done|]); (split; [done|]);
        by rewrite ?last_snoc.
    + destruct He as [[? [=]]| ->]. cbn [rollback fst snd].
      split; [by intros e _|]. done.
  - destruct (Hpre 0%nat entry0 ltac:(lia) eq_refl) as [[task0 ->] H0].
    rewrite Nat.add_0_r in H0. rewrite H0. simpl in Hk.
    set (ns1 := log AUDIT "Task Created" _).
    assert (next_id ns1 = next_id ns + 1) as Hn1 by done.
    assert (jobs ns1 = jobs ns) as Hj1 by done.
    assert (execution_log ns1 =
            (execution_log ns ++ [(AUDIT, "Task Created")])%list) as Hl1 by done.
    clearbody ns1.
    destruct (IH rest (S i) (created ++ [next_id ns])%list ns1 entry)
      as (Hthrown & Hids & Hnext & Hjobs & Hlast).
    { intros j entry' Hj Hl. replace (S i + j)%nat with (i + S j)%nat by lia.
      apply Hpre; [lia|done]. }
    { done. }
    { by replace (S i + k)%nat with (i + S k)%nat by lia. }
    replace (S i + k)%nat with (i + S k)%nat in Hthrown by lia.
    split; [done|]. split; [|split; [|split]].
    + rewrite Hids, <- app_assoc. f_equal. cbn [seq fmap list_fmap].
      rewrite Z.add_0_r. cbn [app]. f_equal.
      rewrite <- fmap_S_seq, <- list_fmap_compose.
      apply list_fmap_ext. intros _ j _. simpl. rewrite Hn1. lia.
    + rewrite Hnext, Hn1. lia.
    + rewrite Hjobs, Hj1. done.
    + rewrite Hlast, Hl1. cbn [replicate].
      by rewrite <- app_assoc.
Qed.

(** *** [post] on a well-formed request *)

(** The job record [createProject] saves. *)
Local Abbreviation job_record R p :=
  {| entityid := or_else (project_entityid p) ("PROJ-" ++ string_of_Z (clock R));
     companyname := if truthy_string (project_name p)
                    then project_name p else project_entityid p;
     parent := parseInt (customerId p) |}.

(** The account as [createProject] leaves it when the save goes through. *)
Local Abbreviation after_project R p ns :=
  (log AUDIT "Project Created"
     {| jobs := <[next_id ns := job_record R p]> (jobs ns);
        projecttasks := projecttasks ns;
        next_id := next_id ns + 1;
        execution_log :=
          app (execution_log ns) [(AUDIT, "Starting Composite Create")] |}).

(** [post] on a request that passes validation and whose project is saved:
    the task loop decides. *)
Lemma post_valid R requestBody ns p :
  project requestBody = Some p ->
  is_truthy (customerId p) = true ->
  job_save R = None ->
  let r := create_tasks R (default [] (tasks requestBody)) 0 (next_id ns) []
             (after_project R p ns) in
  post R requestBody ns =
  match r.1.1 with
  | None =>
      ({| success := true;
          data := Some {| data_projectId := Some (next_id ns);
                          taskIds := r.1.2;
                          taskCount := length (r.1.2);
                          data_entityid := project_entityid p |};
          error := None |},
       r.2)
  | Some e =>
      ({| success := false;
          data := None;
          error :=
            Some {| code := or_else (name e) "COMPOSITE_CREATE_ERROR";
                    error_message := or_else (message e) "Unknown error occurred";
                    details :=
                      {| details_projectId := Some (next_id ns);
                         partialTasksCreated := length (r.1.2);
                         totalTasksRequested :=
                           length (default [] (tasks requestBody)) |} |} |},
       log ERROR "Composite Create Failed" r.2)
  end.
Proof.
  intros Hp Hc Hj. unfold post, post_try, createProject.
  rewrite Hp, Hc, Hj. cbn [negb].
  change (next_id (log AUDIT "Starting Composite Create" ns)) with (next_id ns).
  change (log AUDIT "Project Created" _) with (after_project R p ns).
  destruct (create_tasks _ _ _ _ _ _) as [[[e|] created] ns2]; by cbn.
Qed.

(** X13.  A request without a [project], or whose project has a falsy
    [customerId] (missing, 0, an empty string), is answered with
    [MISSING_PROJECT_DATA] or [MISSING_CUSTOMER_ID] and creates nothing: no
    job and no task. *)
Theorem invalid_request_creates_nothing R requestBody ns :
  (forall p, project requestBody = Some p -> is_truthy (customerId p) = false) ->
  let resp := (post R requestBody ns).1 in
  let ns' := (post R requestBody ns).2 in
  resp =
    {| success := false;
       data := None;
       error :=
         Some {| code := match project requestBody with
                         | None => "MISSING_PROJECT_DATA"
                         | Some _ => "MISSING_CUSTOMER_ID"
                         end;
                 error_message :=
                   match project requestBody with
                   | None => "Request must include " ++ dquote ++ "project" ++
                             dquote ++ " object"
                   | Some _ => "Project must specify customerId"
                   end;
                 details :=
                   {| details_projectId := None;
                      partialTasksCreated := 0;
                      totalTasksRequested :=
                        length (default [] (tasks requestBody)) |} |} |} /\
  jobs ns' = jobs ns /\ projecttasks ns' = projecttasks ns.
Proof.
  intros Hbad. unfold post, post_try.
  destruct (project requestBody) as [p|]; [|done].
  by rewrite (Hbad p eq_refl).
Qed.

Lemma invalid_request_creates_nothing_witness :
  let requestBody :=
    {| project := Some {| project_name := Some "Rollout";
                          project_entityid := Some "PRJ-001";
                          customerId := customer_number 0 |};
       tasks := Some [ Some {| task_name := Some "Discovery";
                               task_status := None |} ] |} in
  let R := {| job_save := None; task_save := fun _ => None; job_delete := None;
              clock := 0;
              null_name_message := "Cannot read property 'name' of null" |} in
  let ns := {| jobs := ∅; projecttasks := ∅; next_id := 1000;
               execution_log := [] |} in
  jobs (post R requestBody ns).2 = jobs ns /\
  projecttasks (post R requestBody ns).2 = projecttasks ns.
Proof.
  intros requestBody R ns.
  apply (invalid_request_creates_nothing R requestBody ns).
  intros p [= <-]. reflexivity.
Defined.

(** X14.  When [createProject] throws, the response carries the thrown
    error's name and message (or [COMPOSITE_CREATE_ERROR] and "Unknown
    error occurred" where they are missing or empty), no project id, and
    nothing was created. *)
Theorem project_failure_creates_nothing R requestBody ns p e :
  project requestBody = Some p ->
  is_truthy (customerId p) = true ->
  job_save R = Some e ->
  let resp := (post R requestBody ns).1 in
  let ns' := (post R requestBody ns).2 in
  resp =
    {| success := false;
       data := None;
       error :=
         Some {| code := or_else (name e) "COMPOSITE_CREATE_ERROR";
                 error_message := or_else (message e) "Unknown error occurred";
                 details :=
                   {| details_projectId := None;
                      partialTasksCreated := 0;
                      totalTasksRequested :=
                        length (default [] (tasks requestBody)) |} |} |} /\
  jobs ns' = jobs ns /\ projecttasks ns' = projecttasks ns.
Proof.
  intros Hp Hc Hj. unfold post, post_try, createProject.
  by rewrite Hp, Hc, Hj.
Qed.

Lemma project_failure_creates_nothing_witness :
  let p := {| project_name := Some "Rollout"; project_entityid := Some "PRJ-001";
              customerId := customer_number 3161 |} in
  let requestBody := {| project := Some p; tasks := None |} in
  let e := {| name := Some EmptyString; message := None |} in
  let R := {| job_save := Some e; task_save := fun _ => None; job_delete := None;
              clock := 0;
              null_name_message := "Cannot read property 'name' of null" |} in
  let ns := {| jobs := ∅; projecttasks := ∅; next_id := 1000;
               execution_log := [] |} in
  (post R requestBody ns).1 =
    {| success := false;
       data := None;
       error :=
         Some {| code := "COMPOSITE_CREATE_ERROR";
                 error_message := "Unknown error occurred";
                 details :=
                   {| details_projectId := None;
                      partialTasksCreated := 0;
                      totalTasksRequested := 0 |} |} |}.
Proof.
  intros p requestBody e R ns.
  apply (project_failure_creates_nothing R requestBody ns p e); reflexivity.
Defined.

(** X15.  A request that passes validation succeeds exactly when the
    project is not refused and every task is an object that is not refused.
    The response then carries the project's id, one task id per requested
    task, all different, their number, and the [entityid] of the
    request. *)
Theorem success_iff_nothing_refused R requestBody ns p :
  project requestBody = Some p ->
  is_truthy (customerId p) = true ->
  let resp := (post R requestBody ns).1 in
  let n := length (default [] (tasks requestBody)) in
  (success resp = true <->
   job_save R = None /\
   forall (k : nat) entry,
     default [] (tasks requestBody) !! k = Some entry ->
     is_Some entry /\ task_save R k = None) /\
  (success resp = true ->
   exists pid ids,
     resp =
       {| success := true;
          data := Some {| data_projectId := Some pid;
                          taskIds := ids;
                          taskCount := n;
                          data_entityid := project_entityid p |};
          error := None |} /\
     length ids = n /\ NoDup ids).
Proof.
  intros Hp Hc resp n. subst resp n.
  destruct (job_save R) as [e|] eqn:Hj.
  { unfold post, post_try, createProject. rewrite Hp, Hc, Hj. simpl.
    split; [|done]. split; [done|]. by intros [? _]. }
  rewrite (post_valid R requestBody ns p Hp Hc Hj). cbv zeta.
  pose proof (create_tasks_none_iff R (next_id ns) (default [] (tasks requestBody))
                0 [] (after_project R p ns)) as Hiff.
  pose proof (create_tasks_all_saved R (next_id ns) (default [] (tasks requestBody))
                0 [] (after_project R p ns)) as Hall.
  cbv zeta in Hall.
  destruct (_.1.1) as [e|].
  - simpl. split; [|done]. split; [done|]. intros [_ H].
    by apply Hiff in H.
  - cbn [fst snd success]. split.
    + split; [|done]. intros _. split; [done|]. by apply Hiff.
    + intros _. destruct Hall as (Hids & _); [by apply Hiff|].
      rewrite Hids. cbn [app].
      eexists _, _. split; [|split].
      * f_equal. f_equal. f_equal. by rewrite length_fmap, length_seq.
      * by rewrite length_fmap, length_seq.
      * apply NoDup_fmap_2; [|apply NoDup_seq].
        intros k1 k2 Hk. lia.
Qed.

Lemma success_iff_nothing_refused_witness :
  let p := {| project_name := Some "Rollout"; project_entityid := Some "PRJ-001";
              customerId := customer_number 3161 |} in
  let requestBody :=
    {| project := Some p;
       tasks := Some [ Some {| task_name := Some "Discovery"; task_status := None |};
                       Some {| task_name := None;
                               task_status := Some "On Hold" |} ] |} in
  let R := {| job_save := None; task_save := fun _ => None; job_delete := None;
              clock := 0;
              null_name_message := "Cannot read property 'name' of null" |} in
  let ns := {| jobs := ∅; projecttasks := ∅; next_id := 1000;
               execution_log := [] |} in
  exists pid ids,
    (post R requestBody ns).1 =
      {| success := true;
         data := Some {| data_projectId := Some pid; taskIds := ids;
                         taskCount := 2; data_entityid := Some "PRJ-001" |};
         error := None |} /\
    length ids = 2%nat /\ NoDup ids.
Proof.
  intros p requestBody R ns.
  apply (proj2 (success_iff_nothing_refused R requestBody ns p eq_refl eq_refl)).
  apply (proj1 (success_iff_nothing_refused R requestBody ns p eq_refl eq_refl)).
  split; [reflexivity|].
  intros [|[|k]] entry Hk; simpl in Hk; [| |done]; injection Hk as <-;
    (split; [by eexists|reflexivity]).
Defined.

(** X16.  After a successful request the account holds the job record under
    the project id of the response, with [parseInt(customerId)] as its
    parent, and for the k-th task of the request a task record under the
    k-th task id of the response: linked to the project, titled with the
    task's name or "Untitled Task" when it has none, and with a status only
    when the task has one (then the mapped code). *)
Theorem saved_records R requestBody ns p :
  project requestBody = Some p ->
  is_truthy (customerId p) = true ->
  success (post R requestBody ns).1 = true ->
  let ns' := (post R requestBody ns).2 in
  exists pid d,
    data (post R requestBody ns).1 = Some d /\
    data_projectId d = Some pid /\
    jobs ns' !! pid =
      Some {| entityid := or_else (project_entityid p)
                            ("PROJ-" ++ string_of_Z (clock R));
              companyname := if truthy_string (project_name p)
                             then project_name p else project_entityid p;
              parent := parseInt (customerId p) |} /\
    forall (k : nat) entry,
      default [] (tasks requestBody) !! k = Some entry ->
      exists task tid,
        entry = Some task /\
        taskIds d !! k = Some tid /\
        projecttasks ns' !! tid =
          Some {| company := pid;
                  title := or_else (task_name task) "Untitled Task";
                  status := if truthy_string (task_status task)
                            then Some (mapTaskStatus (task_status task))
                            else None |}.
Proof.
  intros Hp Hc. cbv zeta.
  destruct (job_save R) as [e|] eqn:Hj.
  { unfold post, post_try, createProject. by rewrite Hp, Hc, Hj. }
  rewrite (post_valid R requestBody ns p Hp Hc Hj). cbv zeta.
  pose proof (create_tasks_none_iff R (next_id ns) (default [] (tasks requestBody))
                0 [] (after_project R p ns)) as Hiff.
  pose proof (create_tasks_all_saved R (next_id ns) (default [] (tasks requestBody))
                0 [] (after_project R p ns)) as Hall.
  cbv zeta in Hall.
  destruct (_.1.1) as [e|]; [done|]. intros _. cbn [fst snd data].
  pose proof (proj1 Hiff eq_refl) as Hacc.
  destruct Hall as (Hids & _ & Hjobs & _ & Hrec & _); [done|].
  eexists (next_id ns), _. split; [done|]. cbn [data_projectId taskIds].
  split; [done|]. split.
  - rewrite Hjobs. cbn. by rewrite lookup_insert_eq.
  - intros k entry Hk. destruct (Hacc k entry Hk) as [[task ->] _].
    exists task, (next_id ns + 1 + Z.of_nat k). split; [done|]. split.
    + rewrite Hids. cbn [app]. rewrite list_lookup_fmap.
      rewrite lookup_seq_lt by (by apply lookup_lt_Some in Hk). done.
    + rewrite <- (Hrec k task Hk). f_equal.
Qed.

(** A customer id given as the number 1e21, which [parseInt] reads as 1. *)
Lemma saved_records_witness :
  let p := {| project_name := None; project_entityid := Some "PRJ-001";
              customerId := {| is_truthy := true; parseInt := Some 1 |} |} in
  let requestBody :=
    {| project := Some p;
       tasks := Some [ Some {| task_name := Some "Discovery"; task_status := None |};
                       Some {| task_name := None;
                               task_status := Some "On Hold" |} ] |} in
  let R := {| job_save := None; task_save := fun _ => None; job_delete := None;
              clock := 0;
              null_name_message := "Cannot read property 'name' of null" |} in
  let ns := {| jobs := ∅; projecttasks := ∅; next_id := 1000;
               execution_log := [] |} in
  exists pid d tid,
    data (post R requestBody ns).1 = Some d /\
    data_projectId d = Some pid /\
    jobs (post R requestBody ns).2 !! pid =
      Some {| entityid := "PRJ-001"; companyname := Some "PRJ-001";
              parent := Some 1 |} /\
    taskIds d !! 1%nat = Some tid /\
    projecttasks (post R requestBody ns).2 !! tid =
      Some {| company := pid; title := "Untitled Task";
              status := Some (Str "ONHOLD") |}.
Proof.
  intros p requestBody R ns.
  destruct (saved_records R requestBody ns p eq_refl eq_refl eq_refl)
    as (pid & d & Hd & Hpid & Hjob & Htasks).
  destruct (Htasks 1%nat (Some {| task_name := None; task_status := Some "On Hold" |})
              eq_refl) as (task & tid & [= <-] & Htid & Hrec).
  exists pid, d, tid. split; [exact Hd|]. split; [exact Hpid|].
  split; [exact Hjob|]. split; [exact Htid|exact Hrec].
Defined.

(** X17.  When the task at position [k] is the first one that is [null] or
    refused, the response carries the project's id,
    [partialTasksCreated = k] and the number of tasks requested.  For a
    task that is an object it is [TASK_CREATE_FAILED], with a message
    naming the task, its index, the underlying error and the project; for a
    [null] task it is the engine's [TypeError]. *)
Theorem first_refused_task R requestBody ns p (k : nat) entry :
  project requestBody = Some p ->
  is_truthy (customerId p) = true ->
  job_save R = None ->
  (forall (j : nat) entry',
     (j < k)%nat -> default [] (tasks requestBody) !! j = Some entry' ->
     is_Some entry' /\ task_save R j = None) ->
  default [] (tasks requestBody) !! k = Some entry ->
  is_Some (task_save R k) \/ entry = None ->
  exists pid,
    forall e, task_save R k = Some e \/ entry = None ->
    (post R requestBody ns).1 =
      {| success := false;
         data := None;
         error :=
           Some {| code := match entry with
                           | Some _ => "TASK_CREATE_FAILED"
                           | None => "TypeError"
                           end;
                   error_message :=
                     match entry with
                     | Some task =>
                         "Failed to create task " ++ dquote ++
                         template (task_name task) ++
                         dquote ++ " (index " ++ string_of_nat k ++ "): " ++
                         template (message e) ++ ". Project " ++
                         string_of_Z pid ++ " has been rolled back."
                     | None =>
                         or_else (Some (null_name_message R))
                                 "Unknown error occurred"
                     end;
                   details :=
                     {| details_projectId := Some pid;
                        partialTasksCreated := k;
                        totalTasksRequested :=
                          length (default [] (tasks requestBody)) |} |} |}.
Proof.
  intros Hp Hc Hj Hpre Hk He. exists (next_id ns). intros e Hcase.
  rewrite (post_valid R requestBody ns p Hp Hc Hj). cbv zeta.
  destruct (create_tasks_first_failure R (next_id ns) k
              (default [] (tasks requestBody)) 0 [] (after_project R p ns) entry
              Hpre Hk He) as (Hthrown & Hids & _).
  rewrite (Hthrown e Hcase), Hids. cbn [fst snd app]. rewrite length_fmap, length_seq.
  destruct entry as [task|]; [|done].
  unfold or_else. cbn [error_create name message].
  assert (forall s : string,
             truthy_string (Some ("Failed to create task " ++ s)) = true) as Ht by done.
  rewrite Ht. done.
Qed.

Lemma first_refused_task_witness :
  let p := {| project_name := Some "Rollout"; project_entityid := Some "PRJ-001";
              customerId := customer_number 3161 |} in
  let third := {| task_name := Some "Go-live"; task_status := None |} in
  let requestBody :=
    {| project := Some p;
       tasks := Some [ Some {| task_name := Some "Discovery"; task_status := None |};
                       Some {| task_name := Some "Build"; task_status := None |};
                       Some third;
                       None ] |} in
  let e := {| name := Some "INVALID_FLD_VALUE"; message := Some "Invalid service item" |} in
  let R := {| job_save := None;
              task_save := fun i => match i with 2%nat => Some e | _ => None end;
              job_delete := None; clock := 0;
              null_name_message := "Cannot read property 'name' of null" |} in
  let ns := {| jobs := ∅; projecttasks := ∅; next_id := 1000;
               execution_log := [] |} in
  exists pid,
    error (post R requestBody ns).1 =
      Some {| code := "TASK_CREATE_FAILED";
              error_message :=
                "Failed to create task " ++ dquote ++ "Go-live" ++ dquote ++
                " (index 2): Invalid service item. Project " ++
                string_of_Z pid ++ " has been rolled back.";
              details := {| details_projectId := Some pid;
                            partialTasksCreated := 2;
                            totalTasksRequested := 4 |} |}.
Proof.
  intros p third requestBody e R ns.
  destruct (first_refused_task R requestBody ns p 2 (Some third) eq_refl eq_refl
              eq_refl) as [pid Hresp].
  - intros [|[|j]] entry' Hj Hl; [| |lia]; injection Hl as <-;
      (split; [by eexists|reflexivity]).
  - reflexivity.
  - left. by eexists.
  - exists pid. by rewrite (Hresp e (or_introl eq_refl)).
Defined.

(** A request whose only task is [null] is answered with the [TypeError]. *)
Example null_task_response :
  let p := {| project_name := Some "Rollout"; project_entityid := Some "PRJ-001";
              customerId := customer_number 3161 |} in
  let requestBody := {| project := Some p; tasks := Some [None] |} in
  let R := {| job_save := None; task_save := fun _ => None; job_delete := None;
              clock := 0;
              null_name_message := "Cannot read property 'name' of null" |} in
  let ns := {| jobs := ∅; projecttasks := ∅; next_id := 1000;
               execution_log := [] |} in
  error (post R requestBody ns).1 =
    Some {| code := "TypeError";
            error_message := "Cannot read property 'name' of null";
            details := {| details_projectId := Some 1000;
                          partialTasksCreated := 0;
                          totalTasksRequested := 1 |} |} /\
  is_Some (jobs (post R requestBody ns).2 !! 1000).
Proof. split; [reflexivity|by eexists]. Qed.

(** X18.  Whatever happens, [post] leaves every job record other than the
    project it reports as it was; and a request without a [null] task that
    fails without its compensating delete having thrown leaves the job
    records exactly as it found them (the id of its project being unused
    before). *)
Theorem other_jobs_untouched R requestBody ns :
  let resp := (post R requestBody ns).1 in
  let ns' := (post R requestBody ns).2 in
  (forall id, response_projectId resp <> Some id ->
              jobs ns' !! id = jobs ns !! id) /\
  (success resp = false -> job_delete R = None ->
   None ∉ default [] (tasks requestBody) ->
   (forall pid, response_projectId resp = Some pid -> jobs ns !! pid = None) ->
   jobs ns' = jobs ns).
Proof.
  cbv zeta.
  destruct (project requestBody) as [p|] eqn:Hp;
    [|unfold post, post_try; by rewrite Hp].
  destruct (is_truthy (customerId p)) eqn:Hc;
    [|unfold post, post_try; by rewrite Hp, Hc].
  destruct (job_save R) as [e|] eqn:Hj;
    [unfold post, post_try, createProject; by rewrite Hp, Hc, Hj|].
  rewrite (post_valid R requestBody ns p Hp Hc Hj). cbv zeta.
  destruct (create_tasks_spec R (next_id ns) (default [] (tasks requestBody)) 0 []
              (after_project R p ns)) as (entries & Hlog & Hcases).
  { intros tid Htid. by apply elem_of_nil in Htid. }
  destruct (_.1.1) as [e|]; cbn [fst snd success].
  - unfold response_projectId. cbn [data error details details_projectId].
    destruct Hcases as [_ [(_ & Hjobs & _)|[(Hdel & Hjobs & _)|(Hnull & Hjobs & _)]]].
    + split.
      * intros id Hid. assert (id <> next_id ns) by congruence.
        cbn. rewrite Hjobs. cbn.
        by rewrite lookup_delete_ne, lookup_insert_ne.
      * intros _ _ _ Hfresh. cbn. rewrite Hjobs. cbn.
        by apply delete_insert_id, Hfresh.
    + split.
      * intros id Hid. assert (id <> next_id ns) by congruence.
        cbn. rewrite Hjobs. cbn. by rewrite lookup_insert_ne.
      * intros _ Hno _ _. rewrite Hno in Hdel. by destruct Hdel.
    + split.
      * intros id Hid. assert (id <> next_id ns) by congruence.
        cbn. rewrite Hjobs. cbn. by rewrite lookup_insert_ne.
      * intros _ _ Hno _. done.
  - unfold response_projectId. cbn [data data_projectId].
    destruct Hcases as (Hjobs & _). split; [|done].
    intros id Hid. assert (id <> next_id ns) by congruence.
    rewrite Hjobs. cbn. by rewrite lookup_insert_ne.
Qed.

Lemma other_jobs_untouched_witness :
  let p := {| project_name := Some "Rollout"; project_entityid := Some "PRJ-001";
              customerId := customer_number 3161 |} in
  let requestBody :=
    {| project := Some p;
       tasks := Some [ Some {| task_name := Some "Discovery";
                               task_status := None |} ] |} in
  let e := {| name := Some "INVALID_FLD_VALUE"; message := Some "Invalid service item" |} in
  let R := {| job_save := None; task_save := fun _ => Some e; job_delete := None;
              clock := 0;
              null_name_message := "Cannot read property 'name' of null" |} in
  let old := {| entityid := "PRJ-000"; companyname := None; parent := Some 12 |} in
  let ns := {| jobs := {[ 7 := old ]}; projecttasks := ∅; next_id := 1000;
               execution_log := [] |} in
  jobs (post R requestBody ns).2 = jobs ns.
Proof.
  intros p requestBody e R ns0 ns.
  apply (proj2 (other_jobs_untouched R requestBody ns)).
  - reflexivity.
  - reflexivity.
  - apply (proj1 (bool_decide_eq_false _)). reflexivity.
  - intros pid [= <-]. reflexivity.
Defined.

(** X19.  A successful request writes no error line to the execution log;
    a failed request always ends the log with the error line "Composite
    Create Failed". *)
Theorem execution_log_lines R requestBody ns :
  let resp := (post R requestBody ns).1 in
  let ns' := (post R requestBody ns).2 in
  (success resp = true ->
   forall line_title, (ERROR, line_title) ∉ new_log_entries ns ns') /\
  (success resp = false ->
   last (execution_log ns') = Some (ERROR, "Composite Create Failed")).
Proof.
  cbv zeta.
  assert (forall n, last (execution_log (log ERROR "Composite Create Failed" n)) =
                    Some (ERROR, "Composite Create Failed")) as Hlast.
  { intros n. cbn. by rewrite last_snoc. }
  destruct (project requestBody) as [p|] eqn:Hp;
    [|unfold post, post_try; rewrite Hp; cbn [fst snd success negb];
      split; [done|intros _; apply Hlast]].
  destruct (is_truthy (customerId p)) eqn:Hc;
    [|unfold post, post_try; rewrite Hp, Hc; cbn [fst snd success negb];
      split; [done|intros _; apply Hlast]].
  destruct (job_save R) as [e|] eqn:Hj;
    [unfold post, post_try, createProject; rewrite Hp, Hc, Hj;
     cbn [fst snd success negb]; split; [done|intros _; apply Hlast]|].
  rewrite (post_valid R requestBody ns p Hp Hc Hj). cbv zeta.
  pose proof (create_tasks_none_iff R (next_id ns) (default [] (tasks requestBody))
                0 [] (after_project R p ns)) as Hiff.
  pose proof (create_tasks_all_saved R (next_id ns) (default [] (tasks requestBody))
                0 [] (after_project R p ns)) as Hall.
  cbv zeta in Hall.
  destruct (_.1.1) as [e|]; cbn [fst snd success];
    [split; [done|intros _; apply Hlast]|].
  split; [|done]. intros _ line_title.
  destruct Hall as (_ & _ & _ & Hlog & _); [by apply Hiff|].
  unfold new_log_entries. rewrite Hlog. cbn.
  rewrite <- !app_assoc, drop_app_length.
  rewrite ?elem_of_app, ?elem_of_cons, ?elem_of_nil, ?elem_of_replicate.
  intuition discriminate.
Qed.

Lemma execution_log_lines_witness :
  let p := {| project_name := Some "Rollout"; project_entityid := Some "PRJ-001";
              customerId := customer_number 3161 |} in
  let requestBody :=
    {| project := Some p;
       tasks := Some [ Some {| task_name := Some "Discovery";
                               task_status := None |} ] |} in
  let e := {| name := Some "INVALID_FLD_VALUE"; message := Some "Invalid service item" |} in
  let R := {| job_save := None; task_save := fun _ => Some e; job_delete := None;
              clock := 0;
              null_name_message := "Cannot read property 'name' of null" |} in
  let ns := {| jobs := ∅; projecttasks := ∅; next_id := 1000;
               execution_log := [(DEBUG, "earlier")] |} in
  last (execution_log (post R requestBody ns).2) =
    Some (ERROR, "Composite Create Failed").
Proof.
  intros p requestBody e R ns.
  apply (proj2 (execution_log_lines R requestBody ns)). reflexivity.
Defined.

(** X26.  For a request without a [null] task, the project it created is
    among the job records after the call exactly when the response reports
    success, or the project was created and [record.delete] throws (a task
    was then refused and the compensating delete failed).  When the project
    is there and [record.delete] does not throw, the response carries one
    task id per requested task, and each of them is a saved task of that
    project. *)
Theorem parent_exists_without_null_task R requestBody ns :
  None ∉ default [] (tasks requestBody) ->
  let resp := (post R requestBody ns).1 in
  let ns' := (post R requestBody ns).2 in
  (parent_exists resp ns' <->
   success resp = true \/
   (is_Some (response_projectId resp) /\ is_Some (job_delete R))) /\
  (parent_exists resp ns' -> job_delete R = None ->
   exists pid d,
     data resp = Some d /\ data_projectId d = Some pid /\
     length (taskIds d) = length (default [] (tasks requestBody)) /\
     forall tid, tid ∈ taskIds d ->
       exists t, projecttasks ns' !! tid = Some t /\ company t = pid).
Proof.
  intros Hnonull resp ns'.
  destruct (post_cases R requestBody ns) as (entries & Hlog & Hcases).
  fold resp ns' in Hlog, Hcases. unfold parent_exists.
  destruct Hcases as [(Hs & Hp & Hrf)
                     |[(pid & d & Hs & Hd & Hp & Hj & Hrf & Hlen & Hall)
                     |[(pid & Hs & Hp & Hj & Hdel & Hrf)
                     |[(pid & Hs & Hp & Hj & Hdel & Hrf)
                      |(pid & _ & _ & _ & Hnull & _)]]]]; [| | | |done].
  - rewrite Hs, Hp. split.
    + split; [by intros (id & ? & _)|]. by intros [?|[[? ?] _]].
    + by intros (id & ? & _).
  - assert (response_projectId resp = Some pid) as Hrp.
    { unfold response_projectId. by rewrite Hd. }
    rewrite Hrp. split.
    + split; [by left|]. intros _. by exists pid.
    + intros _ _. by exists pid, d.
  - rewrite Hs, Hp, Hdel. split.
    + split.
      * intros (id & [= <-] & Hsome). rewrite Hj in Hsome. by destruct Hsome.
      * by intros [?|[_ [? ?]]].
    + intros (id & [= <-] & Hsome). rewrite Hj in Hsome. by destruct Hsome.
  - rewrite Hp. split.
    + split; [right; split; [by eexists|done]|]. intros _. by exists pid.
    + intros _ Hno. rewrite Hno in Hdel. by destruct Hdel.
Qed.

(** A task is refused and the compensating delete throws: the project
    stays. *)
Lemma parent_exists_without_null_task_witness :
  let p := {| project_name := Some "Rollout"; project_entityid := Some "PRJ-001";
              customerId := customer_number 3161 |} in
  let requestBody :=
    {| project := Some p;
       tasks := Some [ Some {| task_name := Some "Discovery";
                               task_status := None |} ] |} in
  let e := {| name := Some "INVALID_FLD_VALUE"; message := Some "Invalid service item" |} in
  let locked := {| name := Some "RCRD_LOCKED"; message := Some "Record is locked" |} in
  let R := {| job_save := None; task_save := fun _ => Some e;
              job_delete := Some locked; clock := 0;
              null_name_message := "Cannot read property 'name' of null" |} in
  let ns := {| jobs := ∅; projecttasks := ∅; next_id := 1000;
               execution_log := [] |} in
  parent_exists (post R requestBody ns).1 (post R requestBody ns).2.
Proof.
  intros p requestBody e locked R ns.
  apply (proj1 (parent_exists_without_null_task R requestBody ns
                  ltac:(apply (proj1 (bool_decide_eq_false _)); reflexivity))).
  right. split; by eexists.
Defined.

(** *** [mapTaskStatus] away from the prototype *)

(** X20.  For every input, [undefined] included, that is not the name of an
    [Object.prototype] member, [mapTaskStatus] returns one of the four
    NetSuite codes, and [NOTSTART] unless the input is one of the three
    other frontend labels. *)
Theorem mapTaskStatus_codes (frontendStatus : option string) :
  template frontendStatus ∉ Object_prototype ->
  mapTaskStatus frontendStatus ∈
    [Str "NOTSTART"; Str "PROGRESS"; Str "COMPLETE"; Str "ONHOLD"] /\
  (template frontendStatus ∉ ["In Progress"; "Completed"; "On Hold"] ->
   mapTaskStatus frontendStatus = Str "NOTSTART").
Proof.
  intros Hproto. unfold mapTaskStatus, get, statusMap.
  rewrite !lookup_insert, lookup_singleton, (bool_decide_eq_false_2 _ Hproto).
  repeat case_decide; simplify_eq; cbn.
  - split; [log_lines|done].
  - split; [log_lines|]. intros Hno. exfalso. apply Hno. log_lines.
  - split; [log_lines|]. intros Hno. exfalso. apply Hno. log_lines.
  - split; [log_lines|]. intros Hno. exfalso. apply Hno. log_lines.
  - split; [log_lines|done].
Qed.

Lemma mapTaskStatus_codes_witness :
  mapTaskStatus (Some "in progress") ∈
    [Str "NOTSTART"; Str "PROGRESS"; Str "COMPLETE"; Str "ONHOLD"] /\
  mapTaskStatus (Some "in progress") = Str "NOTSTART".
Proof.
  assert (forall l : list string, bool_decide ("in progress" ∈ l) = false ->
                                  "in progress" ∉ l) as Hdec.
  { intros l H. by apply bool_decide_eq_false in H. }
  destruct (mapTaskStatus_codes (Some "in progress")) as [Hin Hdefault].
  - apply Hdec. reflexivity.
  - split; [exact Hin|]. apply Hdefault, Hdec. reflexivity.
Defined.

End RestletExtra.

(** * Properties of SuiteQL queries *)

Module SuiteQLProofs.
Import Stdlib.Strings.Ascii.
Import Concurrency ConcurrencyProofs.

(** *** Where the rate-limit code can occur in an error message *)

Lemma includes_cons c s sub :
  includes (String c s) sub = String.prefix sub (String c s) || includes s sub.
Proof. done. Qed.

Lemma prefix_other_char c s t :
  c <> "S"%char -> String.prefix (String "S" t) (String c s) = false.
Proof.
  intros Hne. cbn [String.prefix].
  destruct (ascii_dec "S" c) as [Heq|_]; [by destruct Hne|done].
Qed.

(** A text without the letter S in front of another text adds no occurrence
    of a word that starts with S. *)
Lemma includes_app_no_S a b t :
  includes a "S" = false ->
  includes (a ++ b) (String "S" t) = includes b (String "S" t).
Proof.
  induction a as [|c a IH].
  - intros _. by destruct b.
  - rewrite includes_cons. intros [Hc Ha]%orb_false_elim.
    change (String c a ++ b) with (String c (a ++ b)).
    rewrite includes_cons, IH by done.
    rewrite prefix_other_char; [done|].
    intros ->. by destruct a.
Qed.

(** An occurrence in the second part of a text is an occurrence in the
    text. *)
Lemma includes_app_r a b sub :
  includes b sub = true -> includes (a ++ b) sub = true.
Proof.
  intros H. induction a as [|c a IH]; [done|].
  change (String c a ++ b) with (String c (a ++ b)).
  rewrite includes_cons, IH. apply orb_true_r.
Qed.

(** The decimal form of an integer has no letter S. *)
Lemma string_of_Z_no_S z : includes (string_of_Z z) "S" = false.
Proof.
  assert (forall d, includes (NilEmpty.string_of_uint d) "S" = false) as Hd.
  { induction d; simpl; done. }
  assert (forall d, includes (NilZero.string_of_uint d) "S" = false) as Hz.
  { intros d. destruct d; simpl; try done; apply Hd. }
  unfold string_of_Z, NilZero.string_of_int.
  destruct (Z.to_int z); simpl; [apply Hz|]. apply Hz.
Qed.

(** The message of the error thrown for a non-2xx reply carries the
    rate-limit code exactly when the reply's text does. *)
Lemma query_failed_message_signal (status : Z) (text : string) :
  includes ("SuiteQL query failed: " ++ string_of_Z status ++ " - " ++ text)
           "SSS_REQUEST_LIMIT_EXCEEDED" =
  includes text "SSS_REQUEST_LIMIT_EXCEEDED".
Proof.
  change ("SuiteQL query failed: " ++ string_of_Z status ++ " - " ++ text)
    with (String "S" ("uiteQL query failed: " ++ string_of_Z status ++ " - " ++ text)).
  rewrite includes_cons.
  replace (String.prefix _ _) with false by reflexivity.
  cbn [orb].
  rewrite (includes_app_no_S "uiteQL query failed: ") by reflexivity.
  rewrite (includes_app_no_S (string_of_Z status)) by apply string_of_Z_no_S.
  by rewrite (includes_app_no_S " - ") by reflexivity.
Qed.

(** The error [requestFn] throws for a non-2xx reply is retryable exactly
    when the reply's text carries the rate-limit code: it has no [response]
    and no [code]. *)
Lemma query_failed_retryable (status : Z) (text : string) :
  let e := new_Error ("SuiteQL query failed: " ++ string_of_Z status ++
                      " - " ++ text) in
  isRetryableError e (response e) =
  includes text "SSS_REQUEST_LIMIT_EXCEEDED".
Proof.
  cbv zeta. unfold isRetryableError, new_Error.
  cbn [response code message truthy_string template andb].
  rewrite query_failed_message_signal.
  replace (negb _) with true by reflexivity.
  by destruct (includes text _).
Qed.

(** *** Runs of the executor that end at the first invocation *)

Lemma run_first_failure_terminal fn random m st e :
  try_request (fn 0) = caught e ->
  isRetryableError e (response e) = false ->
  let r := executeWithConcurrencyControl fn random m st in
  invocations r = 1 /\ outcome r = inr (exhausted_error m (Some e)).
Proof.
  intros He Hnr.
  destruct (run_unfold fn random m st) as (Hinv & _ & Hout). cbv zeta in *.
  revert Hinv Hout. simpl. rewrite He. simpl.
  rewrite Hnr, andb_false_r. simpl. by intros -> [-> _].
Qed.

Lemma run_first_success fn random m st result :
  try_request (fn 0) = passed result ->
  let r := executeWithConcurrencyControl fn random m st in
  invocations r = 1 /\ outcome r = inl result.
Proof.
  intros Hok.
  destruct (run_unfold fn random m st) as (Hinv & _ & Hout). cbv zeta in *.
  destruct (attempts_recover fn random m 0 (S m) 0 None
              (on_admit (on_submit st)) 0 [] result) as [H1 H2];
    [lia|lia|intros j; lia|done|].
  rewrite H1 in Hout. destruct Hout as [-> _]. by rewrite Hinv, H2.
Qed.

(** *** [executeSuiteQL] *)

(** X21.  When no fresh token is cached and the token endpoint answers with
    a non-2xx status or without an [access_token], [executeSuiteQL] throws
    the token error as it is: no query is sent, the executor's counters do
    not move, and the token cache is left as it was. *)
Theorem token_failure_sends_no_query io net random s st reply :
  (forall c, OAuth.tokenCache s !! "access_token" = Some c ->
             OAuth.fresh c (OAuth.now io) = false) ->
  OAuth.fetch io = inr reply ->
  OAuth.ok reply = false \/
  (exists data, OAuth.json reply = Some data /\
                truthy_string (OAuth.access_token data) = false) ->
  let q := SuiteQL.executeSuiteQL io net random s st in
  SuiteQL.queries_sent q = 0 /\
  SuiteQL.stats_after q = st /\
  OAuth.tokenCache (SuiteQL.oauth_after q) = OAuth.tokenCache s /\
  exists err, SuiteQL.result q = inr (new_Error err).
Proof.
  intros Hmiss Hf Hbad.
  destruct (OAuthProofs.exchange_failure io reply Hf Hbad) as (err & n & Hx).
  unfold SuiteQL.executeSuiteQL.
  rewrite (OAuthProofs.getAccessToken_miss io s Hmiss).
  unfold OAuth.refresh. rewrite Hx. simpl. repeat split. by exists err.
Qed.

Lemma token_failure_sends_no_query_witness :
  let reply :=
    {| OAuth.ok := false; OAuth.status := 401; OAuth.text := "invalid_client";
       OAuth.json := None;
       OAuth.json_error := "Unexpected token i in JSON at position 0" |} in
  let io :=
    {| OAuth.env := {| OAuth.NETSUITE_ACCOUNT_ID := Some "1234567";
                       OAuth.NETSUITE_CLIENT_ID := Some "client";
                       OAuth.NETSUITE_CERT_ID := Some "cert";
                       OAuth.NETSUITE_PRIVATE_KEY := Some "key" |};
       OAuth.sign := fun _ => inr "assertion"; OAuth.fetch := inr reply;
       OAuth.now := 1000%Z; OAuth.now_after_exchange := 1200%Z |} in
  let s := {| OAuth.tokenCache := ∅; OAuth.exchanges := 0 |} in
  let net : SuiteQL.query_network :=
    fun _ => inr {| SuiteQL.ok := true; SuiteQL.status := 200%Z;
                    SuiteQL.text := "{}"; SuiteQL.json := None;
                    SuiteQL.json_error := "Unexpected end of JSON input" |} in
  let q := SuiteQL.executeSuiteQL io net (fun _ => 0%float) s resetStats in
  SuiteQL.queries_sent q = 0 /\
  SuiteQL.stats_after q = resetStats /\
  OAuth.tokenCache (SuiteQL.oauth_after q) = OAuth.tokenCache s /\
  exists err, SuiteQL.result q = inr (new_Error err).
Proof.
  intros reply io s net.
  apply (token_failure_sends_no_query io net (fun _ => 0%float) s resetStats reply).
  - intros c Hc. unfold s in Hc. simpl in Hc. by rewrite lookup_empty in Hc.
  - reflexivity.
  - left. reflexivity.
Defined.

(** X22.  A query answered with a non-2xx status is not retried, whatever
    the status (429 and 503 included), unless the response text carries the
    rate-limit code: the error the closure throws has no [response], so
    one request is sent and the call fails with "Request failed after 4
    attempts: SuiteQL query failed: <status> - <text>". *)
Theorem query_error_not_retried io net random s st tok s' reply :
  OAuth.getAccessToken io s = (inr tok, s') ->
  net 0 = inr reply ->
  SuiteQL.ok reply = false ->
  includes (SuiteQL.text reply) "SSS_REQUEST_LIMIT_EXCEEDED" = false ->
  let q := SuiteQL.executeSuiteQL io net random s st in
  SuiteQL.queries_sent q = 1 /\
  SuiteQL.result q =
    inr (new_Error
           ("Request failed after 4 attempts: SuiteQL query failed: " ++
            string_of_Z (SuiteQL.status reply) ++ " - " ++ SuiteQL.text reply)).
Proof.
  intros Htok Hnet Hok Htext. unfold SuiteQL.executeSuiteQL. rewrite Htok.
  cbn [SuiteQL.queries_sent SuiteQL.result].
  apply (run_first_failure_terminal (SuiteQL.requestFn net) random
           (maxRetries CONFIG) st
           (new_Error ("SuiteQL query failed: " ++
                       string_of_Z (SuiteQL.status reply) ++ " - " ++
                       SuiteQL.text reply))).
  - unfold SuiteQL.requestFn. by rewrite Hnet, Hok.
  - by rewrite query_failed_retryable.
Qed.

Lemma query_error_not_retried_witness :
  let c := {| OAuth.token := "cached"; OAuth.expiresAt := Some 5000000%Z |} in
  let s := {| OAuth.tokenCache := {[ "access_token" := c ]}; OAuth.exchanges := 1 |} in
  let io :=
    {| OAuth.env := {| OAuth.NETSUITE_ACCOUNT_ID := Some "1234567";
                       OAuth.NETSUITE_CLIENT_ID := Some "client";
                       OAuth.NETSUITE_CERT_ID := Some "cert";
                       OAuth.NETSUITE_PRIVATE_KEY := Some "key" |};
       OAuth.sign := fun _ => inr "assertion"; OAuth.fetch := inl "offline";
       OAuth.now := 1000000%Z; OAuth.now_after_exchange := 1000000%Z |} in
  let busy :=
    {| SuiteQL.ok := false; SuiteQL.status := 503%Z;
       SuiteQL.text := "Service Unavailable"; SuiteQL.json := None;
       SuiteQL.json_error := "Unexpected token S in JSON at position 0" |} in
  let q := SuiteQL.executeSuiteQL io (fun _ => inr busy) (fun _ => 0%float) s resetStats in
  SuiteQL.queries_sent q = 1 /\
  SuiteQL.result q =
    inr (new_Error
           "Request failed after 4 attempts: SuiteQL query failed: 503 - Service Unavailable").
Proof.
  intros c s io busy.
  apply (query_error_not_retried io (fun _ => inr busy) (fun _ => 0%float) s resetStats
           "cached" s busy); reflexivity.
Defined.

(** X23.  A query whose non-2xx responses carry the rate-limit code in their
    text is retried until the budget is used: four requests are sent when
    all four are answered that way, and the call fails. *)
Theorem rate_limited_query_retried io net random s st tok s' :
  OAuth.getAccessToken io s = (inr tok, s') ->
  (forall k, k <= 3 ->
     exists reply,
       net k = inr reply /\ SuiteQL.ok reply = false /\
       includes (SuiteQL.text reply) "SSS_REQUEST_LIMIT_EXCEEDED" = true) ->
  let q := SuiteQL.executeSuiteQL io net random s st in
  SuiteQL.queries_sent q = 4 /\ exists err, SuiteQL.result q = inr err.
Proof.
  intros Htok Hnet. unfold SuiteQL.executeSuiteQL. rewrite Htok.
  cbn [SuiteQL.queries_sent SuiteQL.result].
  apply (failure_after_retryable_errors (SuiteQL.requestFn net) random
           (maxRetries CONFIG) st).
  intros j Hj. destruct (Hnet j Hj) as (reply & Hr & Hok & Htext).
  unfold retryable_failure, SuiteQL.requestFn. rewrite Hr, Hok.
  cbn [negb try_request]. by rewrite query_failed_retryable.
Qed.

Lemma rate_limited_query_retried_witness :
  let c := {| OAuth.token := "cached"; OAuth.expiresAt := Some 5000000%Z |} in
  let s := {| OAuth.tokenCache := {[ "access_token" := c ]}; OAuth.exchanges := 1 |} in
  let io :=
    {| OAuth.env := {| OAuth.NETSUITE_ACCOUNT_ID := Some "1234567";
                       OAuth.NETSUITE_CLIENT_ID := Some "client";
                       OAuth.NETSUITE_CERT_ID := Some "cert";
                       OAuth.NETSUITE_PRIVATE_KEY := Some "key" |};
       OAuth.sign := fun _ => inr "assertion"; OAuth.fetch := inl "offline";
       OAuth.now := 1000000%Z; OAuth.now_after_exchange := 1000000%Z |} in
  let limited :=
    {| SuiteQL.ok := false; SuiteQL.status := 429%Z;
       SuiteQL.text := "code: SSS_REQUEST_LIMIT_EXCEEDED"; SuiteQL.json := None;
       SuiteQL.json_error := "Unexpected token c in JSON at position 0" |} in
  let q := SuiteQL.executeSuiteQL io (fun _ => inr limited) (fun _ => 0%float) s resetStats in
  SuiteQL.queries_sent q = 4 /\ exists err, SuiteQL.result q = inr err.
Proof.
  intros c s io limited.
  apply (rate_limited_query_retried io (fun _ => inr limited) (fun _ => 0%float) s
           resetStats "cached" s).
  - reflexivity.
  - intros k _. exists limited. repeat split.
Defined.

(** X24.  A query answered with a 2xx status and a body that parses, whose
    [items] member does not itself carry the rate-limit code, is returned
    after one request: the value of [items], or the empty array when the
    body has none.  An [error] member of the body itself is not looked at,
    so a body carrying the rate-limit code and no rows comes back as an
    empty result and is not retried.  When [items] does carry the code (it
    is then an object with an [error] member), the executor takes the reply
    for a rate-limit signal: four such replies use up the budget and the
    call fails. *)
Theorem ok_reply_returned io net random s st tok s' :
  OAuth.getAccessToken io s = (inr tok, s') ->
  let q := SuiteQL.executeSuiteQL io net random s st in
  (forall reply body,
     net 0 = inr reply ->
     SuiteQL.ok reply = true ->
     SuiteQL.json reply = Some body ->
     result_error_code (default SuiteQL.empty_array (SuiteQL.items body)) <>
       Some "SSS_REQUEST_LIMIT_EXCEEDED" ->
     SuiteQL.queries_sent q = 1 /\
     SuiteQL.result q = inl (default SuiteQL.empty_array (SuiteQL.items body))) /\
  ((forall k, k <= 3 ->
      exists reply body rows,
        net k = inr reply /\ SuiteQL.ok reply = true /\
        SuiteQL.json reply = Some body /\ SuiteQL.items body = Some rows /\
        result_error_code rows = Some "SSS_REQUEST_LIMIT_EXCEEDED") ->
   SuiteQL.queries_sent q = 4 /\ exists err, SuiteQL.result q = inr err).
Proof.
  intros Htok. cbv zeta. unfold SuiteQL.executeSuiteQL. rewrite Htok.
  cbn [SuiteQL.queries_sent SuiteQL.result]. split.
  - intros reply body Hnet Hok Hjson Hcode.
    apply run_first_success.
    unfold SuiteQL.requestFn. rewrite Hnet, Hok, Hjson. cbn [negb try_request].
    by rewrite bool_decide_eq_false_2.
  - intros Hall.
    apply (failure_after_retryable_errors (SuiteQL.requestFn net) random
             (maxRetries CONFIG) st).
    intros j Hj. destruct (Hall j Hj) as (reply & body & rows & Hr & Hok & Hjson & Hi & Hc).
    unfold retryable_failure, SuiteQL.requestFn. rewrite Hr, Hok, Hjson, Hi.
    cbn [negb try_request default]. by rewrite bool_decide_eq_true_2.
Qed.

Lemma ok_reply_returned_witness :
  let c := {| OAuth.token := "cached"; OAuth.expiresAt := Some 5000000%Z |} in
  let s := {| OAuth.tokenCache := {[ "access_token" := c ]}; OAuth.exchanges := 1 |} in
  let io :=
    {| OAuth.env := {| OAuth.NETSUITE_ACCOUNT_ID := Some "1234567";
                       OAuth.NETSUITE_CLIENT_ID := Some "client";
                       OAuth.NETSUITE_CERT_ID := Some "cert";
                       OAuth.NETSUITE_PRIVATE_KEY := Some "key" |};
       OAuth.sign := fun _ => inr "assertion"; OAuth.fetch := inl "offline";
       OAuth.now := 1000000%Z; OAuth.now_after_exchange := 1000000%Z |} in
  let body :=
    {| SuiteQL.items := None;
       SuiteQL.body_error_code := Some "SSS_REQUEST_LIMIT_EXCEEDED" |} in
  let limited :=
    {| SuiteQL.ok := true; SuiteQL.status := 200%Z; SuiteQL.text := "{}";
       SuiteQL.json := Some body; SuiteQL.json_error := EmptyString |} in
  let q := SuiteQL.executeSuiteQL io (fun _ => inr limited) (fun _ => 0%float) s
             resetStats in
  SuiteQL.queries_sent q = 1 /\
  SuiteQL.result q = inl {| payload := "[]"; result_error_code := None |}.
Proof.
  intros c s io body limited.
  apply (proj1 (ok_reply_returned io (fun _ => inr limited) (fun _ => 0%float) s
                  resetStats "cached" s eq_refl) limited body); done.
Defined.

(** A 200 reply whose [items] is an object carrying the rate-limit code is
    retried until the budget is used. *)
Example items_with_rate_limit_code :
  let c := {| OAuth.token := "cached"; OAuth.expiresAt := Some 5000000%Z |} in
  let s := {| OAuth.tokenCache := {[ "access_token" := c ]}; OAuth.exchanges := 1 |} in
  let io :=
    {| OAuth.env := {| OAuth.NETSUITE_ACCOUNT_ID := Some "1234567";
                       OAuth.NETSUITE_CLIENT_ID := Some "client";
                       OAuth.NETSUITE_CERT_ID := Some "cert";
                       OAuth.NETSUITE_PRIVATE_KEY := Some "key" |};
       OAuth.sign := fun _ => inr "assertion"; OAuth.fetch := inl "offline";
       OAuth.now := 1000000%Z; OAuth.now_after_exchange := 1000000%Z |} in
  let body :=
    {| SuiteQL.items :=
         Some {| payload := "{error: {code: 'SSS_REQUEST_LIMIT_EXCEEDED'}}";
                 result_error_code := Some "SSS_REQUEST_LIMIT_EXCEEDED" |};
       SuiteQL.body_error_code := None |} in
  let limited :=
    {| SuiteQL.ok := true; SuiteQL.status := 200%Z; SuiteQL.text := "{}";
       SuiteQL.json := Some body; SuiteQL.json_error := EmptyString |} in
  let q := SuiteQL.executeSuiteQL io (fun _ => inr limited) (fun _ => 0%float) s
             resetStats in
  SuiteQL.queries_sent q = 4 /\
  SuiteQL.result q =
    inr (new_Error "Request failed after 4 attempts: SSS_REQUEST_LIMIT_EXCEEDED").
Proof. split; reflexivity. Qed.

(** X25.  One call of [executeSuiteQL] sends at most one token exchange and
    at most four queries: the token is obtained once, before the first
    attempt, and not again between attempts. *)
Theorem query_io_bounds io net random s st :
  let q := SuiteQL.executeSuiteQL io net random s st in
  OAuth.exchanges (SuiteQL.oauth_after q) <= OAuth.exchanges s + 1 /\
  SuiteQL.queries_sent q <= 4.
Proof.
  cbv zeta. unfold SuiteQL.executeSuiteQL.
  assert (OAuth.exchanges (OAuth.getAccessToken io s).2 <= OAuth.exchanges s + 1)
    as Hx.
  { unfold OAuth.getAccessToken.
    assert (OAuth.exchanges (OAuth.refresh io s).2 <= OAuth.exchanges s + 1) as Hr.
    { unfold OAuth.refresh.
      assert ((OAuth.exchangeJWTForToken io).2 <= 1) as Hn.
      { unfold OAuth.exchangeJWTForToken.
        destruct (OAuth.getOAuthConfig _); [simpl; lia|].
        destruct (OAuth.generateClientAssertion _); [simpl; lia|].
        destruct (OAuth.fetch io) as [|reply]; [simpl; lia|].
        destruct (negb _); [simpl; lia|].
        destruct (OAuth.json reply) as [d|]; [|simpl; lia].
        destruct (negb _); simpl; lia. }
      destruct (OAuth.exchangeJWTForToken io) as [[err|data] n]; simpl in *; lia. }
    destruct (OAuth.tokenCache s !! "access_token") as [c|]; [|done].
    destruct (OAuth.fresh c _); [simpl; lia|done]. }
  destruct (OAuth.getAccessToken io s) as [[err|tok] s1];
    cbn [fst snd SuiteQL.oauth_after SuiteQL.queries_sent] in *.
  - split; [done|lia].
  - split; [done|].
    destruct (run_unfold (SuiteQL.requestFn net) random (maxRetries CONFIG) st)
      as (Hinv & _). rewrite Hinv.
    destruct (attempts_calls (SuiteQL.requestFn net) random (maxRetries CONFIG)
                (S (maxRetries CONFIG)) 0 None (on_admit (on_submit st)) 0 [])
      as [H|[H _]]; simpl in *; lia.
Qed.

End SuiteQLProofs.
